(** * Speaker diarization pipeline (whisperdesk-diarization)

    A shallow embedding of the signal-to-label core of the diarization CLI:

    - [Utils]      : [Utils::Math::find_peaks]                      (src/src/utils.cpp)
    - [Segmenter]  : [SpeakerSegmenter::process_window],
                     [SpeakerSegmenter::detect_change_points]       (src/src/speaker-segmenter.cpp)
    - [Embedder]   : [SpeakerEmbedder::find_or_create_speaker],
                     [calculate_confidence], [reset_speakers], ...  (src/src/speaker-embedder.cpp)
    - [Engine]     : [DiarizationEngine::create_segments],
                     [assign_speakers], threshold validation of [main]
                                                                    (src/src/diarize-cli.cpp)

    They are followed by the inputs of the examples ([Inputs]), by the
    shapes the statements refer to ([Shapes], [Runs]), by the per-frame
    scoring rule in the words of the specification ([Spec]), and by the
    rest of the code that the further properties are about:

    - [Pipeline]    : [DiarizationEngine::process_audio]            (src/src/diarize-cli.cpp)
    - [WindowPeaks] : [SpeakerSegmenter::find_peaks]                (src/src/speaker-segmenter.cpp)
    - [Audio]       : [Utils::Audio::normalize_audio], [simple_resample]
    - [Json]        : [Utils::Json::generate_speaker_stats]
    - [FileSystem]  : [Utils::FileSystem::get_file_extension]
    - [Args]        : [Utils::Args::parse_arguments]                (src/src/utils.cpp)

    with the measures their statements use ([Measures]) and a few more
    inputs ([MoreInputs]).  The properties come last: first those that
    settle the claims, each introduced by its claim, then the further
    properties of the code.

    Numeric conventions.  A C++ [float] is modelled by a real number.
    Scores, similarities and times are computed exactly.  Where a float
    decides a sample position (the quotient [size / rate], the products
    [time * rate], the ratio and the indices of [simple_resample]) the
    result of each operation is rounded to binary32 with [round32], since a
    sample more or less changes what the code returns; overflow to infinity
    is not represented.  NaN and the infinities appear only where the code
    can receive them from the command line ([parsed_float]).
    [std::exp], [std::log] and [std::sqrt] are the real [exp], [ln] and
    [sqrt].  Vector sizes and indices ([size_t]) are natural numbers, the
    places where an unsigned subtraction or a conversion can wrap are written
    out with [wrap_size].  An [int] is an integer of [Z]; a conversion to
    [int] is [wrap_int].  The two ONNX sessions are functions held by the
    objects that own them; a session that throws returns [None]. *)

From Stdlib Require Import Reals Lra Lia List ZArith Bool Arith Sorted.
From Stdlib Require String Ascii.
Import ListNotations.
Local Open Scope R_scope.

(* ------------------------------------------------------------------ *)
(** ** Numeric helpers *)

Module Num.

(** [std::max(a, b)]: [b] when [a < b], else [a]. *)
Definition fmax (a b : R) : R := if Rlt_dec a b then b else a.

(** [std::min(a, b)]: [b] when [b < a], else [a]. *)
Definition fmin (a b : R) : R := if Rlt_dec b a then b else a.

Definition gtb (a b : R) : bool := if Rgt_dec a b then true else false.
Definition geb (a b : R) : bool := if Rge_dec a b then true else false.
Definition ltb (a b : R) : bool := if Rlt_dec a b then true else false.

(** *** Binary32 *)

(** The exponent of the binade of [x]: the largest [e] with [2^e <= |x|],
    searched for from 127 downwards and never below -126 (the subnormal
    numbers share the exponent of the smallest binade). *)
Fixpoint exponent_below (n : nat) (x : R) : Z :=
  match n with
  | O => (-126)%Z
  | S n' =>
    if Rle_dec (powerRZ 2 (Z.of_nat (S n') - 126)) (Rabs x)
    then (Z.of_nat (S n') - 126)%Z
    else exponent_below n' x
  end.

Definition exponent (x : R) : Z := exponent_below 253 x.

(** The integer nearest to [y], the even one of the two when [y] is half
    way. *)
Definition nearest_even (y : R) : Z :=
  let f := Zfloor y in
  if Rlt_dec (y - IZR f) (1 / 2) then f
  else if Rlt_dec (1 / 2) (y - IZR f) then (f + 1)%Z
  else if Z.even f then f else (f + 1)%Z.

(** The binary32 number nearest to [x] (round to nearest, ties to even):
    a multiple of [2^(e - 23)], [e] the exponent of [x]. *)
Definition round32 (x : R) : R :=
  let ulp := powerRZ 2 (exponent x - 23) in
  IZR (nearest_even (x / ulp)) * ulp.

(** What [std::stof] can return: a number, an infinity (for "inf") or NaN
    (for "nan"). *)
Inductive parsed_float :=
| Finite (x : R)
| PlusInf
| MinusInf
| NaN.

(** [t > c] and [t < c] for a constant [c]: false for NaN. *)
Definition above (t : parsed_float) (c : R) : bool :=
  match t with
  | Finite x => gtb x c
  | PlusInf => true
  | MinusInf => false
  | NaN => false
  end.

Definition below (t : parsed_float) (c : R) : bool :=
  match t with
  | Finite x => ltb x c
  | PlusInf => false
  | MinusInf => true
  | NaN => false
  end.

(** Conversion of an integer to [size_t] (64 bits, modular). *)
Definition wrap_size (z : Z) : Z := (z mod 2 ^ 64)%Z.

(** Conversion of an integer to [int] (32 bits, two's complement). *)
Definition wrap_int (z : Z) : Z := ((z + 2 ^ 31) mod 2 ^ 32 - 2 ^ 31)%Z.

Definition INT_MAX : Z := (2 ^ 31 - 1)%Z.

(** [static_cast<size_t>(x)] of a float: the integer part.  C++ defines it
    for [0 <= x < 2^64] only; the model takes the floor, cut at zero. *)
Definition float_to_size (x : R) : nat := Z.to_nat (Zfloor x).

(** Sum of a vector, accumulated from the left as the source loops do. *)
Definition sum (l : list R) : R := fold_left Rplus l 0.

(** [*std::max_element(first, last)]: the running largest, replaced only by
    a strictly larger element. *)
Definition max_element (l : list R) : R :=
  match l with
  | [] => 0
  | x :: r => fold_left (fun largest p => if Rlt_dec largest p then p else largest) r x
  end.

(** [v[i] = x] on a vector; out of range the vector is returned as it is
    (the sources guard every such write). *)
Fixpoint set_nth {A : Type} (i : nat) (x : A) (l : list A) : list A :=
  match l, i with
  | [], _ => []
  | _ :: r, O => x :: r
  | y :: r, S j => y :: set_nth j x r
  end.

End Num.

(* ------------------------------------------------------------------ *)
(** ** Utils::Math *)

Module Utils.
Import Num.

(** The inner loop of [find_peaks]: [j] runs over
    [i - min_distance .. i + min_distance]; the candidate is dropped at the
    first [j <> i] with [signal[j] >= signal[i]]. *)
Definition is_local_maximum (signal : list R) (i min_distance : nat) : bool :=
  forallb (fun j => (j =? i)%nat || negb (geb (nth j signal 0) (nth i signal 0)))
          (seq (i - min_distance) (2 * min_distance + 1)).

(** [Utils::Math::find_peaks].  The loop bound [signal.size() - min_distance]
    is unsigned: when [signal.size() < min_distance] it wraps around and the
    first iteration reads [signal[min_distance]] past the end of the vector,
    which is undefined ([None]).  Otherwise [i] runs over
    [min_distance .. size - min_distance - 1] and every read is in range. *)
Definition find_peaks (signal : list R) (threshold : R) (min_distance : nat)
  : option (list nat) :=
  if (length signal <? min_distance)%nat then None
  else Some (filter (fun i => gtb (nth i signal 0) threshold
                              && is_local_maximum signal i min_distance)
                    (seq min_distance (length signal - min_distance - min_distance))).

End Utils.

(* ------------------------------------------------------------------ *)
(** ** SpeakerSegmenter *)

Module Segmenter.
Import Num.

(** The output tensor of the segmentation model, shape
    [1, time_steps, num_classes], stored row by row. *)
Record ModelOutput := mkOutput {
  output_data : list R;
  time_steps : nat;
  num_classes : nat
}.

(** [session_->Run]: the model's answer for one window, [None] when it throws. *)
Definition Session := list R -> option ModelOutput.

Record SpeakerSegmenter := mkSegmenter {
  session_ : option Session;      (* null until [initialize] succeeds *)
  window_size_ : nat;
  hop_size_ : nat;
  sample_rate_ : Z
}.

(** The window and hop sizes fixed by the constructor and by [initialize]. *)
Definition WINDOW_SIZE : nat := Z.to_nat 51200.   (* 3.2 s at 16 kHz *)
Definition HOP_SIZE : nat := Z.to_nat 25600.      (* 50% overlap *)

(** The constructor. *)
Definition new_segmenter : SpeakerSegmenter :=
  mkSegmenter None WINDOW_SIZE HOP_SIZE 16000.

(** [initialize(model_path, sample_rate)]: [loaded] is the session the
    runtime builds from the model file, [None] when loading throws. *)
Definition initialize (s : SpeakerSegmenter) (loaded : option Session) (sample_rate : Z)
  : SpeakerSegmenter * bool :=
  match loaded with
  | Some run => (mkSegmenter (Some run) WINDOW_SIZE HOP_SIZE sample_rate, true)
  | None => (mkSegmenter (session_ s) WINDOW_SIZE HOP_SIZE sample_rate, false)
  end.

Definition is_initialized (s : SpeakerSegmenter) : bool :=
  match session_ s with Some _ => true | None => false end.

(** The pre-emphasis pass of [normalize_audio]: the loop runs from the last
    sample down to the second, so [audio[i-1]] is still the unfiltered one. *)
Fixpoint pre_emphasis_from (prev : R) (audio : list R) : list R :=
  match audio with
  | [] => []
  | x :: r => (x - 0.97 * prev) :: pre_emphasis_from x r
  end.

Definition normalize_audio (audio : list R) : list R :=
  match audio with
  | [] => []
  | _ =>
    let max_val := fold_left (fun m sample => fmax m (Rabs sample)) audio 0 in
    let scaled :=
      if Rgt_dec max_val 1e-6 then map (fun sample => sample / max_val) audio else audio in
    match scaled with
    | [] => []
    | x :: r => x :: pre_emphasis_from x r
    end
  end.

(** [output_data[t * num_classes + c]]. *)
Definition logit (o : ModelOutput) (t c : nat) : R :=
  nth (t * num_classes o + c) (output_data o) 0.

(** The scan for the dominant class of one time step: classes [cs] are
    visited in order, a strictly larger logit replaces the current one. *)
Fixpoint dominant_scan (o : ModelOutput) (t : nat) (cs : list nat)
         (dominant_class : Z) (max_logit : R) : Z * R :=
  match cs with
  | [] => (dominant_class, max_logit)
  | c :: cs' =>
    if Rgt_dec (logit o t c) max_logit
    then dominant_scan o t cs' (wrap_int (Z.of_nat c)) (logit o t c)
    else dominant_scan o t cs' dominant_class max_logit
  end.

Definition dominant (o : ModelOutput) (t : nat) : Z * R :=
  dominant_scan o t (seq 1 (num_classes o - 1)) 0%Z (logit o t 0).

(** The normalising sum of the softmax of time step [t]. *)
Definition sum_exp (o : ModelOutput) (t : nat) (max_logit : R) : R :=
  fold_left (fun acc c => acc + exp (logit o t c - max_logit)) (seq 0 (num_classes o)) 0.

(** The entropy of the softmax of time step [t], as the source computes it:
    terms whose probability is not above [1e-6] are left out. *)
Definition entropy (o : ModelOutput) (t : nat) (max_logit : R) : R :=
  fold_left (fun acc c =>
               let prob := exp (logit o t c - max_logit) / sum_exp o t max_logit in
               if Rgt_dec prob 1e-6 then acc - prob * ln prob else acc)
            (seq 0 (num_classes o)) 0.

(** The body of the loop over time steps: the change probability of step
    [t] and the dominant class handed to the next step. *)
Definition frame_step (o : ModelOutput) (t : nat) (prev_dominant_class : Z) : R * Z :=
  let '(dominant_class, max_logit) := dominant o t in
  let change_prob :=
    if negb (prev_dominant_class =? -1)%Z && negb (prev_dominant_class =? dominant_class)%Z
    then
      let change_prob := fmin 1 (entropy o t max_logit / ln (INR (num_classes o))) in
      if negb (dominant_class =? prev_dominant_class)%Z
      then fmin 1 (change_prob * 2)
      else change_prob
    else 0 in
  (change_prob, dominant_class).

Fixpoint frame_loop (o : ModelOutput) (ts : list nat) (prev_dominant_class : Z) : list R :=
  match ts with
  | [] => []
  | t :: ts' =>
    let '(change_prob, dominant_class) := frame_step o t prev_dominant_class in
    change_prob :: frame_loop o ts' dominant_class
  end.

(** The change probabilities of one model output: [prev_dominant_class]
    starts at [-1] for every window. *)
Definition change_probabilities (o : ModelOutput) : list R :=
  frame_loop o (seq 0 (time_steps o)) (-1)%Z.

(** The window is brought to [window_size_] samples (cut, or padded with zeros). *)
Definition fit_window (window_size : nat) (audio_window : list R) : list R :=
  firstn window_size (audio_window ++ repeat 0 (window_size - length audio_window)).

(** [process_window]: empty when the segmenter is not initialised or the
    session throws. *)
Definition process_window (s : SpeakerSegmenter) (audio_window : list R) : list R :=
  match session_ s with
  | None => []
  | Some run =>
    match run (normalize_audio (fit_window (window_size_ s) audio_window)) with
    | None => []
    | Some o => change_probabilities o
    end
  end.

(** The offsets of the sliding windows:
    [for (i = 0; i + window_size_ < audio.size(); i += hop_size_)].  The
    scan is run with [audio.size()] steps of fuel, which a positive hop
    never uses up ([window_offsets_enough]). *)
Fixpoint window_offsets (fuel i window_size hop_size size : nat) : list nat :=
  match fuel with
  | O => []
  | S fuel' =>
    if (i + window_size <? size)%nat
    then i :: window_offsets fuel' (i + hop_size) window_size hop_size size
    else []
  end.

(** The frames of the window at offset [i]: each change probability with
    its timestamp [(i + j * (window_size_ / probabilities.size())) / sample_rate_]. *)
Definition window_frames (s : SpeakerSegmenter) (audio : list R) (i : nat) : list (R * R) :=
  let window := firstn (window_size_ s) (skipn i audio) in
  let probabilities := process_window s window in
  map (fun j => (nth j probabilities 0,
                 INR (i + j * (window_size_ s / length probabilities)) / IZR (sample_rate_ s)))
      (seq 0 (length probabilities)).

(** [all_probabilities] and [all_timestamps], pairwise. *)
Definition all_frames (s : SpeakerSegmenter) (audio : list R) : list (R * R) :=
  flat_map (window_frames s audio)
           (window_offsets (length audio) 0 (window_size_ s) (hop_size_ s) (length audio)).

Definition all_probabilities (s : SpeakerSegmenter) (audio : list R) : list R :=
  map fst (all_frames s audio).

Definition all_timestamps (s : SpeakerSegmenter) (audio : list R) : list R :=
  map snd (all_frames s audio).

(** The inline peak scan of [detect_change_points]: the indices
    [1 <= i < size - 1] whose score is above the threshold and above both
    neighbours.  It is entered for a non-empty vector only. *)
Definition peak_scan (probabilities : list R) (adaptive_threshold : R) : list nat :=
  filter (fun i => gtb (nth i probabilities 0) adaptive_threshold
                   && gtb (nth i probabilities 0) (nth (i - 1) probabilities 0)
                   && gtb (nth i probabilities 0) (nth (i + 1) probabilities 0))
         (seq 1 (length probabilities - 2)).

Definition adaptive_threshold (detection_threshold : R) (probabilities : list R) : R :=
  let max_prob := max_element probabilities in
  let mean_prob := sum probabilities / INR (length probabilities) in
  fmax detection_threshold (mean_prob + 2 * (max_prob - mean_prob) * 0.1).

(** [for (float t = 30; t < duration - 10; t += 30)].  The fuel handed
    over by [candidate_points] is never used up ([artificial_points_enough]). *)
Fixpoint artificial_points (fuel : nat) (t duration : R) : list R :=
  match fuel with
  | O => []
  | S fuel' =>
    if Rlt_dec t (duration - 10)
    then t :: artificial_points fuel' (t + 30) duration
    else []
  end.

(** [std::sort] on floats: the ascending arrangement, built by insertion. *)
Fixpoint sort_insert (x : R) (l : list R) : list R :=
  match l with
  | [] => [x]
  | y :: r => if Rlt_dec y x then y :: sort_insert x r else x :: y :: r
  end.

Definition std_sort (l : list R) : list R := fold_right sort_insert [] l.

(** The predicate handed to [std::unique]. *)
Definition too_close (a b : R) : bool := ltb (Rabs (a - b)) 1.

(** [std::unique] with a predicate, followed by [erase]: an element is
    dropped when the predicate holds between the last element kept and it. *)
Fixpoint unique_from (kept : R) (l : list R) : list R :=
  match l with
  | [] => []
  | x :: r => if too_close kept x then unique_from kept r else x :: unique_from x r
  end.

Definition std_unique (l : list R) : list R :=
  match l with
  | [] => []
  | x :: r => x :: unique_from x r
  end.

(** The change points before sorting and merging: the peaks of the scan,
    or the artificial points of a long recording without peaks. *)
Definition candidate_points (s : SpeakerSegmenter) (audio : list R) (threshold : R) : list R :=
  let detection_threshold := fmax 0.01 (threshold * 0.1) in
  let probabilities := all_probabilities s audio in
  let timestamps := all_timestamps s audio in
  let change_points :=
    match probabilities with
    | [] => []
    | _ => map (fun i => nth i timestamps 0)
               (peak_scan probabilities (adaptive_threshold detection_threshold probabilities))
    end in
  match change_points with
  | [] =>
    if (wrap_size (sample_rate_ s * 10) <? Z.of_nat (length audio))%Z
    then
      let duration := INR (length audio) / IZR (sample_rate_ s) in
      artificial_points (Z.to_nat (Zceil (duration / 30))) 30 duration
    else []
  | _ => change_points
  end.

Definition detect_change_points (s : SpeakerSegmenter) (audio : list R) (threshold : R)
  : list R :=
  if is_initialized s
  then std_unique (std_sort (candidate_points s audio threshold))
  else [].

End Segmenter.

(* ------------------------------------------------------------------ *)
(** ** SpeakerEmbedder *)

Module Embedder.
Import Num.

(** [session_->Run] of the embedding model, [None] when it throws.  The
    answer is read through the raw pointer [output_data]: the function gives
    the float found at [output_data[i]], whatever the size of the tensor (a
    read past its end is undefined in C++).  The floats are real numbers: a
    NaN or an infinity in the output is not represented. *)
Definition Session := list R -> option (nat -> R).

Record SpeakerEmbedder := mkEmbedder {
  session_ : option Session;
  target_length_ : nat;
  embedding_dim_ : nat;
  speaker_centroids_ : list (list R);   (* speaker clustering state *)
  speaker_counts_ : list Z
}.

Definition new_embedder : SpeakerEmbedder :=
  mkEmbedder None (Z.to_nat 48000) 512 [] [].

Definition is_initialized (e : SpeakerEmbedder) : bool :=
  match session_ e with Some _ => true | None => false end.

Definition get_speaker_count (e : SpeakerEmbedder) : nat :=
  length (speaker_centroids_ e).

Definition set_speakers (e : SpeakerEmbedder) (centroids : list (list R)) (counts : list Z)
  : SpeakerEmbedder :=
  mkEmbedder (session_ e) (target_length_ e) (embedding_dim_ e) centroids counts.

(** [normalize_embedding]: division by the L2 norm when it is above
    [1e-6] (an empty vector has norm 0 and is returned as it is). *)
Definition normalize_embedding (embedding : list R) : list R :=
  let norm := sqrt (fold_left (fun acc val => acc + val * val) embedding 0) in
  if Rgt_dec norm 1e-6 then map (fun val => val / norm) embedding else embedding.

Fixpoint dot_product (a b : list R) (acc : R) : R :=
  match a, b with
  | x :: a', y :: b' => dot_product a' b' (acc + x * y)
  | _, _ => acc
  end.

Definition cosine_similarity (a b : list R) : R :=
  if negb (length a =? length b)%nat || (length a =? 0)%nat then 0
  else fmax (-1) (fmin 1 (dot_product a b 0)).

(** [prepare_audio_segment]: pad or cut to [target_length_], then scale the
    peak to one. *)
Definition prepare_audio_segment (e : SpeakerEmbedder) (audio : list R) : list R :=
  let prepared :=
    firstn (target_length_ e) audio ++ repeat 0 (target_length_ e - length audio) in
  let max_val := fold_left (fun m sample => fmax m (Rabs sample)) prepared 0 in
  if Rgt_dec max_val 1e-6 then map (fun sample => sample / max_val) prepared else prepared.

(** [extract_embedding]: a zero vector when the embedder is not initialised
    or when the session throws (the exception is handled inside); otherwise
    the [embedding_dim_] floats from [output_data] on, normalised. *)
Definition extract_embedding (e : SpeakerEmbedder) (audio_segment : list R) : list R :=
  match session_ e with
  | None => repeat 0 (embedding_dim_ e)
  | Some run =>
    match run (prepare_audio_segment e audio_segment) with
    | None => repeat 0 (embedding_dim_ e)
    | Some output_data => normalize_embedding (map output_data (seq 0 (embedding_dim_ e)))
    end
  end.

(** The running mean of [update_speaker_centroid], over the common prefix
    of the two vectors. *)
Fixpoint running_mean (centroid embedding : list R) (count : Z) : list R :=
  match centroid, embedding with
  | c :: centroid', x :: embedding' =>
    (c * IZR count + x) / IZR (count + 1) :: running_mean centroid' embedding' count
  | _, _ => centroid
  end.

(** [update_speaker_centroid]: nothing for an id out of range; otherwise
    the running mean, the count incremented (an [int]; its overflow after
    2^31 updates of one profile is not modelled) and the centroid
    normalised again. *)
Definition update_speaker_centroid (e : SpeakerEmbedder) (speaker_id : Z) (embedding : list R)
  : SpeakerEmbedder :=
  if (speaker_id <? 0)%Z || (Z.of_nat (length (speaker_centroids_ e)) <=? speaker_id)%Z
  then e
  else
    let i := Z.to_nat speaker_id in
    let centroid := nth i (speaker_centroids_ e) [] in
    let count := nth i (speaker_counts_ e) 0%Z in
    set_speakers e
      (set_nth i (normalize_embedding (running_mean centroid embedding count))
               (speaker_centroids_ e))
      (set_nth i (count + 1)%Z (speaker_counts_ e)).

(** The comparison loop of [find_or_create_speaker]: [i] is the index of
    the head of [centroids]. *)
Fixpoint best_match (embedding : list R) (centroids : list (list R)) (i : nat)
         (best_similarity : R) (best_speaker : Z) : R * Z :=
  match centroids with
  | [] => (best_similarity, best_speaker)
  | centroid :: rest =>
    let similarity := cosine_similarity embedding centroid in
    if Rgt_dec similarity best_similarity
    then best_match embedding rest (S i) similarity (wrap_int (Z.of_nat i))
    else best_match embedding rest (S i) best_similarity best_speaker
  end.

(** [find_or_create_speaker]: the embedder after the call and the id returned. *)
Definition find_or_create_speaker (e : SpeakerEmbedder) (embedding : list R)
           (threshold : R) (max_speakers : Z) : SpeakerEmbedder * Z :=
  let '(best_similarity, best_speaker) :=
    best_match embedding (speaker_centroids_ e) 0 (-1) (-1)%Z in
  if gtb best_similarity threshold && (0 <=? best_speaker)%Z
  then (update_speaker_centroid e best_speaker embedding, best_speaker)
  else if (wrap_int (Z.of_nat (length (speaker_centroids_ e))) <? max_speakers)%Z
  then
    let e' := set_speakers e (speaker_centroids_ e ++ [embedding])
                             (speaker_counts_ e ++ [1%Z]) in
    (e', wrap_int (Z.of_nat (length (speaker_centroids_ e') - 1)))
  else if (0 <=? best_speaker)%Z
  then (update_speaker_centroid e best_speaker embedding, best_speaker)
  else (e, 0%Z).

Definition calculate_confidence (e : SpeakerEmbedder) (embedding : list R) (speaker_id : Z) : R :=
  if (speaker_id <? 0)%Z || (Z.of_nat (length (speaker_centroids_ e)) <=? speaker_id)%Z
  then 0.5
  else
    let similarity :=
      cosine_similarity embedding (nth (Z.to_nat speaker_id) (speaker_centroids_ e) []) in
    (similarity + 1) / 2.

Definition reset_speakers (e : SpeakerEmbedder) : SpeakerEmbedder :=
  set_speakers e [] [].

End Embedder.

(* ------------------------------------------------------------------ *)
(** ** DiarizationEngine and the command line *)

Module Engine.
Import Num.

Record DiarizeOptions := mkOptions {
  max_speakers : Z;
  threshold : R;
  sample_rate : Z
}.

(** [AudioSegment].  [create_segments] leaves [speaker_id] and [confidence]
    unset ([None]); [assign_speakers] fills them. *)
Record AudioSegment := mkSegment {
  samples : list R;
  start_time : R;
  end_time : R;
  speaker_id : option Z;
  confidence : option R
}.

(** [static_cast<float>(audio.size()) / options.sample_rate]: both
    operands converted to [float], the quotient rounded. *)
Definition total_duration (audio : list R) (options : DiarizeOptions) : R :=
  round32 (round32 (INR (length audio)) / round32 (IZR (sample_rate options))).

(** [static_cast<size_t>(time * options.sample_rate)]: the rate converted
    to [float], the product rounded, the integer part taken. *)
Definition sample_at (options : DiarizeOptions) (time : R) : nat :=
  float_to_size (round32 (time * round32 (IZR (sample_rate options)))).

(** The segment [start, end) with its sample slice, pushed only when
    [end_sample <= audio.size() && start_sample < end_sample]. *)
Definition emit_segment (audio : list R) (options : DiarizeOptions) (start end_ : R)
  : list AudioSegment :=
  let start_sample := sample_at options start in
  let end_sample := sample_at options end_ in
  if (end_sample <=? length audio)%nat && (start_sample <? end_sample)%nat
  then [mkSegment (firstn (end_sample - start_sample) (skipn start_sample audio))
                  start end_ None None]
  else [].

(** [for (float start = 0; start < total_duration - 5; start += 25)].  The
    sums and the difference are exact here, as they are in binary32 while
    the times stay below [2^24] s.  The fuel handed over by
    [create_segments] is never used up ([fixed_windows_eq]). *)
Fixpoint fixed_windows (fuel : nat) (audio : list R) (options : DiarizeOptions)
         (total start : R) : list AudioSegment :=
  match fuel with
  | O => []
  | S fuel' =>
    if Rlt_dec start (total - 5)
    then emit_segment audio options start (fmin (start + 25) total)
         ++ fixed_windows fuel' audio options total (start + 25)
    else []
  end.

(** The loop over consecutive boundaries: [start] is [boundaries[i]], the
    head of [rest] is [boundaries[i + 1]].  The difference [end - start] is
    taken exactly; binary32 rounds it, which can change the outcome of the
    test only for a stretch within one rounding error of 2 s.  The sample
    positions are rounded as the code rounds them ([sample_at]). *)
Fixpoint between_boundaries (audio : list R) (options : DiarizeOptions)
         (start : R) (rest : list R) : list AudioSegment :=
  match rest with
  | [] => []
  | end_ :: rest' =>
    (if Rlt_dec (end_ - start) 2 then [] else emit_segment audio options start end_)
    ++ between_boundaries audio options end_ rest'
  end.

Definition create_segments (audio : list R) (change_points : list R)
           (options : DiarizeOptions) : list AudioSegment :=
  let total := total_duration audio options in
  match change_points with
  | [] =>
    if Rgt_dec total 30
    then fixed_windows (Z.to_nat (Zceil (total / 25))) audio options total 0
    else [mkSegment audio 0 total None None]
  | _ => between_boundaries audio options 0 (change_points ++ [total])
  end.

(** The handler of [assign_speakers]:
    [static_cast<int>(i % options.max_speakers)].  [i] is a [size_t], so
    [max_speakers] is converted to [size_t] first; a zero divisor is
    undefined behaviour ([None]). *)
Definition fallback_speaker (i : nat) (max_speakers : Z) : option Z :=
  if (wrap_size max_speakers =? 0)%Z then None
  else Some (wrap_int (Z.of_nat i mod wrap_size max_speakers)).

(** The loop of [assign_speakers] from index [i] on.  [throws i] tells
    whether the [try] block of iteration [i] leaves with a [std::exception]:
    the only calls of the block that the model lets throw are those of
    [extract_embedding] (an exception raised outside its own handler), so
    the speaker set is untouched when the handler runs.  The result is
    [None] when the run meets undefined behaviour. *)
Fixpoint assign_loop (throws : nat -> bool) (e : Embedder.SpeakerEmbedder)
         (assignment_threshold : R) (options : DiarizeOptions)
         (i : nat) (segments : list AudioSegment)
  : option (Embedder.SpeakerEmbedder * list AudioSegment) :=
  match segments with
  | [] => Some (e, [])
  | segment :: rest =>
    if throws i
    then
      match fallback_speaker i (max_speakers options) with
      | None => None
      | Some id =>
        match assign_loop throws e assignment_threshold options (S i) rest with
        | None => None
        | Some (e', rest') =>
          Some (e', mkSegment (samples segment) (start_time segment) (end_time segment)
                              (Some id) (Some 0.5) :: rest')
        end
      end
    else
      let embedding := Embedder.extract_embedding e (samples segment) in
      let '(e1, id) :=
        Embedder.find_or_create_speaker e embedding assignment_threshold
                                        (max_speakers options) in
      let c := Embedder.calculate_confidence e1 embedding id in
      match assign_loop throws e1 assignment_threshold options (S i) rest with
      | None => None
      | Some (e', rest') =>
        Some (e', mkSegment (samples segment) (start_time segment) (end_time segment)
                            (Some id) (Some c) :: rest')
      end
  end.

Definition assign_speakers (throws : nat -> bool) (e : Embedder.SpeakerEmbedder)
           (segments : list AudioSegment) (options : DiarizeOptions)
  : option (Embedder.SpeakerEmbedder * list AudioSegment) :=
  if Embedder.is_initialized e
  then assign_loop throws e (fmax 0.3 (threshold options)) options 0 segments
  else Some (e, segments).

(** [detect_speaker_changes]: the detection runs on a tenth of the threshold. *)
Definition detect_speaker_changes (s : Segmenter.SpeakerSegmenter) (audio : list R)
           (options : DiarizeOptions) : list R :=
  if Segmenter.is_initialized s
  then Segmenter.detect_change_points s audio (fmax 0.001 (threshold options * 0.1))
  else [].

(** The threshold validation of [main], applied to the parsed options
    before the engine is built.  The two tests are comparisons of floats:
    both are false for NaN. *)
Definition validate_threshold (t : parsed_float) : parsed_float :=
  let t1 := if above t 0.8 then Finite 0.7 else t in
  if below t1 0.01 then Finite 0.01 else t1.

End Engine.

(* ------------------------------------------------------------------ *)
(** ** Inputs used by the examples *)

Module Inputs.

(** The options of a default run: 10 speakers, threshold 0.01, 16 kHz. *)
Definition default_options : Engine.DiarizeOptions := Engine.mkOptions 10 0.01 16000.

(** One second of silence at 16 kHz. *)
Definition one_second : list R := repeat 0 (Z.to_nat 16000).

(** Forty seconds of constant amplitude at 16 kHz. *)
Definition forty_seconds : list R := repeat 0.5 (Z.to_nat 640000).

(** Three unit embeddings: the first two are orthogonal, the third is
    closer to the second (cosine 0.8) than to the first (cosine 0.6). *)
Definition speaker_a : list R := [1; 0].
Definition speaker_b : list R := [0; 1].
Definition speaker_c : list R := [0.6; 0.8].

(** The embedder after [speaker_a], and after [speaker_a] and [speaker_b],
    were stored as profiles 0 and 1. *)
Definition one_profile : Embedder.SpeakerEmbedder :=
  Embedder.set_speakers Embedder.new_embedder [speaker_a] [1%Z].
Definition two_profiles : Embedder.SpeakerEmbedder :=
  Embedder.set_speakers Embedder.new_embedder [speaker_a; speaker_b] [1%Z; 1%Z].

(** A model output of two time steps and two classes: scores (0, 0), then
    (0, 1).  Class 0 is dominant in the first step (a tie goes to the lower
    index), class 1 in the second. *)
Definition two_frames : Segmenter.ModelOutput := Segmenter.mkOutput [0; 0; 0; 1] 2 2.

(** A model output whose second time step is all but certain: scores
    (1, 0), then (0, 40). *)
Definition sharp_frames : Segmenter.ModelOutput := Segmenter.mkOutput [1; 0; 0; 40] 2 2.

(** A segmenter at 16 kHz whose model answers [two_frames] for every window. *)
Definition ready_segmenter : Segmenter.SpeakerSegmenter :=
  fst (Segmenter.initialize Segmenter.new_segmenter (Some (fun _ => Some two_frames)) 16000).

(** 76801 samples of silence (4.8 s): the scan visits the windows at
    offsets 0 and 25600. *)
Definition two_windows : list R := repeat 0 (Z.to_nat 76801).

(** A segmenter at 16 kHz whose session throws on every window, and 100 s
    of silence: no frame is scored, so no peak is found. *)
Definition failing_segmenter : Segmenter.SpeakerSegmenter :=
  fst (Segmenter.initialize Segmenter.new_segmenter (Some (fun _ => None)) 16000).
Definition hundred_seconds : list R := repeat 0 (Z.to_nat 1600000).

(** An embedder whose model answers [speaker_a] whatever the segment. *)
Definition ready_embedder : Embedder.SpeakerEmbedder :=
  Embedder.mkEmbedder (Some (fun _ => Some (fun i => nth i speaker_a 0)))
                      (Z.to_nat 48000) 2 [] [].

(** A segment of one second, as [create_segments] leaves it. *)
Definition raw_segment : Engine.AudioSegment :=
  Engine.mkSegment one_second 0 1 None None.

End Inputs.

(* ------------------------------------------------------------------ *)
(** ** Reference shapes used in the statements *)

Module Shapes.
Import Num.


End Shapes.

(* ------------------------------------------------------------------ *)
(** ** Sequences of calls on the speaker set *)

Module Runs.
Import Num.

(** One call of [find_or_create_speaker]: the embedder it found, the
    embedding it was given, the embedder it left and the id it returned. *)
Record Call := mkCall {
  before : Embedder.SpeakerEmbedder;
  given : list R;
  after : Embedder.SpeakerEmbedder;
  returned : Z
}.

(** The calls [(embedding, threshold)] made one after the other, all with
    the same [max_speakers], each on the embedder left by the one before. *)
Fixpoint call_sequence (e : Embedder.SpeakerEmbedder) (calls : list (list R * R))
         (max_speakers : Z) : list Call :=
  match calls with
  | [] => []
  | (embedding, threshold) :: rest =>
    let r := Embedder.find_or_create_speaker e embedding threshold max_speakers in
    mkCall e embedding (fst r) (snd r) :: call_sequence (fst r) rest max_speakers
  end.

(** The embedder left by the whole sequence. *)
Fixpoint after_calls (e : Embedder.SpeakerEmbedder) (calls : list (list R * R))
         (max_speakers : Z) : Embedder.SpeakerEmbedder :=
  match calls with
  | [] => e
  | (embedding, threshold) :: rest =>
    after_calls (fst (Embedder.find_or_create_speaker e embedding threshold max_speakers))
                rest max_speakers
  end.

(** [id] is the most similar centroid for [embedding]: no centroid has a
    larger cosine similarity, and those before it have a smaller one (of
    equally similar centroids the first counts). *)
Definition most_similar (embedding : list R) (centroids : list (list R)) (id : nat) : Prop :=
  (id < length centroids)%nat
  /\ (forall j, (j < length centroids)%nat ->
                Embedder.cosine_similarity embedding (nth j centroids [])
                <= Embedder.cosine_similarity embedding (nth id centroids []))
  /\ (forall j, (j < id)%nat ->
                Embedder.cosine_similarity embedding (nth j centroids [])
                < Embedder.cosine_similarity embedding (nth id centroids [])).

End Runs.

(* ------------------------------------------------------------------ *)
(** ** Per-frame scoring, in the words of the specification *)

Module Spec.
Import Num.

(** The class-score vectors of one model output, one per time step. *)
Definition frames_of (o : Segmenter.ModelOutput) : list (list R) :=
  map (fun t => map (Segmenter.logit o t) (seq 0 (Segmenter.num_classes o)))
      (seq 0 (Segmenter.time_steps o)).

(** The class-score vectors of all windows of one buffer, in time order. *)
Definition class_score_stream (s : Segmenter.SpeakerSegmenter) (audio : list R)
  : list (list R) :=
  flat_map
    (fun i =>
       match Segmenter.session_ s with
       | None => []
       | Some run =>
         match run (Segmenter.normalize_audio
                      (Segmenter.fit_window (Segmenter.window_size_ s)
                         (firstn (Segmenter.window_size_ s) (skipn i audio)))) with
         | None => []
         | Some o => frames_of o
         end
       end)
    (Segmenter.window_offsets (length audio) 0 (Segmenter.window_size_ s)
                              (Segmenter.hop_size_ s) (length audio)).

Definition maximum (scores : list R) : R := fold_right Rmax (hd 0 scores) scores.

(** The position of the first score equal to [m]. *)
Fixpoint first_index_of (m : R) (scores : list R) : nat :=
  match scores with
  | [] => O
  | x :: r => if Req_dec_T x m then O else S (first_index_of m r)
  end.

(** "[dominant_class(t) = argmax] over the class-score vector at [t]
    (ties broken by lowest class index)". *)
Definition dominant_class (scores : list R) : nat :=
  first_index_of (maximum scores) scores.

(** "the softmax of the class-score vector (numerically stable: subtract
    the max score before exponentiating)". *)
Definition softmax (scores : list R) : list R :=
  let shifted := map (fun x => exp (x - maximum scores)) scores in
  map (fun z => z / sum shifted) shifted.

Definition shannon_entropy (p : list R) : R :=
  - sum (map (fun q => q * ln q) p).

(** "normalize by [log(num_classes)]". *)
Definition normalized_entropy (scores : list R) : R :=
  shannon_entropy (softmax scores) / ln (INR (length scores)).

(** The rule of the specification over a stream of class-score vectors:
    0 for the first frame and for a frame whose dominant class is that of
    the frame before it, [min(1, 2 x normalized_entropy)] otherwise. *)
Definition change_score (frames : list (list R)) (t : nat) : R :=
  if (t =? 0)%nat then 0
  else if (dominant_class (nth t frames []) =? dominant_class (nth (t - 1) frames []))%nat
       then 0
       else Rmin 1 (2 * normalized_entropy (nth t frames [])).

(** The entropy with the classes of probability at most [1e-6] left out. *)
Definition guarded_entropy (p : list R) : R :=
  - sum (map (fun q => q * ln q) (filter (fun q => gtb q 1e-6) p)).

(** The rule as amended: [frames] are the class-score vectors of one
    window, and the entropy is the guarded one. *)
Definition window_change_score (frames : list (list R)) (t : nat) : R :=
  if (t =? 0)%nat then 0
  else if (dominant_class (nth t frames []) =? dominant_class (nth (t - 1) frames []))%nat
       then 0
       else Rmin 1 (2 * (guarded_entropy (softmax (nth t frames []))
                         / ln (INR (length (nth t frames []))))).

End Spec.

(* ------------------------------------------------------------------ *)
(** ** Measures used in the statements *)

Module Measures.

(** The L2 norm as [normalize_embedding] accumulates it. *)
Definition l2_norm (v : list R) : R :=
  sqrt (fold_left (fun acc val => acc + val * val) v 0).

(** The peak magnitude as the [normalize] loops accumulate it. *)
Definition peak (audio : list R) : R :=
  fold_left (fun m sample => Num.fmax m (Rabs sample)) audio 0.

(** A segment as [assign_speakers] leaves it when the limit is [M]: both
    labels set, the id in [0, M), the confidence in [0, 1]. *)
Definition labelled_below (M : Z) (segment : Engine.AudioSegment) : Prop :=
  exists id c,
    Engine.speaker_id segment = Some id /\ Engine.confidence segment = Some c
    /\ (0 <= id < M)%Z /\ 0 <= c <= 1.

(** The segments labelled with speaker [id], in their order; the duration
    and the confidence of a segment. *)
Definition segments_of (id : Z) (segments : list Engine.AudioSegment)
  : list Engine.AudioSegment :=
  filter (fun segment => match Engine.speaker_id segment with
                         | Some k => (k =? id)%Z
                         | None => false
                         end) segments.

Definition duration (segment : Engine.AudioSegment) : R :=
  Engine.end_time segment - Engine.start_time segment.

Definition confidence_of (segment : Engine.AudioSegment) : R :=
  match Engine.confidence segment with Some c => c | None => 0 end.

End Measures.

(* ------------------------------------------------------------------ *)
(** ** DiarizationEngine: the whole run *)

Module Pipeline.
Import Num.

(** The two components a [DiarizationEngine] owns. *)
Record DiarizationEngine := mkEngine {
  segmenter_ : Segmenter.SpeakerSegmenter;
  embedder_ : Embedder.SpeakerEmbedder
}.

(** [process_audio]: change points, segments, labels.  None of the three
    steps lets an exception out (each handles its own), so the handler of
    [process_audio] is not entered; [None] is the undefined run of
    [assign_speakers]. *)
Definition process_audio (throws : nat -> bool) (engine : DiarizationEngine)
           (audio : list R) (options : Engine.DiarizeOptions)
  : option (DiarizationEngine * list Engine.AudioSegment) :=
  let change_points := Engine.detect_speaker_changes (segmenter_ engine) audio options in
  let audio_segments := Engine.create_segments audio change_points options in
  match Engine.assign_speakers throws (embedder_ engine) audio_segments options with
  | None => None
  | Some (embedder', segments) => Some (mkEngine (segmenter_ engine) embedder', segments)
  end.

End Pipeline.

(* ------------------------------------------------------------------ *)
(** ** SpeakerSegmenter::find_peaks *)

Module WindowPeaks.
Import Num.

(** The time of frame [i] of a window:
    [static_cast<float>(window_start_sample + i * samples_per_frame) / sample_rate_];
    the sum is a [size_t]. *)
Definition time_point (s : Segmenter.SpeakerSegmenter) (window_start_sample : nat)
           (samples_per_frame : Z) (i : nat) : R :=
  IZR (wrap_size (Z.of_nat window_start_sample + Z.of_nat i * samples_per_frame))
  / IZR (Segmenter.sample_rate_ s).

(** [SpeakerSegmenter::find_peaks]: the per-window peak picker.  Its loop
    is the loop of [Segmenter.peak_scan], run on a threshold of its own. *)
Definition find_peaks (s : Segmenter.SpeakerSegmenter) (probabilities : list R)
           (threshold : R) (window_start_sample : nat) (samples_per_frame : Z) : list R :=
  if (length probabilities <? 3)%nat then []
  else
    let max_prob := max_element probabilities in
    let adaptive_threshold := fmax 0.001 (fmin threshold (max_prob * 0.3)) in
    map (time_point s window_start_sample samples_per_frame)
        (Segmenter.peak_scan probabilities adaptive_threshold).

End WindowPeaks.

(* ------------------------------------------------------------------ *)
(** ** Utils::Audio *)

Module Audio.
Import Num.

(** [Utils::Audio::normalize_audio]: the peak scaled to one, unless it is
    at most [1e-6]. *)
Definition normalize_audio (audio : list R) : list R :=
  let max_val := fold_left (fun m sample => fmax m (Rabs sample)) audio 0 in
  if Rgt_dec max_val 1e-6 then map (fun sample => sample / max_val) audio else audio.

(** [Utils::Audio::simple_resample].  The loop runs over the indices of the
    input; index [i] contributes [audio[src_idx]] when
    [src_idx = i / ratio] is below [audio.size() - 1].  The ratio, the
    quotient and the two conversions from [size_t] are floats, rounded one
    by one.  (With a rate that is zero the float quotient is infinite or
    NaN, and with a negative rate the index conversion is undefined; the
    properties are stated for positive rates.) *)
Definition simple_resample (audio : list R) (source_rate target_rate : Z) : list R :=
  if (source_rate =? target_rate)%Z then audio
  else
    let ratio := round32 (round32 (IZR target_rate) / round32 (IZR source_rate)) in
    flat_map (fun i =>
                let src_idx := round32 (round32 (INR i) / ratio) in
                if Rlt_dec src_idx (round32 (INR (length audio - 1)))
                then [nth (float_to_size src_idx) audio 0]
                else [])
             (seq 0 (length audio)).

End Audio.

(* ------------------------------------------------------------------ *)
(** ** Utils::Json *)

Module Json.
Import Num.

(** The inner [std::map<std::string, float>] of [generate_speaker_stats]:
    it always holds the same four keys. *)
Record SpeakerStats := mkStats {
  segment_count : R;
  total_duration : R;
  confidence_sum : R;
  average_confidence : R
}.

(** The outer [std::map<int, ...>], kept in ascending order of the key as
    its iteration is. *)
Definition Stats := list (Z * SpeakerStats).

(** [stats[speaker_id]] updated by [f], the entry being created with four
    zeros when [find] does not see it. *)
Fixpoint update (speaker_id : Z) (f : SpeakerStats -> SpeakerStats) (stats : Stats) : Stats :=
  match stats with
  | [] => [(speaker_id, f (mkStats 0 0 0 0))]
  | (k, v) :: rest =>
    if (speaker_id <? k)%Z then (speaker_id, f (mkStats 0 0 0 0)) :: stats
    else if (speaker_id =? k)%Z then (k, f v) :: rest
    else (k, v) :: update speaker_id f rest
  end.

(** The three [+=] of one iteration. *)
Definition add_segment (duration c : R) (v : SpeakerStats) : SpeakerStats :=
  mkStats (segment_count v + 1) (total_duration v + duration) (confidence_sum v + c)
          (average_confidence v).

(** The first loop.  A segment whose labels were never set has
    indeterminate fields; reading them is undefined ([None]). *)
Fixpoint accumulate (stats : Stats) (segments : list Engine.AudioSegment) : option Stats :=
  match segments with
  | [] => Some stats
  | segment :: rest =>
    match Engine.speaker_id segment, Engine.confidence segment with
    | Some speaker_id, Some c =>
      let duration := Engine.end_time segment - Engine.start_time segment in
      accumulate (update speaker_id (add_segment duration c) stats) rest
    | _, _ => None
    end
  end.

(** The second loop, on one entry. *)
Definition with_average (v : SpeakerStats) : SpeakerStats :=
  if Rgt_dec (segment_count v) 0
  then mkStats (segment_count v) (total_duration v) (confidence_sum v)
               (confidence_sum v / segment_count v)
  else v.

Definition generate_speaker_stats (segments : list Engine.AudioSegment) : option Stats :=
  match accumulate [] segments with
  | Some stats => Some (map (fun entry => (fst entry, with_average (snd entry))) stats)
  | None => None
  end.

(** What the first loop holds for the speaker of [entry] once the segments
    [seen] are processed. *)
Definition recorded (seen : list Engine.AudioSegment) (entry : Z * SpeakerStats) : Prop :=
  let mine := Measures.segments_of (fst entry) seen in
  (1 <= length mine)%nat
  /\ segment_count (snd entry) = INR (length mine)
  /\ total_duration (snd entry) = sum (map Measures.duration mine)
  /\ confidence_sum (snd entry) = sum (map Measures.confidence_of mine)
  /\ average_confidence (snd entry) = 0.

End Json.

(* ------------------------------------------------------------------ *)
(** ** Further inputs *)

Module MoreInputs.

(** Three labelled segments: speaker 1, speaker 0, speaker 1 again. *)
Definition three_labelled : list Engine.AudioSegment :=
  [Engine.mkSegment Inputs.one_second 0 1 (Some 1%Z) (Some 0.5);
   Engine.mkSegment Inputs.one_second 1 2 (Some 0%Z) (Some 1);
   Engine.mkSegment Inputs.one_second 2 3 (Some 1%Z) (Some 0.7)].

(** Scores with one peak, and with two peaks three frames apart; three
    samples. *)
Definition one_peak : list R := [0; 1; 0].
Definition two_peaks : list R := [0; 1; 0; 0; 2; 0].
Definition eight_samples : list R := [1; 2; 3; 4; 5; 6; 7; 8].


End MoreInputs.

(* ------------------------------------------------------------------ *)
(** ** Utils::FileSystem and Utils::Args *)

Module FileSystem.
Import Ascii.

(** [s.find_last_of(c)]: the position of the last [c], [None] for [npos].
    A path is the list of its characters. *)
Fixpoint find_last_of (s : list ascii) (c : ascii) : option nat :=
  match s with
  | [] => None
  | a :: rest =>
    match find_last_of rest c with
    | Some pos => Some (S pos)
    | None => if Ascii.eqb a c then Some 0%nat else None
    end
  end.

(** [get_file_extension]: [file_path.substr(dot_pos)], or the empty string. *)
Definition get_file_extension (file_path : list ascii) : list ascii :=
  match find_last_of file_path "."%char with
  | None => []
  | Some dot_pos => skipn dot_pos file_path
  end.

End FileSystem.

Module Args.
Import String.
Local Open Scope string_scope.

(** [DiarizeOptions] with all its fields, as the command line fills it. *)
Record DiarizeOptions := mkOptions {
  audio_path : string;
  segment_model_path : string;
  embedding_model_path : string;
  output_format : string;
  max_speakers : Z;
  threshold : R;
  sample_rate : Z;
  verbose : bool;
  output_file : string
}.

(** The member initialisers of the struct. *)
Definition initial_options : DiarizeOptions :=
  mkOptions "" "" "" "json" 10 0.5 16000 false "".

(** How [parse_arguments] ends: with the options, in [exit(0)] after the
    help or version text, or with the exception of [std::stoi] or
    [std::stof]. *)
Inductive Outcome :=
| Parsed (options : DiarizeOptions)
| Exited
| Thrown.

Section Parsing.

(** [std::stoi] and [std::stof]; [None] when they throw. *)
Variable stoi : string -> option Z.
Variable stof : string -> option R.

(** The branches that take no value. *)
Definition flag (options : DiarizeOptions) (arg : string) : option DiarizeOptions :=
  if (arg =? "--verbose") || (arg =? "--debug")
  then Some (mkOptions (audio_path options) (segment_model_path options)
                       (embedding_model_path options) (output_format options)
                       (max_speakers options) (threshold options) (sample_rate options)
                       true (output_file options))
  else if (arg =? "--help") || (arg =? "-h") || (arg =? "--version") || (arg =? "-v")
  then None
  else Some options.

(** The loop over [argv[i]], [i >= 1].  A branch that takes a value needs
    [i + 1 < argc]; it consumes the value ([++i]). *)
Fixpoint parse_loop (options : DiarizeOptions) (args : list string) : Outcome :=
  match args with
  | [] => Parsed options
  | arg :: rest =>
    let otherwise :=
      match flag options arg with
      | Some options' => parse_loop options' rest
      | None => Exited
      end in
    match rest with
    | value :: rest' =>
      if arg =? "--audio"
      then parse_loop (mkOptions value (segment_model_path options)
                                 (embedding_model_path options) (output_format options)
                                 (max_speakers options) (threshold options)
                                 (sample_rate options) (verbose options)
                                 (output_file options)) rest'
      else if arg =? "--segment-model"
      then parse_loop (mkOptions (audio_path options) value
                                 (embedding_model_path options) (output_format options)
                                 (max_speakers options) (threshold options)
                                 (sample_rate options) (verbose options)
                                 (output_file options)) rest'
      else if arg =? "--embedding-model"
      then parse_loop (mkOptions (audio_path options) (segment_model_path options)
                                 value (output_format options)
                                 (max_speakers options) (threshold options)
                                 (sample_rate options) (verbose options)
                                 (output_file options)) rest'
      else if arg =? "--max-speakers"
      then match stoi value with
           | Some n =>
             parse_loop (mkOptions (audio_path options) (segment_model_path options)
                                   (embedding_model_path options) (output_format options)
                                   n (threshold options)
                                   (sample_rate options) (verbose options)
                                   (output_file options)) rest'
           | None => Thrown
           end
      else if arg =? "--threshold"
      then match stof value with
           | Some t =>
             parse_loop (mkOptions (audio_path options) (segment_model_path options)
                                   (embedding_model_path options) (output_format options)
                                   (max_speakers options) t
                                   (sample_rate options) (verbose options)
                                   (output_file options)) rest'
           | None => Thrown
           end
      else if arg =? "--output-format"
      then parse_loop (mkOptions (audio_path options) (segment_model_path options)
                                 (embedding_model_path options) value
                                 (max_speakers options) (threshold options)
                                 (sample_rate options) (verbose options)
                                 (output_file options)) rest'
      else if arg =? "--output"
      then parse_loop (mkOptions (audio_path options) (segment_model_path options)
                                 (embedding_model_path options) (output_format options)
                                 (max_speakers options) (threshold options)
                                 (sample_rate options) (verbose options)
                                 value) rest'
      else otherwise
    | [] => otherwise
    end
  end.

(** [parse_arguments]: the threshold is set to 0.01 before the loop, which
    starts after the program name. *)
Definition parse_arguments (argv : list string) : Outcome :=
  parse_loop (mkOptions (audio_path initial_options) (segment_model_path initial_options)
                        (embedding_model_path initial_options)
                        (output_format initial_options) (max_speakers initial_options)
                        0.01 (sample_rate initial_options) (verbose initial_options)
                        (output_file initial_options))
             (tl argv).

End Parsing.

End Args.

(* ================================================================== *)
(** * Properties *)

Import Num Inputs.

(** ** Facts about the numeric helpers *)

Lemma gtb_true_iff (a b : R) : gtb a b = true <-> a > b.
Proof. unfold gtb. destruct (Rgt_dec a b); split; intros; auto; discriminate. Qed.

Lemma gtb_false_iff (a b : R) : gtb a b = false <-> a <= b.
Proof. unfold gtb. destruct (Rgt_dec a b); split; intros; auto; try discriminate; lra. Qed.

Lemma geb_true_iff (a b : R) : geb a b = true <-> a >= b.
Proof. unfold geb. destruct (Rge_dec a b); split; intros; auto; discriminate. Qed.

Lemma ltb_true_iff (a b : R) : ltb a b = true <-> a < b.
Proof. unfold ltb. destruct (Rlt_dec a b); split; intros; auto; discriminate. Qed.

Lemma ltb_false_iff (a b : R) : ltb a b = false <-> b <= a.
Proof. unfold ltb. destruct (Rlt_dec a b); split; intros; auto; try discriminate; lra. Qed.

Lemma gtb_negb_geb (a b : R) : gtb a b = negb (geb b a).
Proof. unfold gtb, geb. destruct (Rgt_dec a b), (Rge_dec b a); simpl; auto; lra. Qed.

Lemma fmin_spec (a b : R) : (b < a /\ fmin a b = b) \/ (a <= b /\ fmin a b = a).
Proof. unfold fmin. destruct (Rlt_dec b a); [left | right]; split; auto; lra. Qed.

Lemma fmax_spec (a b : R) : (a < b /\ fmax a b = b) \/ (b <= a /\ fmax a b = a).
Proof. unfold fmax. destruct (Rlt_dec a b); [left | right]; split; auto; lra. Qed.

Lemma wrap_int_small (z : Z) : (- 2 ^ 31 <= z <= INT_MAX)%Z -> wrap_int z = z.
Proof.
  unfold wrap_int, INT_MAX. intros H.
  rewrite Z.mod_small; lia.
Qed.

Lemma wrap_size_small (z : Z) : (0 <= z < 2 ^ 64)%Z -> wrap_size z = z.
Proof. unfold wrap_size. intros H. apply Z.mod_small; lia. Qed.

Lemma INR_Z_to_nat (z : Z) : (0 <= z)%Z -> INR (Z.to_nat z) = IZR z.
Proof. intros H. rewrite INR_IZR_INZ, Z2Nat.id; auto. Qed.

(* ------------------------------------------------------------------ *)
(** ** Binary32 rounding *)

Lemma powerRZ_2_pos (e : Z) : 0 < powerRZ 2 e.
Proof. apply powerRZ_lt. lra. Qed.

Lemma powerRZ_2_ge_1 (k : Z) : (0 <= k)%Z -> 1 <= powerRZ 2 k.
Proof.
  intros Hk. rewrite <- (Z2Nat.id k Hk), <- pow_powerRZ.
  apply pow_R1_Rle. lra.
Qed.

Lemma powerRZ_2_le (a b : Z) : (a <= b)%Z -> powerRZ 2 a <= powerRZ 2 b.
Proof.
  intros Hab. replace b with (a + (b - a))%Z by lia.
  rewrite powerRZ_add by lra.
  pose proof (powerRZ_2_pos a). pose proof (powerRZ_2_ge_1 (b - a) ltac:(lia)). nra.
Qed.


Lemma exponent_below_spec (x : R) (n : nat) (e : Z) :
  (-126 <= e <= Z.of_nat n - 126)%Z ->
  powerRZ 2 e <= Rabs x < powerRZ 2 (e + 1) ->
  exponent_below n x = e.
Proof.
  induction n as [| n IH]; intros He Hx.
  - cbn [exponent_below]. lia.
  - cbn [exponent_below].
    destruct (Rle_dec (powerRZ 2 (Z.of_nat (S n) - 126)) (Rabs x)) as [Hle | Hgt].
    + destruct (Z.eq_dec (Z.of_nat (S n) - 126) e) as [Heq | Hne]; [exact Heq |].
      exfalso. assert (Hlt : (e + 1 <= Z.of_nat (S n) - 126)%Z) by lia.
      apply powerRZ_2_le in Hlt. lra.
    + apply IH; [| exact Hx].
      destruct (Z.eq_dec (Z.of_nat (S n) - 126) e) as [Heq | Hne]; [| lia].
      exfalso. apply Hgt. rewrite Heq. lra.
Qed.

Lemma exponent_below_small (x : R) (n : nat) :
  Rabs x < powerRZ 2 (-125) -> exponent_below n x = (-126)%Z.
Proof.
  intros Hx. induction n as [| n IH]; [reflexivity |].
  cbn [exponent_below].
  destruct (Rle_dec (powerRZ 2 (Z.of_nat (S n) - 126)) (Rabs x)) as [Hle | Hgt]; [| exact IH].
  destruct (Z.eq_dec (Z.of_nat (S n) - 126) (-126)) as [Heq | Hne]; [exact Heq |].
  exfalso. assert (Hlt : (-125 <= Z.of_nat (S n) - 126)%Z) by lia.
  apply powerRZ_2_le in Hlt. lra.
Qed.

Lemma nearest_even_down (y : R) (f : Z) :
  IZR f <= y < IZR f + 1 / 2 -> nearest_even y = f.
Proof.
  intros Hy. unfold nearest_even.
  rewrite (Zfloor_eq f y) by lra.
  destruct (Rlt_dec (y - IZR f) (1 / 2)); [reflexivity | lra].
Qed.

Lemma nearest_even_up (y : R) (f : Z) :
  IZR f + 1 / 2 < y < IZR f + 1 -> nearest_even y = (f + 1)%Z.
Proof.
  intros Hy. unfold nearest_even.
  rewrite (Zfloor_eq f y) by lra.
  destruct (Rlt_dec (y - IZR f) (1 / 2)); [lra |].
  destruct (Rlt_dec (1 / 2) (y - IZR f)); [reflexivity | lra].
Qed.

Lemma nearest_even_IZR (z : Z) : nearest_even (IZR z) = z.
Proof. apply nearest_even_down. lra. Qed.

Lemma round32_binade (x : R) (e : Z) :
  (-126 <= e <= 127)%Z ->
  powerRZ 2 e <= Rabs x < powerRZ 2 (e + 1) ->
  round32 x = IZR (nearest_even (x / powerRZ 2 (e - 23))) * powerRZ 2 (e - 23).
Proof.
  intros He Hx. unfold round32, exponent.
  rewrite (exponent_below_spec x 253 e) by (try exact Hx; cbn; lia). reflexivity.
Qed.

(** A value with at most 24 significant bits is a float. *)
Lemma round32_exact (x : R) (e m : Z) :
  (-126 <= e <= 127)%Z ->
  powerRZ 2 e <= Rabs x < powerRZ 2 (e + 1) ->
  x = IZR m * powerRZ 2 (e - 23) ->
  round32 x = x.
Proof.
  intros He Hx Hm. rewrite (round32_binade x e He Hx).
  pose proof (powerRZ_2_pos (e - 23)) as Hp.
  replace (x / powerRZ 2 (e - 23)) with (IZR m) by (rewrite Hm; field; lra).
  rewrite nearest_even_IZR. symmetry. exact Hm.
Qed.

Lemma round32_0 : round32 0 = 0.
Proof.
  unfold round32, exponent. rewrite exponent_below_small.
  - unfold Rdiv. rewrite Rmult_0_l, nearest_even_IZR. ring.
  - rewrite Rabs_R0. apply powerRZ_2_pos.
Qed.

Lemma IZR_pow2 (k : Z) : (0 <= k)%Z -> IZR (2 ^ k) = powerRZ 2 k.
Proof.
  intros Hk. rewrite <- (Z2Nat.id k Hk) at 1 2.
  rewrite <- pow_IZR, pow_powerRZ. reflexivity.
Qed.

(** Integers below [2^24] in magnitude are floats. *)
Lemma round32_IZR (z : Z) : (Z.abs z < 2 ^ 24)%Z -> round32 (IZR z) = IZR z.
Proof.
  intros Hz. destruct (Z.eq_dec z 0) as [-> | Hne]; [apply round32_0 |].
  set (e := Z.log2 (Z.abs z)).
  assert (Hpos : (0 < Z.abs z)%Z) by lia.
  pose proof (Z.log2_spec (Z.abs z) Hpos) as [Hlow Hup]. fold e in Hlow, Hup.
  pose proof (Z.log2_nonneg (Z.abs z)) as He0. fold e in He0.
  assert (He : (e < 24)%Z).
  { apply Z.log2_lt_pow2; [exact Hpos | exact Hz]. }
  apply (round32_exact (IZR z) e (z * 2 ^ (23 - e))); [lia | |].
  - rewrite <- abs_IZR, <- !IZR_pow2 by lia. split; [apply IZR_le | apply IZR_lt].
    + exact Hlow.
    + replace (e + 1)%Z with (Z.succ e) by lia. exact Hup.
  - rewrite mult_IZR, IZR_pow2 by lia. rewrite Rmult_assoc, <- powerRZ_add by lra.
    replace (23 - e + (e - 23))%Z with 0%Z by lia. simpl. ring.
Qed.

Lemma round32_eval (x : R) (e m : Z) :
  (-126 <= e <= 127)%Z ->
  powerRZ 2 e <= Rabs x < powerRZ 2 (e + 1) ->
  nearest_even (x / powerRZ 2 (e - 23)) = m ->
  round32 x = IZR m * powerRZ 2 (e - 23).
Proof. intros He Hx Hm. rewrite (round32_binade x e He Hx), Hm. reflexivity. Qed.


Lemma exponent_below_inv (x : R) (n : nat) :
  (-126 <= exponent_below n x <= Z.of_nat n - 126)%Z
  /\ (exponent_below n x <> (-126)%Z -> powerRZ 2 (exponent_below n x) <= Rabs x)
  /\ (Rabs x < powerRZ 2 (Z.of_nat n - 126 + 1) ->
      Rabs x < powerRZ 2 (exponent_below n x + 1)).
Proof.
  induction n as [| n [IHr [IHl IHu]]].
  - cbn [exponent_below]. split; [cbn; lia |]. split; [congruence | auto].
  - cbn [exponent_below].
    destruct (Rle_dec (powerRZ 2 (Z.of_nat (S n) - 126)) (Rabs x)) as [Hle | Hgt].
    + split; [lia |]. split; [intros _; exact Hle | auto].
    + split; [lia |]. split; [exact IHl |]. intros _. apply IHu.
      replace (Z.of_nat n - 126 + 1)%Z with (Z.of_nat (S n) - 126)%Z by lia. lra.
Qed.

Lemma exponent_range (x : R) : (-126 <= exponent x <= 127)%Z.
Proof. unfold exponent. pose proof (exponent_below_inv x 253) as [H _]. lia. Qed.

Lemma exponent_lower (x : R) :
  exponent x <> (-126)%Z -> powerRZ 2 (exponent x) <= Rabs x.
Proof. unfold exponent. apply (exponent_below_inv x 253). Qed.

Lemma exponent_upper (x : R) :
  exponent x <> 127%Z -> Rabs x < powerRZ 2 (exponent x + 1).
Proof.
  intros Hne. unfold exponent in *.
  pose proof (exponent_below_inv x 253) as [_ [_ Hu]].
  apply Hu.
  destruct (Rlt_dec (Rabs x) (powerRZ 2 (Z.of_nat 253 - 126 + 1))) as [Hlt | Hge];
    [exact Hlt | exfalso].
  apply Hne. change 253%nat with (S 252). cbn [exponent_below].
  destruct (Rle_dec (powerRZ 2 (Z.of_nat (S 252) - 126)) (Rabs x)) as [Hle | Hgt];
    [lia |].
  exfalso. apply Hgt.
  assert (H : powerRZ 2 (Z.of_nat (S 252) - 126) <= powerRZ 2 (Z.of_nat 253 - 126 + 1))
    by (apply powerRZ_2_le; lia).
  lra.
Qed.

Lemma nearest_even_floor (y : R) :
  nearest_even y = Zfloor y \/ nearest_even y = (Zfloor y + 1)%Z.
Proof.
  unfold nearest_even.
  destruct (Rlt_dec _ _); [left; reflexivity |].
  destruct (Rlt_dec _ _); [right; reflexivity |].
  destruct (Z.even _); [left | right]; reflexivity.
Qed.

Lemma nearest_even_ge (y : R) (z : Z) : IZR z <= y -> (z <= nearest_even y)%Z.
Proof.
  intros Hz. assert (z <= Zfloor y)%Z by (apply Zfloor_lub; exact Hz).
  destruct (nearest_even_floor y) as [-> | ->]; lia.
Qed.

Lemma nearest_even_le (y : R) (z : Z) : y <= IZR z -> (nearest_even y <= z)%Z.
Proof.
  intros [Hlt | ->]; [| rewrite nearest_even_IZR; lia].
  assert (Zfloor y < z)%Z.
  { apply lt_IZR. pose proof (Zfloor_bound y). lra. }
  destruct (nearest_even_floor y) as [-> | ->]; lia.
Qed.

Lemma nearest_even_mono (a b : R) : a <= b -> (nearest_even a <= nearest_even b)%Z.
Proof.
  intros Hab.
  assert (Hf : (Zfloor a <= Zfloor b)%Z) by (apply Zfloor_le; exact Hab).
  destruct (Z.eq_dec (Zfloor a) (Zfloor b)) as [Heq | Hne].
  - unfold nearest_even. rewrite <- Heq.
    destruct (Rlt_dec (a - IZR (Zfloor a)) (1 / 2)) as [Ha | Ha].
    + destruct (Rlt_dec (b - IZR (Zfloor a)) (1 / 2)); [lia |].
      destruct (Rlt_dec (1 / 2) (b - IZR (Zfloor a))); [lia |].
      destruct (Z.even (Zfloor a)); lia.
    + destruct (Rlt_dec (1 / 2) (a - IZR (Zfloor a))) as [Ha' | Ha'].
      * destruct (Rlt_dec (b - IZR (Zfloor a)) (1 / 2)); [lra |].
        destruct (Rlt_dec (1 / 2) (b - IZR (Zfloor a))); [lia | lra].
      * destruct (Rlt_dec (b - IZR (Zfloor a)) (1 / 2)); [lra |].
        destruct (Rlt_dec (1 / 2) (b - IZR (Zfloor a))); [destruct (Z.even (Zfloor a)); lia |].
        lia.
  - destruct (nearest_even_floor a) as [-> | ->], (nearest_even_floor b) as [-> | ->]; lia.
Qed.


Lemma powerRZ_2_lt_inv (a b : Z) : powerRZ 2 a < powerRZ 2 b -> (a < b)%Z.
Proof.
  intros H. destruct (Z_lt_le_dec a b) as [Hlt | Hge]; [exact Hlt |].
  apply powerRZ_2_le in Hge. lra.
Qed.

(** Rounding keeps the order of numbers that are not negative. *)
Lemma round32_mono (x y : R) : 0 <= x -> x <= y -> round32 x <= round32 y.
Proof.
  intros Hx Hxy.
  pose proof (exponent_range x) as Hrx. pose proof (exponent_range y) as Hry.
  assert (Hax : Rabs x = x) by (apply Rabs_right; lra).
  assert (Hay : Rabs y = y) by (apply Rabs_right; lra).
  assert (He : (exponent x <= exponent y)%Z).
  { destruct (Z.eq_dec (exponent x) (-126)) as [Hsub | Hnorm]; [lia |].
    destruct (Z.eq_dec (exponent y) 127) as [Htop | Hlow]; [lia |].
    pose proof (exponent_lower x Hnorm) as Hl. pose proof (exponent_upper y Hlow) as Hu.
    rewrite Hax in Hl. rewrite Hay in Hu.
    assert (exponent x < exponent y + 1)%Z by (apply powerRZ_2_lt_inv; lra). lia. }
  unfold round32. cbv zeta.
  pose proof (powerRZ_2_pos (exponent x - 23)) as Hux.
  pose proof (powerRZ_2_pos (exponent y - 23)) as Huy.
  destruct (Z.eq_dec (exponent x) (exponent y)) as [Heq | Hne].
  - rewrite Heq in *. apply Rmult_le_compat_r; [lra |].
    apply IZR_le. apply nearest_even_mono.
    apply Rmult_le_compat_r; [| exact Hxy]. left. apply Rinv_0_lt_compat. exact Huy.
  - assert (Hlt : (exponent x < exponent y)%Z) by lia.
    pose proof (exponent_upper x ltac:(lia)) as Hu.
    pose proof (exponent_lower y ltac:(lia)) as Hl.
    rewrite Hax in Hu. rewrite Hay in Hl.
    apply Rle_trans with (powerRZ 2 (exponent x + 1)).
    + replace (powerRZ 2 (exponent x + 1))
        with (IZR (2 ^ 24) * powerRZ 2 (exponent x - 23)).
      * apply Rmult_le_compat_r; [lra |]. apply IZR_le. apply nearest_even_le.
        rewrite IZR_pow2 by lia.
        apply Rmult_le_reg_r with (powerRZ 2 (exponent x - 23)); [exact Hux |].
        unfold Rdiv. rewrite Rmult_assoc, Rinv_l, Rmult_1_r by lra.
        rewrite <- powerRZ_add by lra.
        replace (24 + (exponent x - 23))%Z with (exponent x + 1)%Z by lia. lra.
      * rewrite IZR_pow2 by lia. rewrite <- powerRZ_add by lra. f_equal. lia.
    + apply Rle_trans with (powerRZ 2 (exponent y)); [apply powerRZ_2_le; lia |].
      replace (powerRZ 2 (exponent y))
        with (IZR (2 ^ 23) * powerRZ 2 (exponent y - 23)).
      * apply Rmult_le_compat_r; [lra |]. apply IZR_le. apply nearest_even_ge.
        rewrite IZR_pow2 by lia.
        apply Rmult_le_reg_r with (powerRZ 2 (exponent y - 23)); [exact Huy |].
        unfold Rdiv. rewrite Rmult_assoc, Rinv_l, Rmult_1_r by lra.
        rewrite <- powerRZ_add by lra.
        replace (23 + (exponent y - 23))%Z with (exponent y) by lia. lra.
      * rewrite IZR_pow2 by lia. rewrite <- powerRZ_add by lra. f_equal. lia.
Qed.

Lemma round32_pos (x : R) : 0 < round32 x -> 0 < x.
Proof.
  intros H. destruct (Rlt_le_dec 0 x) as [Hpos | Hneg]; [exact Hpos | exfalso].
  assert (Hle : round32 x <= 0).
  { unfold round32. cbv zeta.
    pose proof (powerRZ_2_pos (exponent x - 23)) as Hu.
    assert (IZR (nearest_even (x / powerRZ 2 (exponent x - 23))) <= 0); [| nra].
    apply IZR_le. apply nearest_even_le.
    assert (0 < / powerRZ 2 (exponent x - 23)) by (apply Rinv_0_lt_compat; exact Hu).
    unfold Rdiv. nra. }
  lra.
Qed.

Ltac case_fmin a b :=
  let H := fresh "Hmin" in let E := fresh "Emin" in
  destruct (fmin_spec a b) as [[H E] | [H E]]; rewrite ?E in *.

Ltac case_fmax a b :=
  let H := fresh "Hmax" in let E := fresh "Emax" in
  destruct (fmax_spec a b) as [[H E] | [H E]]; rewrite ?E in *.

(* ------------------------------------------------------------------ *)
(** ** Threshold validation of [main] *)

(** C8, as stated, fails: a threshold above 0.8 is replaced by 0.7, and
    not by the upper bound 0.8 of the clamp; and a NaN threshold is not
    brought into [0.01, 0.8] at all. *)
Lemma validate_threshold_not_clamp :
  Engine.validate_threshold (Finite 0.9) = Finite 0.7
  /\ Rmin (Rmax 0.9 0.01) 0.8 = 0.8
  /\ Engine.validate_threshold (Finite 0.9) <> Finite (Rmin (Rmax 0.9 0.01) 0.8)
  /\ Engine.validate_threshold NaN = NaN.
Proof.
  assert (Hv : Engine.validate_threshold (Finite 0.9) = Finite 0.7).
  { unfold Engine.validate_threshold, above, below, gtb, ltb.
    destruct (Rgt_dec 0.9 0.8); [| lra].
    destruct (Rlt_dec 0.7 0.01); [lra | reflexivity]. }
  assert (Hc : Rmin (Rmax 0.9 0.01) 0.8 = 0.8).
  { rewrite Rmax_left by lra. rewrite Rmin_right by lra. reflexivity. }
  split; [exact Hv |]. split; [exact Hc |]. split; [| reflexivity].
  rewrite Hv, Hc. intros H. inversion H. lra.
Qed.

(** C8, amended: for a parsed threshold that is a number or an infinity,
    the threshold handed to processing is 0.7 when the parsed one is above
    0.8, 0.01 when it is below 0.01, and the parsed one otherwise; it then
    lies in [0.01, 0.8], and it is the clamp [min (max t 0.01) 0.8] exactly
    when the parsed threshold is not above 0.8.  A NaN threshold fails both
    tests and is handed on as it is. *)
Theorem validate_threshold_spec (t : parsed_float) :
  match t with
  | Finite x =>
    Engine.validate_threshold t
    = Finite (if Rgt_dec x 0.8 then 0.7 else if Rlt_dec x 0.01 then 0.01 else x)
    /\ (Engine.validate_threshold t = Finite (Rmin (Rmax x 0.01) 0.8) <-> x <= 0.8)
  | PlusInf => Engine.validate_threshold t = Finite 0.7
  | MinusInf => Engine.validate_threshold t = Finite 0.01
  | NaN => Engine.validate_threshold t = NaN
  end
  /\ (t <> NaN ->
      exists y, Engine.validate_threshold t = Finite y /\ 0.01 <= y <= 0.8).
Proof.
  unfold Engine.validate_threshold.
  destruct t as [x | | |]; cbn [above below].
  - unfold gtb, ltb.
    destruct (Rgt_dec x 0.8) as [Hhi | Hhi].
    + cbn [below]. unfold ltb. destruct (Rlt_dec 0.7 0.01); [lra |].
      split; [split; [reflexivity |] | intros _; exists 0.7; split; [reflexivity | lra]].
      split; intros H; [| lra].
      rewrite Rmax_left, Rmin_right in H by lra. inversion H. lra.
    + cbn [below]. unfold ltb. destruct (Rlt_dec x 0.01) as [Hlo | Hlo].
      * split; [split; [reflexivity |] | intros _; exists 0.01; split; [reflexivity | lra]].
        split; intros H; [lra |].
        rewrite Rmax_right, Rmin_left by lra. reflexivity.
      * split; [split; [reflexivity |] | intros _; exists x; split; [reflexivity | lra]].
        split; intros H; [lra |].
        rewrite Rmax_left, Rmin_left by lra. reflexivity.
  - unfold ltb. destruct (Rlt_dec 0.7 0.01); [lra |].
    split; [reflexivity | intros _; exists 0.7; split; [reflexivity | lra]].
  - split; [reflexivity | intros _; exists 0.01; split; [reflexivity | lra]].
  - split; [reflexivity | intros H; congruence].
Qed.

(* ------------------------------------------------------------------ *)
(** ** Peak finding *)

Lemma is_local_maximum_1 (signal : list R) (i : nat) :
  (1 <= i)%nat ->
  Utils.is_local_maximum signal i 1 =
    gtb (nth i signal 0) (nth (i - 1) signal 0)
    && gtb (nth i signal 0) (nth (i + 1) signal 0).
Proof.
  intros Hi. unfold Utils.is_local_maximum.
  change (2 * 1 + 1)%nat with 3%nat. cbn [seq forallb].
  replace (S (i - 1)) with i by lia.
  replace (S i) with (i + 1)%nat by lia.
  rewrite Nat.eqb_refl.
  replace (i - 1 =? i)%nat with false by (symmetry; apply Nat.eqb_neq; lia).
  replace (i + 1 =? i)%nat with false by (symmetry; apply Nat.eqb_neq; lia).
  cbn [orb]. rewrite <- !gtb_negb_geb. rewrite andb_true_r. reflexivity.
Qed.

(** C9: on a non-empty score sequence the inline peak scan of
    [detect_change_points] selects exactly the indices that
    [Utils::Math::find_peaks] returns for [min_distance = 1] (which is then
    defined), for every threshold. *)
Theorem peak_scan_refines_find_peaks (scores : list R) (threshold : R) :
  scores <> [] ->
  Utils.find_peaks scores threshold 1 = Some (Segmenter.peak_scan scores threshold).
Proof.
  intros Hne. unfold Utils.find_peaks, Segmenter.peak_scan.
  destruct scores as [| x r]; [congruence |].
  replace (length (x :: r) <? 1)%nat with false
    by (symmetry; apply Nat.ltb_ge; simpl; lia).
  f_equal.
  replace (length (x :: r) - 1 - 1)%nat with (length (x :: r) - 2)%nat by lia.
  apply filter_ext_in. intros i Hi. apply in_seq in Hi.
  rewrite is_local_maximum_1 by lia.
  rewrite andb_assoc. reflexivity.
Qed.

Lemma peak_scan_refines_find_peaks_witness :
  Utils.find_peaks [0; 1; 0] 0.5 1 = Some (Segmenter.peak_scan [0; 1; 0] 0.5).
Proof.
  apply (peak_scan_refines_find_peaks [0; 1; 0] 0.5). discriminate.
Defined.

(** The scan of the witness does find the peak at index 1. *)
Lemma peak_scan_example : Segmenter.peak_scan [0; 1; 0] 0.5 = [1%nat].
Proof.
  unfold Segmenter.peak_scan. cbn [length Nat.sub seq filter nth Nat.add].
  replace (gtb 1 0.5) with true by (symmetry; apply gtb_true_iff; lra).
  replace (gtb 1 0) with true by (symmetry; apply gtb_true_iff; lra).
  reflexivity.
Qed.

(* ------------------------------------------------------------------ *)
(** ** The Segmenter: [create_segments] *)

Lemma emit_segment_times audio options start end_ seg :
  In seg (Engine.emit_segment audio options start end_) ->
  Engine.start_time seg = start /\ Engine.end_time seg = end_.
Proof.
  unfold Engine.emit_segment.
  destruct (_ && _); simpl; [| tauto].
  intros [<- | []]. simpl. auto.
Qed.

Lemma fixed_windows_duration fuel audio options total start seg :
  In seg (Engine.fixed_windows fuel audio options total start) ->
  5 < Engine.end_time seg - Engine.start_time seg.
Proof.
  revert start. induction fuel as [| fuel IH]; intros start; simpl; [tauto |].
  destruct (Rlt_dec start (total - 5)) as [Hlt | Hge]; [| simpl; tauto].
  rewrite in_app_iff. intros [Hin | Hin].
  - apply emit_segment_times in Hin. destruct Hin as [-> ->].
    case_fmin (start + 25) total; lra.
  - eapply IH; eauto.
Qed.

Lemma between_boundaries_duration audio options start rest seg :
  In seg (Engine.between_boundaries audio options start rest) ->
  2 <= Engine.end_time seg - Engine.start_time seg.
Proof.
  revert start. induction rest as [| end_ rest IH]; intros start; simpl; [tauto |].
  rewrite in_app_iff. intros [Hin | Hin].
  - destruct (Rlt_dec (end_ - start) 2) as [Hshort | Hlong]; [destruct Hin |].
    apply emit_segment_times in Hin. destruct Hin as [-> ->]. lra.
  - eapply IH; eauto.
Qed.

(** One second of silence at 16 kHz and no change point: the short-audio
    fallback returns the whole buffer as one segment of one second. *)
Lemma one_second_duration : Engine.total_duration one_second default_options = 1.
Proof.
  unfold Engine.total_duration, one_second, default_options. simpl Engine.sample_rate.
  rewrite repeat_length, INR_Z_to_nat by lia.
  rewrite (round32_IZR 16000) by lia.
  replace (16000 / 16000) with 1 by field. apply (round32_IZR 1). lia.
Qed.

Lemma create_segments_one_second :
  Engine.create_segments one_second [] default_options =
    [Engine.mkSegment one_second 0 1 None None].
Proof.
  unfold Engine.create_segments. rewrite one_second_duration.
  destruct (Rgt_dec 1 30); [lra | reflexivity].
Qed.

(** C1, as stated, fails: with no change point, a one-second buffer is
    emitted as a single segment of duration 1.0 s < 2.0 s. *)
Lemma create_segments_short_segment :
  exists seg,
    In seg (Engine.create_segments one_second [] default_options)
    /\ Engine.end_time seg - Engine.start_time seg < 2.
Proof.
  rewrite create_segments_one_second.
  eexists. split; [left; reflexivity |]. simpl. lra.
Qed.

(** C1, amended: every segment emitted by [create_segments] lasts at least
    2.0 s, except in the short-audio fallback (no change point and a total
    duration of at most 30 s), where the one segment emitted is the whole
    buffer [0, total_duration), whatever its length. *)
Theorem create_segments_duration audio change_points options seg :
  In seg (Engine.create_segments audio change_points options) ->
  2 <= Engine.end_time seg - Engine.start_time seg
  \/ (change_points = []
      /\ Engine.total_duration audio options <= 30
      /\ seg = Engine.mkSegment audio 0 (Engine.total_duration audio options) None None).
Proof.
  unfold Engine.create_segments.
  destruct change_points as [| c cs].
  - destruct (Rgt_dec (Engine.total_duration audio options) 30) as [Hlong | Hshort].
    + intros Hin. left. apply fixed_windows_duration in Hin. lra.
    + intros [<- | []]. right. repeat split. lra.
  - intros Hin. left. eapply between_boundaries_duration; eauto.
Qed.

Lemma create_segments_duration_witness :
  2 <= Engine.end_time (Engine.mkSegment one_second 0 1 None None)
       - Engine.start_time (Engine.mkSegment one_second 0 1 None None)
  \/ (@nil R = []
      /\ Engine.total_duration one_second default_options <= 30
      /\ Engine.mkSegment one_second 0 1 None None =
         Engine.mkSegment one_second 0
           (Engine.total_duration one_second default_options) None None).
Proof.
  apply (create_segments_duration one_second [] default_options).
  rewrite create_segments_one_second. left. reflexivity.
Defined.

(* ------------------------------------------------------------------ *)
(** ** The speaker set without capacity *)

(** C10: on an empty speaker set and with [max_speakers <= 0],
    [find_or_create_speaker] returns id 0 and leaves the embedder as it
    was, so no profile is stored under the id returned, and
    [calculate_confidence] for that id is the default 0.5. *)
Theorem find_or_create_without_capacity
        (e : Embedder.SpeakerEmbedder) (embedding : list R) (threshold : R) (M : Z) :
  Embedder.speaker_centroids_ e = [] ->
  (M <= 0)%Z ->
  Embedder.find_or_create_speaker e embedding threshold M = (e, 0%Z)
  /\ Embedder.get_speaker_count e = 0%nat
  /\ nth_error (Embedder.speaker_centroids_ e) 0 = None
  /\ Embedder.calculate_confidence e embedding 0 = 0.5.
Proof.
  intros Hempty HM.
  unfold Embedder.find_or_create_speaker, Embedder.calculate_confidence,
    Embedder.get_speaker_count.
  rewrite Hempty. cbn [Embedder.best_match length Z.of_nat].
  rewrite andb_false_r.
  replace (wrap_int 0 <? M)%Z with false
    by (symmetry; apply Z.ltb_ge; rewrite wrap_int_small; unfold INT_MAX; lia).
  repeat split.
Qed.

Lemma find_or_create_without_capacity_witness :
  Embedder.find_or_create_speaker Embedder.new_embedder [1; 0] 0.3 0
    = (Embedder.new_embedder, 0%Z)
  /\ Embedder.get_speaker_count Embedder.new_embedder = 0%nat
  /\ nth_error (Embedder.speaker_centroids_ Embedder.new_embedder) 0 = None
  /\ Embedder.calculate_confidence Embedder.new_embedder [1; 0] 0 = 0.5.
Proof.
  apply (find_or_create_without_capacity Embedder.new_embedder [1; 0] 0.3 0).
  - reflexivity.
  - lia.
Defined.

(* ------------------------------------------------------------------ *)
(** ** The fixed-window fallback of [create_segments] *)

Lemma float_to_size_IZR (z : Z) : float_to_size (IZR z) = Z.to_nat z.
Proof. unfold float_to_size. rewrite ZfloorZ. reflexivity. Qed.


(** The loop of the fallback visits the starts [25 k] below
    [total - 5], whatever the guard of [emit_segment] does with them. *)
Lemma fixed_windows_eq audio options total n :
  25 * INR n - 25 < total - 5 <= 25 * INR n ->
  forall fuel k start,
    start = 25 * INR k -> (k <= n)%nat -> (n <= k + fuel)%nat ->
    Engine.fixed_windows fuel audio options total start =
      flat_map (fun j => Engine.emit_segment audio options (25 * INR j)
                                             (fmin (25 * INR j + 25) total))
               (seq k (n - k)).
Proof.
  intros Hn fuel.
  induction fuel as [| fuel IH]; intros k start Hstart Hk Hfuel.
  - replace (n - k)%nat with 0%nat by lia. reflexivity.
  - cbn [Engine.fixed_windows]. assert (Hpos : 0 <= INR k) by apply pos_INR.
    destruct (Rlt_dec start (total - 5)) as [Hlt | Hge].
    + assert (Hkn : (k < n)%nat).
      { apply INR_lt. nra. }
      replace (n - k)%nat with (S (n - S k)) by lia. cbn [seq flat_map].
      subst start. f_equal.
      apply IH; try lia. rewrite S_INR. ring.
    + assert (Hkn : (n <= k)%nat).
      { destruct (le_lt_dec n k) as [Hle | Hgt]; auto. exfalso.
        assert (INR k <= INR n - 1).
        { replace (INR n - 1) with (INR (n - 1)).
          - apply le_INR. lia.
          - rewrite minus_INR by lia. simpl. ring. }
        nra. }
      replace (n - k)%nat with 0%nat by lia. reflexivity.
Qed.

Lemma fixed_window_count (total : R) :
  total > 30 ->
  let n := Z.to_nat (Zceil ((total - 5) / 25)) in
  25 * INR n - 25 < total - 5 <= 25 * INR n
  /\ (n <= Z.to_nat (Zceil (total / 25)))%nat.
Proof.
  intros Hlong n.
  pose proof (Zceil_bound ((total - 5) / 25)) as Hb.
  assert (Hc : (1 <= Zceil ((total - 5) / 25))%Z).
  { apply Z.lt_pred_le. apply lt_IZR. simpl. lra. }
  assert (Hn : INR n = IZR (Zceil ((total - 5) / 25))).
  { unfold n. apply INR_Z_to_nat. lia. }
  split.
  - rewrite Hn. lra.
  - unfold n. apply Z2Nat.inj_le; try lia.
    + apply Z.le_trans with (1 := ltac:(lia) : (0 <= 1)%Z).
      apply Z.le_trans with (1 := Hc). apply Zceil_le. lra.
    + apply Zceil_le. lra.
Qed.

Lemma create_segments_windows audio options :
  Engine.total_duration audio options > 30 ->
  exists n,
    25 * INR n - 25 < Engine.total_duration audio options - 5 <= 25 * INR n
    /\ Engine.create_segments audio [] options
       = flat_map (fun j => Engine.emit_segment audio options (25 * INR j)
                              (fmin (25 * INR j + 25)
                                    (Engine.total_duration audio options)))
                  (seq 0 n).
Proof.
  intros Hlong. destruct (fixed_window_count _ Hlong) as [Hn Hfuel].
  eexists. split; [exact Hn |].
  unfold Engine.create_segments.
  destruct (Rgt_dec (Engine.total_duration audio options) 30); [| contradiction].
  rewrite (fixed_windows_eq audio options _ _ Hn _ 0%nat); try lia.
  - rewrite Nat.sub_0_r. reflexivity.
  - simpl. ring.
Qed.



(** *** At 16 kHz *)

Lemma sample_at_16k (z : Z) :
  (0 <= z < 2 ^ 24)%Z ->
  Engine.sample_at default_options (IZR z / 16000) = Z.to_nat z.
Proof.
  intros Hz. unfold Engine.sample_at, default_options. cbn [Engine.sample_rate].
  rewrite (round32_IZR 16000) by lia.
  replace (IZR z / 16000 * 16000) with (IZR z) by field.
  rewrite round32_IZR by lia. apply float_to_size_IZR.
Qed.

Lemma sample_at_window (k : nat) :
  (k <= 41)%nat ->
  Engine.sample_at default_options (25 * INR k) = Z.to_nat (400000 * Z.of_nat k).
Proof.
  intros Hk. rewrite <- sample_at_16k by lia. f_equal.
  rewrite mult_IZR, <- INR_IZR_INZ. field.
Qed.

Lemma total_duration_16k (audio : list R) (z : Z) :
  (0 <= z < 2 ^ 24)%Z ->
  length audio = Z.to_nat z ->
  Engine.total_duration audio default_options = round32 (IZR z / 16000).
Proof.
  intros Hz Hlen. unfold Engine.total_duration, default_options. cbn [Engine.sample_rate].
  rewrite Hlen, INR_Z_to_nat by lia.
  rewrite (round32_IZR z), (round32_IZR 16000) by lia. reflexivity.
Qed.


(** The example of the claim: a 40-second buffer at 16 kHz gives [0, 25)
    and [25, 40). *)
Lemma create_segments_forty_seconds (audio : list R) :
  length audio = Z.to_nat 640000 ->
  Engine.create_segments audio [] default_options
  = [Engine.mkSegment (firstn (Z.to_nat 400000) audio) 0 25 None None;
     Engine.mkSegment (skipn (Z.to_nat 400000) audio) 25 40 None None].
Proof.
  intros Hlen.
  assert (Htotal : Engine.total_duration audio default_options = 40).
  { rewrite (total_duration_16k audio 640000) by (try exact Hlen; lia).
    replace (640000 / 16000) with 40 by field. apply (round32_IZR 40). lia. }
  destruct (create_segments_windows audio default_options) as [n [Hn ->]];
    [rewrite Htotal; lra |].
  rewrite Htotal in *.
  assert (Hn2 : n = 2%nat).
  { assert (n < 3)%nat by (apply INR_lt; simpl; lra).
    assert (1 < n)%nat by (apply INR_lt; simpl; lra). lia. }
  rewrite Hn2. cbn [seq flat_map app].
  assert (H40 : Engine.sample_at default_options 40 = Z.to_nat 640000).
  { rewrite <- sample_at_16k by lia. f_equal. field. }
  assert (Hmin0 : fmin (25 * INR 0 + 25) 40 = 25 * INR 1)
    by (simpl; unfold fmin; destruct (Rlt_dec 40 (25 * 0 + 25)); lra).
  assert (Hmin1 : fmin (25 * INR 1 + 25) 40 = 40)
    by (simpl; unfold fmin; destruct (Rlt_dec 40 (25 * 1 + 25)); lra).
  unfold Engine.emit_segment. rewrite Hmin0, Hmin1, H40.
  rewrite !sample_at_window by lia. rewrite Hlen.
  replace (Z.to_nat (400000 * Z.of_nat 0)) with 0%nat by lia.
  replace (Z.to_nat (400000 * Z.of_nat 1)) with (Z.to_nat 400000) by lia.
  assert (Hab : (Z.to_nat 400000 < Z.to_nat 640000)%nat) by lia.
  assert (Ha : (0 < Z.to_nat 400000)%nat) by lia.
  remember (Z.to_nat 400000) as a eqn:Ea. remember (Z.to_nat 640000) as b eqn:Eb.
  clear Ea Eb.
  replace (a <=? b)%nat with true by (symmetry; apply Nat.leb_le; lia).
  replace (0 <? a)%nat with true by (symmetry; apply Nat.ltb_lt; lia).
  replace (b <=? b)%nat with true by (symmetry; apply Nat.leb_le; lia).
  replace (a <? b)%nat with true by (symmetry; apply Nat.ltb_lt; lia).
  cbn [andb]. rewrite Nat.sub_0_r. cbn [skipn].
  replace (25 * INR 0) with 0 by (simpl; ring).
  replace (25 * INR 1) with 25 by (simpl; ring).
  rewrite (firstn_all2 (n := b - a)) by (rewrite length_skipn, Hlen; lia).
  reflexivity.
Qed.

(** *** A recording whose last window is lost *)





(* ------------------------------------------------------------------ *)
(** ** Sorting and merging of the change points *)

Lemma sort_insert_In (x y : R) (l : list R) :
  In y (Segmenter.sort_insert x l) <-> y = x \/ In y l.
Proof.
  induction l as [| z r IH]; simpl.
  - intuition.
  - destruct (Rlt_dec z x); simpl; rewrite ?IH; intuition.
Qed.

Lemma std_sort_In (y : R) (l : list R) :
  In y (Segmenter.std_sort l) <-> In y l.
Proof.
  induction l as [| x r IH]; simpl; [tauto |].
  rewrite sort_insert_In, IH. intuition.
Qed.

Lemma sort_insert_sorted (x : R) (l : list R) :
  StronglySorted Rle l -> StronglySorted Rle (Segmenter.sort_insert x l).
Proof.
  induction 1 as [| z r Hs IH Hall]; simpl.
  - constructor; constructor.
  - destruct (Rlt_dec z x) as [Hlt | Hge].
    + constructor; auto.
      apply Forall_forall. intros y Hy. apply sort_insert_In in Hy.
      destruct Hy as [-> | Hy]; [lra |].
      rewrite Forall_forall in Hall. auto.
    + constructor; [constructor; auto |].
      constructor; [lra |].
      rewrite Forall_forall in *. intros y Hy. specialize (Hall y Hy). lra.
Qed.

Lemma std_sort_sorted (l : list R) : StronglySorted Rle (Segmenter.std_sort l).
Proof.
  induction l as [| x r IH]; simpl; [constructor |].
  apply sort_insert_sorted. exact IH.
Qed.

Lemma too_close_sorted (a b : R) :
  a <= b -> (Segmenter.too_close a b = true <-> b < a + 1).
Proof.
  intros Hab. unfold Segmenter.too_close. rewrite ltb_true_iff.
  rewrite Rabs_left1 by lra. split; lra.
Qed.

Lemma unique_from_incl (kept : R) (l : list R) (x : R) :
  In x (Segmenter.unique_from kept l) -> In x l.
Proof.
  revert kept. induction l as [| y r IH]; intros kept; simpl; [tauto |].
  destruct (Segmenter.too_close kept y); simpl.
  - intros H. right. eapply IH; eauto.
  - intros [-> | H]; [auto | right; eapply IH; eauto].
Qed.

Lemma unique_from_spaced (kept : R) (l : list R) :
  StronglySorted Rle (kept :: l) ->
  StronglySorted (fun a b => a + 1 <= b) (kept :: Segmenter.unique_from kept l).
Proof.
  revert kept. induction l as [| x r IH]; intros kept Hs; simpl.
  - constructor; constructor.
  - inversion Hs as [| ? ? Hxr Hk]; subst.
    inversion Hk as [| ? ? Hkx Hkr]; subst.
    inversion Hxr as [| ? ? Hr Hx]; subst.
    destruct (Segmenter.too_close kept x) eqn:Hclose.
    + apply IH. constructor; auto.
    + specialize (IH x Hxr).
      assert (Hgap : kept + 1 <= x).
      { destruct (Rle_dec (kept + 1) x); auto. exfalso.
        assert (Segmenter.too_close kept x = true) by (apply too_close_sorted; lra).
        congruence. }
      constructor; auto.
      constructor; auto.
      apply Forall_forall. intros y Hy. apply unique_from_incl in Hy.
      rewrite Forall_forall in Hx. specialize (Hx y Hy). lra.
Qed.

Lemma unique_from_cluster (kept : R) (l : list R) (c : R) :
  StronglySorted Rle (kept :: l) ->
  In c (kept :: l) ->
  exists k, In k (kept :: Segmenter.unique_from kept l) /\ k <= c < k + 1.
Proof.
  revert kept. induction l as [| x r IH]; intros kept Hs Hc.
  - destruct Hc as [<- | []]. exists kept. split; [left; auto | lra].
  - inversion Hs as [| ? ? Hxr Hk]; subst.
    inversion Hk as [| ? ? Hkx Hkr]; subst.
    inversion Hxr as [| ? ? Hr Hx]; subst.
    simpl. destruct (Segmenter.too_close kept x) eqn:Hclose.
    + apply too_close_sorted in Hclose; auto.
      destruct Hc as [<- | [<- | Hc]].
      * exists kept. split; [left; auto | lra].
      * exists kept. split; [left; auto | lra].
      * apply IH; [constructor; auto | right; auto].
    + destruct Hc as [<- | Hc].
      * exists kept. split; [left; auto | lra].
      * destruct (IH x Hxr Hc) as [k [Hk' Hb]].
        exists k. split; [right; exact Hk' | exact Hb].
Qed.

Lemma spaced_nth (l : list R) (i j : nat) :
  StronglySorted (fun a b => a + 1 <= b) l ->
  (i < j < length l)%nat -> nth i l 0 + 1 <= nth j l 0.
Proof.
  intros Hs. revert i j. induction Hs as [| x r Hs IH Hall]; intros i j Hij; simpl in *.
  - lia.
  - destruct j as [| j]; [lia |]. destruct i as [| i].
    + rewrite Forall_forall in Hall. apply Hall. apply nth_In. lia.
    + apply IH. lia.
Qed.

Lemma spaced_sorted (l : list R) :
  StronglySorted (fun a b => a + 1 <= b) l -> Sorted Rle l.
Proof.
  intros Hs. apply StronglySorted_Sorted.
  induction Hs as [| x r Hs IH Hall]; constructor; auto.
  rewrite Forall_forall in *. intros y Hy. specialize (Hall y Hy). lra.
Qed.

Lemma std_unique_spec (l : list R) :
  StronglySorted Rle l ->
  StronglySorted (fun a b => a + 1 <= b) (Segmenter.std_unique l)
  /\ (forall t, In t (Segmenter.std_unique l) -> In t l)
  /\ (forall c, In c l -> exists k, In k (Segmenter.std_unique l) /\ k <= c < k + 1).
Proof.
  intros Hs. destruct l as [| x r]; simpl.
  - repeat split; [constructor | tauto | intros c []].
  - repeat split.
    + apply unique_from_spaced; auto.
    + intros t [-> | Ht]; [auto | right; eapply unique_from_incl; eauto].
    + intros c Hc. apply unique_from_cluster; auto.
Qed.

(** C3: the list returned by [detect_change_points] is sorted ascending
    and any two of its timestamps are at least 1.0 s apart; every
    timestamp returned is one of the candidate points, and every candidate
    lies less than 1.0 s after a returned timestamp that is not later than
    it, so that of candidates within 1.0 s of each other the earliest is
    the one kept. *)
Theorem detect_change_points_deduplicated
        (s : Segmenter.SpeakerSegmenter) (audio : list R) (threshold : R) :
  let out := Segmenter.detect_change_points s audio threshold in
  Sorted Rle out
  /\ (forall i j, (i < j < length out)%nat -> 1 <= nth j out 0 - nth i out 0)
  /\ (forall t, In t out -> In t (Segmenter.candidate_points s audio threshold))
  /\ (Segmenter.is_initialized s = true ->
      forall c, In c (Segmenter.candidate_points s audio threshold) ->
                exists k, In k out /\ k <= c < k + 1).
Proof.
  unfold Segmenter.detect_change_points.
  destruct (Segmenter.is_initialized s).
  - destruct (std_unique_spec _ (std_sort_sorted (Segmenter.candidate_points s audio threshold)))
      as [Hsp [Hin Hcl]].
    cbv zeta. split; [apply spaced_sorted; auto |]. split; [| split].
    + intros i j Hij. pose proof (spaced_nth _ i j Hsp Hij). lra.
    + intros t Ht. apply std_sort_In. auto.
    + intros _ c Hc. apply Hcl. apply std_sort_In. auto.
  - cbv zeta. split; [constructor |]. split; [| split].
    + simpl. intros; lia.
    + intros t [].
    + discriminate.
Qed.

Ltac decide_reals :=
  repeat match goal with
         | |- context [Rcase_abs ?a] => destruct (Rcase_abs a); try lra
         | H : context [Rcase_abs ?a] |- _ => destruct (Rcase_abs a); try lra
         | |- context [Rlt_dec ?a ?b] => destruct (Rlt_dec a b); try lra
         | H : context [Rlt_dec ?a ?b] |- _ => destruct (Rlt_dec a b); try lra
         | |- context [Rgt_dec ?a ?b] => destruct (Rgt_dec a b); try lra
         | H : context [Rgt_dec ?a ?b] |- _ => destruct (Rgt_dec a b); try lra
         | |- context [Rge_dec ?a ?b] => destruct (Rge_dec a b); try lra
         | H : context [Rge_dec ?a ?b] |- _ => destruct (Rge_dec a b); try lra
         end.

(** Four candidates 0.6 s apart: after sorting, 0 is kept, 0.6 is merged
    into it, 1.2 is kept (it is compared with 0, the last point kept), 1.8
    is merged into 1.2. *)
Lemma std_unique_example :
  Segmenter.std_unique (Segmenter.std_sort [1.2; 0; 1.8; 0.6]) = [0; 1.2].
Proof.
  unfold Segmenter.std_sort. cbn [fold_right Segmenter.sort_insert].
  decide_reals. cbn [Segmenter.sort_insert]. decide_reals.
  cbn [Segmenter.sort_insert]. decide_reals.
  cbn [Segmenter.std_unique Segmenter.unique_from].
  unfold Segmenter.too_close, ltb, Rabs. decide_reals. reflexivity.
Qed.

(* ------------------------------------------------------------------ *)
(** ** The speaker set: [find_or_create_speaker] *)

Lemma length_set_nth {A : Type} (i : nat) (x : A) (l : list A) :
  length (set_nth i x l) = length l.
Proof.
  revert i. induction l as [| y r IH]; intros [| i]; simpl; auto.
Qed.

Lemma update_speaker_centroid_count e id embedding :
  Embedder.get_speaker_count (Embedder.update_speaker_centroid e id embedding)
  = Embedder.get_speaker_count e.
Proof.
  unfold Embedder.update_speaker_centroid, Embedder.get_speaker_count.
  destruct (_ || _); [reflexivity |]. simpl. apply length_set_nth.
Qed.

Lemma cosine_similarity_lower (a b : list R) : -1 <= Embedder.cosine_similarity a b.
Proof.
  unfold Embedder.cosine_similarity.
  destruct (_ || _); [lra |].
  case_fmax (-1) (fmin 1 (Embedder.dot_product a b 0)); lra.
Qed.

(** The comparison loop returns the first centroid of largest similarity,
    unless none is more similar than the similarity it started with. *)
Lemma best_match_spec embedding centroids :
  forall i best_similarity best_speaker,
    (Z.of_nat (i + length centroids) <= INT_MAX)%Z ->
    let r := Embedder.best_match embedding centroids i best_similarity best_speaker in
    (r = (best_similarity, best_speaker)
     /\ forall j, (j < length centroids)%nat ->
                  Embedder.cosine_similarity embedding (nth j centroids []) <= best_similarity)
    \/ (exists j,
           r = (Embedder.cosine_similarity embedding (nth j centroids []), Z.of_nat (i + j))
           /\ best_similarity < Embedder.cosine_similarity embedding (nth j centroids [])
           /\ Runs.most_similar embedding centroids j).
Proof.
  induction centroids as [| c rest IH]; intros i bs bsp Hsize; cbv zeta.
  - left. simpl. split; [reflexivity | intros; lia].
  - cbn [Embedder.best_match]. cbn [length] in Hsize.
    destruct (Rgt_dec (Embedder.cosine_similarity embedding c) bs) as [Hgt | Hle].
    + rewrite wrap_int_small by (unfold INT_MAX in *; lia).
      destruct (IH (S i) (Embedder.cosine_similarity embedding c) (Z.of_nat i))
        as [[Hr Hall] | [j [Hr [Hbetter [Hj [Hmax Hfirst]]]]]]; [lia | |].
      * right. exists 0%nat. rewrite Hr. rewrite Nat.add_0_r. cbn [nth].
        split; [reflexivity |]. split; [lra |].
        split; [simpl; lia |]. split.
        -- intros [| k] Hk; cbn [nth]; [lra | apply Hall; simpl in Hk; lia].
        -- intros k Hk. lia.
      * right. exists (S j). rewrite Hr. cbn [nth].
        replace (S i + j)%nat with (i + S j)%nat by lia.
        split; [reflexivity |]. split; [lra |].
        split; [simpl; lia |]. split.
        -- intros [| k] Hk; cbn [nth]; [lra | apply Hmax; simpl in Hk; lia].
        -- intros [| k] Hk; cbn [nth]; [lra | apply Hfirst; lia].
    + destruct (IH (S i) bs bsp) as [[Hr Hall] | [j [Hr [Hbetter [Hj [Hmax Hfirst]]]]]];
        [lia | |].
      * left. split; [exact Hr |].
        intros [| k] Hk; cbn [nth]; [lra | apply Hall; simpl in Hk; lia].
      * right. exists (S j). rewrite Hr. cbn [nth].
        replace (S i + j)%nat with (i + S j)%nat by lia.
        split; [reflexivity |]. split; [lra |].
        split; [simpl; lia |]. split.
        -- intros [| k] Hk; cbn [nth]; [lra | apply Hmax; simpl in Hk; lia].
        -- intros [| k] Hk; cbn [nth]; [lra | apply Hfirst; lia].
Qed.

(** The four ways out of [find_or_create_speaker]. *)
Lemma find_or_create_cases e embedding threshold M :
  (Z.of_nat (Embedder.get_speaker_count e) <= INT_MAX)%Z ->
  let centroids := Embedder.speaker_centroids_ e in
  let r := Embedder.find_or_create_speaker e embedding threshold M in
  (* matched above the threshold *)
  (exists j, Runs.most_similar embedding centroids j
             /\ threshold < Embedder.cosine_similarity embedding (nth j centroids [])
             /\ r = (Embedder.update_speaker_centroid e (Z.of_nat j) embedding, Z.of_nat j))
  (* created *)
  \/ ((Z.of_nat (length centroids) < M)%Z
      /\ r = (Embedder.set_speakers e (centroids ++ [embedding])
                                    (Embedder.speaker_counts_ e ++ [1%Z]),
              Z.of_nat (length centroids)))
  (* forced onto the most similar *)
  \/ ((M <= Z.of_nat (length centroids))%Z
      /\ exists j, Runs.most_similar embedding centroids j
                   /\ Embedder.cosine_similarity embedding (nth j centroids []) <= threshold
                   /\ r = (Embedder.update_speaker_centroid e (Z.of_nat j) embedding,
                           Z.of_nat j))
  (* nothing to compare with, or nothing more similar than -1 *)
  \/ ((M <= Z.of_nat (length centroids))%Z
      /\ (forall j, (j < length centroids)%nat ->
                    Embedder.cosine_similarity embedding (nth j centroids []) = -1)
      /\ r = (e, 0%Z)).
Proof.
  intros Hsize centroids r. unfold Embedder.get_speaker_count in Hsize.
  fold centroids in Hsize.
  unfold r, Embedder.find_or_create_speaker. fold centroids.
  pose proof (best_match_spec embedding centroids 0 (-1) (-1)%Z Hsize) as Hbest.
  cbv zeta in Hbest.
  assert (Hwrap : wrap_int (Z.of_nat (length centroids)) = Z.of_nat (length centroids))
    by (apply wrap_int_small; unfold INT_MAX in *; lia).
  destruct Hbest as [[Hr Hall] | [j [Hr [Hbetter Hms]]]]; rewrite Hr.
  - (* no centroid is more similar than -1 *)
    rewrite andb_false_r. rewrite Hwrap.
    destruct (Z.ltb_spec (Z.of_nat (length centroids)) M) as [Hroom | Hfull].
    + right. left. split; [exact Hroom |].
      cbn [Embedder.set_speakers Embedder.speaker_centroids_].
      rewrite length_app. cbn [length].
      replace (length centroids + 1 - 1)%nat with (length centroids) by lia.
      rewrite Hwrap. reflexivity.
    + right. right. right. split; [exact Hfull |]. split; [| reflexivity].
      intros k Hk. specialize (Hall k Hk).
      pose proof (cosine_similarity_lower embedding (nth k centroids [])). lra.
  - replace (0 <=? Z.of_nat (0 + j))%Z with true by (symmetry; apply Z.leb_le; lia).
    rewrite andb_true_r. cbn [Nat.add].
    destruct (gtb _ threshold) eqn:Habove.
    + left. exists j. apply gtb_true_iff in Habove.
      split; [exact Hms |]. split; [lra | reflexivity].
    + apply gtb_false_iff in Habove. rewrite Hwrap.
      destruct (Z.ltb_spec (Z.of_nat (length centroids)) M) as [Hroom | Hfull].
      * right. left. split; [exact Hroom |].
        cbn [Embedder.set_speakers Embedder.speaker_centroids_].
        rewrite length_app. cbn [length].
        replace (length centroids + 1 - 1)%nat with (length centroids) by lia.
        rewrite Hwrap. reflexivity.
      * right. right. left. split; [exact Hfull |].
        exists j. split; [exact Hms |]. split; [exact Habove | reflexivity].
Qed.

(** One call keeps the speaker set within [max (M, 0)] profiles; it
    either leaves the number of profiles as it is and returns the index of
    a stored profile (or 0 on an empty set), or appends one profile and
    returns its index, which is the number of profiles stored before. *)
Lemma find_or_create_step e embedding threshold M :
  (M <= INT_MAX)%Z ->
  (Z.of_nat (Embedder.get_speaker_count e) <= Z.max M 0)%Z ->
  let r := Embedder.find_or_create_speaker e embedding threshold M in
  (Z.of_nat (Embedder.get_speaker_count (fst r)) <= Z.max M 0)%Z
  /\ ((Embedder.get_speaker_count (fst r) = Embedder.get_speaker_count e
       /\ (0 <= snd r)%Z
       /\ ((snd r < Z.of_nat (Embedder.get_speaker_count e))%Z
           \/ (Embedder.get_speaker_count e = 0%nat /\ snd r = 0%Z)))
      \/ (Embedder.speaker_centroids_ (fst r) = Embedder.speaker_centroids_ e ++ [embedding]
          /\ snd r = Z.of_nat (Embedder.get_speaker_count e))).
Proof.
  intros HM Hinv r.
  assert (Hsize : (Z.of_nat (Embedder.get_speaker_count e) <= INT_MAX)%Z)
    by (unfold INT_MAX in *; lia).
  destruct (find_or_create_cases e embedding threshold M Hsize)
    as [[j [[Hj _] [_ Hr]]] | [[Hroom Hr] | [[Hfull [j [[Hj _] [_ Hr]]]] | [Hfull [Hall Hr]]]]];
    fold r in Hr; rewrite Hr; cbn [fst snd].
  - rewrite update_speaker_centroid_count. split; [exact Hinv |]. left.
    unfold Embedder.get_speaker_count. repeat split; try lia.
  - unfold Embedder.get_speaker_count in *.
    cbn [Embedder.set_speakers Embedder.speaker_centroids_].
    rewrite length_app. cbn [length]. split; [lia |]. right. split; reflexivity.
  - rewrite update_speaker_centroid_count. split; [exact Hinv |]. left.
    unfold Embedder.get_speaker_count. repeat split; try lia.
  - split; [exact Hinv |]. left.
    unfold Embedder.get_speaker_count in *. repeat split; try lia.
Qed.
Lemma find_or_create_on_empty_without_room e embedding threshold M :
  Embedder.speaker_centroids_ e = [] ->
  (M <= 0)%Z ->
  Embedder.find_or_create_speaker e embedding threshold M = (e, 0%Z).
Proof.
  intros Hempty HM. unfold Embedder.find_or_create_speaker.
  rewrite Hempty. cbn [Embedder.best_match length Z.of_nat].
  rewrite andb_false_r.
  replace (wrap_int 0 <? M)%Z with false
    by (symmetry; apply Z.ltb_ge; rewrite wrap_int_small; unfold INT_MAX; lia).
  reflexivity.
Qed.

Lemma call_sequence_bounded calls M :
  (M <= INT_MAX)%Z ->
  forall e call,
    (Z.of_nat (Embedder.get_speaker_count e) <= Z.max M 0)%Z ->
    In call (Runs.call_sequence e calls M) ->
    (Z.of_nat (Embedder.get_speaker_count (Runs.after call)) <= Z.max M 0)%Z
    /\ ((Embedder.get_speaker_count (Runs.after call)
         = Embedder.get_speaker_count (Runs.before call)
         /\ (0 <= Runs.returned call)%Z
         /\ ((Runs.returned call < Z.of_nat (Embedder.get_speaker_count (Runs.before call)))%Z
             \/ (Embedder.get_speaker_count (Runs.before call) = 0%nat
                 /\ Runs.returned call = 0%Z)))
        \/ (Embedder.speaker_centroids_ (Runs.after call)
            = Embedder.speaker_centroids_ (Runs.before call) ++ [Runs.given call]
            /\ Runs.returned call
               = Z.of_nat (Embedder.get_speaker_count (Runs.before call)))).
Proof.
  intros HM. induction calls as [| [embedding threshold] rest IH]; intros e call Hinv Hin.
  - destruct Hin.
  - cbn [Runs.call_sequence] in Hin.
    pose proof (find_or_create_step e embedding threshold M HM Hinv) as Hstep.
    cbv zeta in Hstep. destruct Hin as [<- | Hin].
    + cbn [Runs.after Runs.before Runs.returned Runs.given]. exact Hstep.
    + apply (IH _ _ (proj1 Hstep) Hin).
Qed.

(** C4, as stated, fails for a negative limit: after one call with
    [max_speakers = -1] on the empty set, the set holds 0 profiles, which
    is more than -1. *)
Lemma speaker_set_negative_limit :
  exists call,
    In call (Runs.call_sequence Embedder.new_embedder [([1; 0], 0.3)] (-1))
    /\ Embedder.get_speaker_count (Runs.after call) = 0%nat
    /\ ~ (Z.of_nat (Embedder.get_speaker_count (Runs.after call)) <= -1)%Z.
Proof.
  eexists. split; [left; reflexivity |].
  cbn [Runs.after].
  rewrite find_or_create_on_empty_without_room by (reflexivity || lia).
  cbn. split; [reflexivity | lia].
Qed.

(** C4, amended: starting from an empty speaker set, after every call of a
    sequence of [find_or_create_speaker] calls made with the same
    [max_speakers = M] the set holds at most [max (M, 0)] profiles.  A call
    either leaves the profiles in place and returns the index of one of
    them (0 on an empty set), or appends one profile and returns its index,
    the number of profiles stored before: ids are dense, from 0, in
    creation order.  [reset_speakers] empties the set. *)
Theorem speaker_set_bounded
        (e0 : Embedder.SpeakerEmbedder) (calls : list (list R * R)) (M : Z)
        (call : Runs.Call) :
  Embedder.speaker_centroids_ e0 = [] ->
  (M <= INT_MAX)%Z ->
  In call (Runs.call_sequence e0 calls M) ->
  (Z.of_nat (Embedder.get_speaker_count (Runs.after call)) <= Z.max M 0)%Z
  /\ ((Embedder.get_speaker_count (Runs.after call)
       = Embedder.get_speaker_count (Runs.before call)
       /\ (0 <= Runs.returned call)%Z
       /\ ((Runs.returned call < Z.of_nat (Embedder.get_speaker_count (Runs.before call)))%Z
           \/ (Embedder.get_speaker_count (Runs.before call) = 0%nat
               /\ Runs.returned call = 0%Z)))
      \/ (Embedder.speaker_centroids_ (Runs.after call)
          = Embedder.speaker_centroids_ (Runs.before call) ++ [Runs.given call]
          /\ Runs.returned call = Z.of_nat (Embedder.get_speaker_count (Runs.before call))))
  /\ Embedder.speaker_centroids_ (Embedder.reset_speakers (Runs.after call)) = []
  /\ Embedder.speaker_counts_ (Embedder.reset_speakers (Runs.after call)) = [].
Proof.
  intros Hempty HM Hin.
  assert (Hinv : (Z.of_nat (Embedder.get_speaker_count e0) <= Z.max M 0)%Z).
  { unfold Embedder.get_speaker_count. rewrite Hempty. simpl. lia. }
  destruct (call_sequence_bounded calls M HM e0 call Hinv Hin) as [Hb Hd].
  split; [exact Hb |]. split; [exact Hd |]. split; reflexivity.
Qed.

Lemma call_sequence_app e calls1 calls2 M :
  Runs.call_sequence e (calls1 ++ calls2) M =
    Runs.call_sequence e calls1 M
    ++ Runs.call_sequence (Runs.after_calls e calls1 M) calls2 M.
Proof.
  revert e. induction calls1 as [| [embedding threshold] rest IH]; intros e.
  - reflexivity.
  - cbn [app Runs.call_sequence Runs.after_calls]. rewrite IH. reflexivity.
Qed.

Lemma after_calls_app e calls1 calls2 M :
  Runs.after_calls e (calls1 ++ calls2) M =
    Runs.after_calls (Runs.after_calls e calls1 M) calls2 M.
Proof.
  revert e. induction calls1 as [| [embedding threshold] rest IH]; intros e.
  - reflexivity.
  - cbn [app Runs.after_calls]. rewrite IH. reflexivity.
Qed.

(** While there is room and no centroid is similar enough, every call
    creates a profile. *)
Lemma call_sequence_creates threshold M :
  (M <= INT_MAX)%Z ->
  forall firsts e,
    (Z.of_nat (Embedder.get_speaker_count e) + Z.of_nat (length firsts) <= M)%Z ->
    (forall call,
        In call (Runs.call_sequence e (map (fun x => (x, threshold)) firsts) M) ->
        forall centroid,
          In centroid (Embedder.speaker_centroids_ (Runs.before call)) ->
          Embedder.cosine_similarity (Runs.given call) centroid < threshold) ->
    map Runs.returned (Runs.call_sequence e (map (fun x => (x, threshold)) firsts) M)
    = map Z.of_nat (seq (Embedder.get_speaker_count e) (length firsts))
    /\ Embedder.speaker_centroids_
         (Runs.after_calls e (map (fun x => (x, threshold)) firsts) M)
       = Embedder.speaker_centroids_ e ++ firsts.
Proof.
  intros HM. induction firsts as [| x rest IH]; intros e Hroom Hbelow.
  - cbn. rewrite app_nil_r. split; reflexivity.
  - cbn [map Runs.call_sequence Runs.after_calls length seq] in *.
    assert (Hsize : (Z.of_nat (Embedder.get_speaker_count e) <= INT_MAX)%Z)
      by lia.
    assert (Hhere : forall centroid,
               In centroid (Embedder.speaker_centroids_ e) ->
               Embedder.cosine_similarity x centroid < threshold).
    { intros centroid Hc. apply (Hbelow _ (or_introl eq_refl)). exact Hc. }
    unfold Embedder.get_speaker_count in *.
    destruct (find_or_create_cases e x threshold M Hsize)
      as [[j [[Hj _] [Habove _]]] | [[_ Hr] | [[Hfull _] | [Hfull _]]]];
      cbv zeta in *; try lia.
    + exfalso.
      specialize (Hhere _ (nth_In (Embedder.speaker_centroids_ e) [] Hj)). lra.
    + rewrite Hr in *. cbn [fst snd] in *.
      set (e1 := Embedder.set_speakers e (Embedder.speaker_centroids_ e ++ [x])
                                        (Embedder.speaker_counts_ e ++ [1%Z])) in *.
      assert (Hcount : length (Embedder.speaker_centroids_ e1)
                       = S (length (Embedder.speaker_centroids_ e))).
      { unfold e1. cbn [Embedder.set_speakers Embedder.speaker_centroids_].
        rewrite length_app. simpl. lia. }
      destruct (IH e1) as [Hids Hcs].
      * rewrite Hcount. lia.
      * intros call Hin. apply Hbelow. right. exact Hin.
      * split.
        -- cbn [map]. f_equal. rewrite Hids, Hcount. reflexivity.
        -- rewrite Hcs. unfold e1.
           cbn [Embedder.set_speakers Embedder.speaker_centroids_].
           rewrite <- app_assoc. reflexivity.
Qed.

(** C5: with [max_speakers = K >= 1], an empty speaker set and K+1
    embeddings given in order, each less similar than the threshold to
    every centroid stored at its turn: the first K calls create the
    profiles 0, ..., K-1 (the K embeddings themselves), and the last call
    creates nothing and returns the id of the centroid most similar to its
    embedding. *)
Theorem speaker_limit_forces_assignment
        (K : nat) (firsts : list (list R)) (last : list R) (threshold : R)
        (e0 : Embedder.SpeakerEmbedder) :
  (1 <= K)%nat ->
  (Z.of_nat K <= INT_MAX)%Z ->
  length firsts = K ->
  Embedder.speaker_centroids_ e0 = [] ->
  (forall call,
      In call (Runs.call_sequence e0 (map (fun x => (x, threshold)) (firsts ++ [last]))
                                  (Z.of_nat K)) ->
      forall centroid,
        In centroid (Embedder.speaker_centroids_ (Runs.before call)) ->
        Embedder.cosine_similarity (Runs.given call) centroid < threshold) ->
  exists best,
    map Runs.returned
        (Runs.call_sequence e0 (map (fun x => (x, threshold)) (firsts ++ [last]))
                            (Z.of_nat K))
    = map Z.of_nat (seq 0 K ++ [best])
    /\ Embedder.speaker_centroids_
         (Runs.after_calls e0 (map (fun x => (x, threshold)) firsts) (Z.of_nat K))
       = firsts
    /\ Runs.most_similar last firsts best
    /\ Embedder.get_speaker_count
         (Runs.after_calls e0 (map (fun x => (x, threshold)) (firsts ++ [last]))
                           (Z.of_nat K))
       = K.
Proof.
  intros HK Hint Hlen Hempty Hbelow.
  rewrite map_app in *. cbn [map] in *.
  rewrite call_sequence_app in Hbelow. rewrite call_sequence_app, after_calls_app.
  destruct (call_sequence_creates threshold (Z.of_nat K) Hint firsts e0) as [Hids Hcs].
  - unfold Embedder.get_speaker_count. rewrite Hempty, Hlen. simpl. lia.
  - intros call Hin. apply Hbelow. apply in_or_app. left. exact Hin.
  - unfold Embedder.get_speaker_count in Hids. rewrite Hempty in Hids, Hcs.
    cbn [length app] in Hids, Hcs. rewrite Hlen in Hids.
    set (eK := Runs.after_calls e0 (map (fun x => (x, threshold)) firsts) (Z.of_nat K)) in *.
    assert (Hlast : forall centroid,
               In centroid firsts -> Embedder.cosine_similarity last centroid < threshold).
    { intros centroid Hc.
      apply (Hbelow (Runs.mkCall eK last
                       (fst (Embedder.find_or_create_speaker eK last threshold (Z.of_nat K)))
                       (snd (Embedder.find_or_create_speaker eK last threshold (Z.of_nat K))))).
      - apply in_or_app. right. left. reflexivity.
      - cbn [Runs.before]. rewrite Hcs. exact Hc. }
    assert (Hsize : (Z.of_nat (Embedder.get_speaker_count eK) <= INT_MAX)%Z).
    { unfold Embedder.get_speaker_count. rewrite Hcs, Hlen. exact Hint. }
    cbn [Runs.call_sequence Runs.after_calls]. rewrite map_app. cbn [map Runs.returned].
    pose proof (find_or_create_cases eK last threshold (Z.of_nat K) Hsize) as Hcases.
    cbv zeta in Hcases. rewrite Hcs in Hcases.
    destruct Hcases
      as [[j [[Hj _] [Habove _]]] | [[Hroom _] | [[_ [j [Hms [_ Hr]]]] | [_ [Hall Hr]]]]].
    + exfalso. specialize (Hlast (nth j firsts []) (nth_In firsts [] Hj)). lra.
    + lia.
    + exists j. rewrite Hr. cbn [fst snd].
      rewrite update_speaker_centroid_count, Hids, map_app.
      split; [reflexivity |]. split; [exact Hcs |]. split; [exact Hms |].
      unfold Embedder.get_speaker_count. rewrite Hcs. exact Hlen.
    + exists 0%nat. rewrite Hr. cbn [fst snd]. rewrite Hids, map_app.
      split; [reflexivity |]. split; [exact Hcs |]. split.
      * split; [lia |]. split.
        -- intros k Hk. rewrite (Hall k Hk), (Hall 0%nat) by lia. lra.
        -- intros k Hk. lia.
      * unfold Embedder.get_speaker_count. rewrite Hcs. exact Hlen.
Qed.

(** *** A run with two speakers allowed *)

Ltac eval_cosine :=
  unfold Embedder.cosine_similarity, speaker_a, speaker_b, speaker_c;
  cbn [length Nat.eqb negb orb Embedder.dot_product];
  unfold fmax, fmin; decide_reals; lra.

Lemma cosine_b_a : Embedder.cosine_similarity speaker_b speaker_a = 0.
Proof. eval_cosine. Qed.

Lemma cosine_c_a : Embedder.cosine_similarity speaker_c speaker_a = 0.6.
Proof. eval_cosine. Qed.

Lemma cosine_c_b : Embedder.cosine_similarity speaker_c speaker_b = 0.8.
Proof. eval_cosine. Qed.

Lemma first_call_creates :
  Embedder.find_or_create_speaker Embedder.new_embedder speaker_a 0.9 2 = (one_profile, 0%Z).
Proof.
  unfold Embedder.find_or_create_speaker.
  cbn [Embedder.new_embedder Embedder.speaker_centroids_ Embedder.best_match].
  rewrite andb_false_r. reflexivity.
Qed.

Lemma second_call_creates :
  Embedder.find_or_create_speaker one_profile speaker_b 0.9 2 = (two_profiles, 1%Z).
Proof.
  unfold Embedder.find_or_create_speaker.
  cbn [one_profile Embedder.set_speakers Embedder.speaker_centroids_ Embedder.best_match].
  rewrite cosine_b_a.
  destruct (Rgt_dec 0 (-1)); [| lra].
  replace (gtb 0 0.9) with false by (symmetry; apply gtb_false_iff; lra).
  reflexivity.
Qed.

Lemma third_call_is_forced :
  snd (Embedder.find_or_create_speaker two_profiles speaker_c 0.9 2) = 1%Z
  /\ Embedder.get_speaker_count
       (fst (Embedder.find_or_create_speaker two_profiles speaker_c 0.9 2)) = 2%nat.
Proof.
  unfold Embedder.find_or_create_speaker.
  cbn [two_profiles Embedder.set_speakers Embedder.speaker_centroids_ Embedder.best_match].
  rewrite cosine_c_a, cosine_c_b.
  destruct (Rgt_dec 0.6 (-1)); [| lra].
  destruct (Rgt_dec 0.8 0.6); [| lra].
  replace (gtb 0.8 0.9) with false by (symmetry; apply gtb_false_iff; lra).
  cbn [andb]. 
  replace (wrap_int (Z.of_nat (length [speaker_a; speaker_b])) <? 2)%Z with false
    by reflexivity.
  replace (0 <=? wrap_int (Z.of_nat 1))%Z with true by reflexivity.
  cbn [fst snd]. split; [reflexivity |].
  apply update_speaker_centroid_count.
Qed.

Lemma two_speaker_run_below_threshold call :
  In call (Runs.call_sequence Embedder.new_embedder
             (map (fun x => (x, 0.9)) ([speaker_a; speaker_b] ++ [speaker_c])) 2) ->
  forall centroid,
    In centroid (Embedder.speaker_centroids_ (Runs.before call)) ->
    Embedder.cosine_similarity (Runs.given call) centroid < 0.9.
Proof.
  cbn [app map Runs.call_sequence].
  rewrite first_call_creates. cbn [fst snd].
  rewrite second_call_creates. cbn [fst snd].
  intros [<- | [<- | [<- | []]]] centroid; cbn [Runs.before Runs.given].
  - intros [].
  - intros [<- | []]. rewrite cosine_b_a. lra.
  - intros [<- | [<- | []]]; [rewrite cosine_c_a | rewrite cosine_c_b]; lra.
Qed.

Lemma speaker_limit_forces_assignment_witness :
  exists best,
    map Runs.returned
        (Runs.call_sequence Embedder.new_embedder
           (map (fun x => (x, 0.9)) ([speaker_a; speaker_b] ++ [speaker_c])) (Z.of_nat 2))
    = map Z.of_nat (seq 0 2 ++ [best])
    /\ Embedder.speaker_centroids_
         (Runs.after_calls Embedder.new_embedder
            (map (fun x => (x, 0.9)) [speaker_a; speaker_b]) (Z.of_nat 2))
       = [speaker_a; speaker_b]
    /\ Runs.most_similar speaker_c [speaker_a; speaker_b] best
    /\ Embedder.get_speaker_count
         (Runs.after_calls Embedder.new_embedder
            (map (fun x => (x, 0.9)) ([speaker_a; speaker_b] ++ [speaker_c])) (Z.of_nat 2))
       = 2%nat.
Proof.
  apply (speaker_limit_forces_assignment 2 [speaker_a; speaker_b] speaker_c 0.9
                                         Embedder.new_embedder).
  - lia.
  - unfold INT_MAX. simpl. lia.
  - reflexivity.
  - reflexivity.
  - exact two_speaker_run_below_threshold.
Defined.

(** In that run the ids returned are 0, 1 and then 1: the third embedding
    goes to the profile of [speaker_b], the closer of the two. *)
Lemma two_speaker_run_ids :
  map Runs.returned
      (Runs.call_sequence Embedder.new_embedder
         (map (fun x => (x, 0.9)) [speaker_a; speaker_b; speaker_c]) 2)
  = [0; 1; 1]%Z.
Proof.
  cbn [map Runs.call_sequence].
  rewrite first_call_creates. cbn [fst snd].
  rewrite second_call_creates. cbn [fst snd Runs.returned].
  rewrite (proj1 third_call_is_forced). reflexivity.
Qed.

Lemma speaker_set_bounded_witness :
  (Z.of_nat (Embedder.get_speaker_count
               (Runs.after (Runs.mkCall one_profile speaker_b two_profiles 1)))
   <= Z.max 2 0)%Z
  /\ ((Embedder.get_speaker_count (Runs.after (Runs.mkCall one_profile speaker_b two_profiles 1))
       = Embedder.get_speaker_count
           (Runs.before (Runs.mkCall one_profile speaker_b two_profiles 1))
       /\ (0 <= Runs.returned (Runs.mkCall one_profile speaker_b two_profiles 1))%Z
       /\ ((Runs.returned (Runs.mkCall one_profile speaker_b two_profiles 1)
            < Z.of_nat (Embedder.get_speaker_count
                          (Runs.before (Runs.mkCall one_profile speaker_b two_profiles 1))))%Z
           \/ (Embedder.get_speaker_count
                 (Runs.before (Runs.mkCall one_profile speaker_b two_profiles 1)) = 0%nat
               /\ Runs.returned (Runs.mkCall one_profile speaker_b two_profiles 1) = 0%Z)))
      \/ (Embedder.speaker_centroids_
            (Runs.after (Runs.mkCall one_profile speaker_b two_profiles 1))
          = Embedder.speaker_centroids_
              (Runs.before (Runs.mkCall one_profile speaker_b two_profiles 1))
            ++ [Runs.given (Runs.mkCall one_profile speaker_b two_profiles 1)]
          /\ Runs.returned (Runs.mkCall one_profile speaker_b two_profiles 1)
             = Z.of_nat (Embedder.get_speaker_count
                           (Runs.before (Runs.mkCall one_profile speaker_b two_profiles 1)))))
  /\ Embedder.speaker_centroids_
       (Embedder.reset_speakers
          (Runs.after (Runs.mkCall one_profile speaker_b two_profiles 1))) = []
  /\ Embedder.speaker_counts_
       (Embedder.reset_speakers
          (Runs.after (Runs.mkCall one_profile speaker_b two_profiles 1))) = [].
Proof.
  apply (speaker_set_bounded Embedder.new_embedder
           (map (fun x => (x, 0.9)) [speaker_a; speaker_b; speaker_c]) 2).
  - reflexivity.
  - unfold INT_MAX. lia.
  - cbn [map Runs.call_sequence].
    rewrite first_call_creates. cbn [fst snd].
    rewrite second_call_creates. cbn [fst snd].
    right. left. reflexivity.
Defined.

(* ------------------------------------------------------------------ *)
(** ** The orchestrator: [assign_speakers] *)

Lemma fallback_speaker_positive (i : nat) (M : Z) :
  (0 < M <= INT_MAX)%Z ->
  Engine.fallback_speaker i M = Some (Z.of_nat i mod M)%Z.
Proof.
  intros HM. unfold Engine.fallback_speaker, INT_MAX in *.
  rewrite wrap_size_small by lia.
  replace (M =? 0)%Z with false by (symmetry; apply Z.eqb_neq; lia).
  f_equal. apply wrap_int_small.
  pose proof (Z.mod_pos_bound (Z.of_nat i) M). unfold INT_MAX. lia.
Qed.

(** With a positive limit the loop always returns, with one labelled
    segment per segment given. *)
Lemma assign_loop_returns throws threshold options :
  (0 < Engine.max_speakers options <= INT_MAX)%Z ->
  forall segments e i,
  exists e' labelled,
    Engine.assign_loop throws e threshold options i segments = Some (e', labelled)
    /\ length labelled = length segments.
Proof.
  intros HM. induction segments as [| segment rest IH]; intros e i.
  - exists e, []. split; reflexivity.
  - cbn [Engine.assign_loop]. destruct (throws i).
    + rewrite fallback_speaker_positive by exact HM.
      destruct (IH e (S i)) as [e' [labelled [Hrest Hlen]]]. rewrite Hrest.
      eexists _, _. split; [reflexivity |]. simpl. rewrite Hlen. reflexivity.
    + destruct (Embedder.find_or_create_speaker e _ threshold _) as [e1 id].
      destruct (IH e1 (S i)) as [e' [labelled [Hrest Hlen]]]. rewrite Hrest.
      eexists _, _. split; [reflexivity |]. simpl. rewrite Hlen. reflexivity.
Qed.

(** With a positive limit, a segment whose [try] block throws gets
    [i mod max_speakers] and 0.5; the segments before it are labelled as
    without it, and those after it are labelled from the speaker set the
    segments before it left. *)
Lemma assign_loop_recovers throws threshold options segment :
  (0 < Engine.max_speakers options <= INT_MAX)%Z ->
  forall earlier later e i,
    throws (i + length earlier)%nat = true ->
    exists e1 labelled1 e2 labelled2,
      Engine.assign_loop throws e threshold options i earlier = Some (e1, labelled1)
      /\ Engine.assign_loop throws e1 threshold options (S (i + length earlier)) later
         = Some (e2, labelled2)
      /\ Engine.assign_loop throws e threshold options i (earlier ++ segment :: later)
         = Some (e2,
                 labelled1
                 ++ Engine.mkSegment (Engine.samples segment) (Engine.start_time segment)
                      (Engine.end_time segment)
                      (Some (Z.of_nat (i + length earlier) mod Engine.max_speakers options)%Z)
                      (Some 0.5)
                 :: labelled2).
Proof.
  intros HM. induction earlier as [| s rest IH]; intros later e i Hthrows.
  - cbn [length app] in *. rewrite Nat.add_0_r in *.
    destruct (assign_loop_returns throws threshold options HM later e (S i))
      as [e2 [labelled2 [Hlater _]]].
    exists e, [], e2, labelled2. split; [reflexivity |]. split; [exact Hlater |].
    cbn [Engine.assign_loop]. rewrite Hthrows.
    rewrite fallback_speaker_positive by exact HM. rewrite Hlater. reflexivity.
  - cbn [length app Engine.assign_loop] in *.
    replace (i + S (length rest))%nat with (S i + length rest)%nat in * by lia.
    destruct (throws i).
    + rewrite fallback_speaker_positive by exact HM.
      destruct (IH later e (S i) Hthrows) as [e1 [l1 [e2 [l2 [H1 [H2 H3]]]]]].
      rewrite H1, H3. eexists _, _, _, _.
      split; [reflexivity |]. split; [exact H2 | reflexivity].
    + destruct (Embedder.find_or_create_speaker e _ threshold _) as [e0 id].
      destruct (IH later e0 (S i) Hthrows) as [e1 [l1 [e2 [l2 [H1 [H2 H3]]]]]].
      rewrite H1, H3. eexists _, _, _, _.
      split; [reflexivity |]. split; [exact H2 | reflexivity].
Qed.

(** C6 fails on the code for [max_speakers = 0]: the handler of the
    segment whose [try] block throws computes [i % 0], which is undefined;
    the run does not go on to the next segment. *)
Theorem assign_speakers_zero_limit :
  Engine.assign_speakers (fun _ => true) ready_embedder [raw_segment; raw_segment]
                         (Engine.mkOptions 0 0.01 16000)
  = None.
Proof. reflexivity. Qed.

(** The same run with the limit of a default run is recovered: both
    segments get the fallback label. *)
Lemma assign_speakers_default_limit :
  Engine.assign_speakers (fun _ => true) ready_embedder [raw_segment; raw_segment]
                         default_options
  = Some (ready_embedder,
          [Engine.mkSegment one_second 0 1 (Some 0%Z) (Some 0.5);
           Engine.mkSegment one_second 0 1 (Some 1%Z) (Some 0.5)]).
Proof. reflexivity. Qed.

(* ------------------------------------------------------------------ *)
(** ** Per-frame scoring: [process_window] against the rule *)

Lemma sum_cons (x : R) (l : list R) : sum (x :: l) = x + sum l.
Proof.
  unfold sum. simpl. rewrite Rplus_0_l.
  assert (H : forall l a b, fold_left Rplus l (a + b) = a + fold_left Rplus l b).
  { clear. induction l as [| y r IH]; intros a b; simpl; [reflexivity |].
    rewrite Rplus_assoc. apply IH. }
  rewrite <- (Rplus_0_r x) at 1. apply H.
Qed.

Lemma fold_left_sum_map {A : Type} (f : A -> R) (l : list A) (a : R) :
  fold_left (fun acc c => acc + f c) l a = a + sum (map f l).
Proof.
  revert a. induction l as [| x r IH]; intros a; simpl.
  - unfold sum. simpl. ring.
  - rewrite IH, sum_cons. ring.
Qed.

Lemma fold_left_guarded {A : Type} (f : A -> R) (l : list A) (a : R) :
  fold_left (fun acc c => if Rgt_dec (f c) 1e-6 then acc - f c * ln (f c) else acc) l a
  = a - sum (map (fun q => q * ln q) (filter (fun q => gtb q 1e-6) (map f l))).
Proof.
  revert a. induction l as [| x r IH]; intros a; simpl.
  - unfold sum. simpl. ring.
  - rewrite IH. unfold gtb at 2. destruct (Rgt_dec (f x) 1e-6); simpl.
    + rewrite sum_cons. ring.
    + reflexivity.
Qed.

Lemma maximum_eq (scores : list R) (m : R) :
  In m scores -> (forall x, In x scores -> x <= m) -> Spec.maximum scores = m.
Proof.
  intros Hin Hmax. unfold Spec.maximum.
  assert (Hhd : In (hd 0 scores) scores) by (destruct scores; [destruct Hin | left; reflexivity]).
  assert (Hle : forall l a, (forall x, In x l -> x <= m) -> a <= m -> fold_right Rmax a l <= m).
  { clear. induction l as [| y r IH]; intros a Hl Ha; simpl; [exact Ha |].
    apply Rmax_lub; [apply Hl; left; reflexivity |].
    apply IH; [intros x Hx; apply Hl; right; exact Hx | exact Ha]. }
  assert (Hge : forall l a, In m l -> m <= fold_right Rmax a l).
  { clear. induction l as [| y r IH]; intros a Hl; simpl; [destruct Hl |].
    destruct Hl as [-> | Hl]; [apply Rmax_l |].
    eapply Rle_trans; [apply IH; exact Hl | apply Rmax_r]. }
  apply Rle_antisym; [apply Hle; auto | apply Hge; auto].
Qed.

Lemma first_index_of_eq (scores : list R) (m : R) (d : nat) :
  (d < length scores)%nat -> nth d scores 0 = m ->
  (forall c, (c < d)%nat -> nth c scores 0 < m) ->
  Spec.first_index_of m scores = d.
Proof.
  revert d. induction scores as [| x r IH]; intros d Hd Hm Hfirst; simpl in *; [lia |].
  destruct (Req_dec_T x m) as [Heq | Hne].
  - destruct d as [| d]; [reflexivity |].
    specialize (Hfirst 0%nat ltac:(lia)). simpl in Hfirst. lra.
  - destruct d as [| d]; [contradiction |].
    f_equal. apply IH; [lia | exact Hm |].
    intros c Hc. apply (Hfirst (S c)). lia.
Qed.

(** The class-score vector of time step [t]. *)
Lemma nth_frames_of (o : Segmenter.ModelOutput) (t : nat) :
  (t < Segmenter.time_steps o)%nat ->
  nth t (Spec.frames_of o) [] =
    map (Segmenter.logit o t) (seq 0 (Segmenter.num_classes o)).
Proof.
  intros Ht. unfold Spec.frames_of.
  rewrite nth_indep with (d' := map (Segmenter.logit o 0) (seq 0 (Segmenter.num_classes o)))
    by (rewrite length_map, length_seq; exact Ht).
  rewrite (map_nth (fun t => map (Segmenter.logit o t) (seq 0 (Segmenter.num_classes o)))).
  rewrite seq_nth by exact Ht. reflexivity.
Qed.

Lemma nth_row (o : Segmenter.ModelOutput) (t c : nat) :
  (c < Segmenter.num_classes o)%nat ->
  nth c (map (Segmenter.logit o t) (seq 0 (Segmenter.num_classes o))) 0
  = Segmenter.logit o t c.
Proof.
  intros Hc.
  rewrite nth_indep with (d' := Segmenter.logit o t 0)
    by (rewrite length_map, length_seq; exact Hc).
  rewrite map_nth, seq_nth by exact Hc. reflexivity.
Qed.

(** The scan keeps the first class of largest logit among those visited. *)
Lemma dominant_scan_inv (o : Segmenter.ModelOutput) (t : nat) :
  (Z.of_nat (Segmenter.num_classes o) <= INT_MAX)%Z ->
  forall m k d,
    (d < k)%nat -> (k + m = Segmenter.num_classes o)%nat ->
    (forall c, (c < k)%nat -> Segmenter.logit o t c <= Segmenter.logit o t d) ->
    (forall c, (c < d)%nat -> Segmenter.logit o t c < Segmenter.logit o t d) ->
    exists d',
      Segmenter.dominant_scan o t (seq k m) (Z.of_nat d) (Segmenter.logit o t d)
      = (Z.of_nat d', Segmenter.logit o t d')
      /\ (d' < Segmenter.num_classes o)%nat
      /\ (forall c, (c < Segmenter.num_classes o)%nat ->
                    Segmenter.logit o t c <= Segmenter.logit o t d')
      /\ (forall c, (c < d')%nat -> Segmenter.logit o t c < Segmenter.logit o t d').
Proof.
  intros Hint. induction m as [| m IH]; intros k d Hd Hk Hmax Hfirst.
  - exists d. rewrite Nat.add_0_r in Hk. subst k. simpl. auto.
  - cbn [seq Segmenter.dominant_scan].
    destruct (Rgt_dec (Segmenter.logit o t k) (Segmenter.logit o t d)) as [Hgt | Hle].
    + rewrite wrap_int_small by (unfold INT_MAX in *; lia).
      apply IH; try lia.
      * intros c Hc. destruct (Nat.eq_dec c k) as [-> | Hne]; [lra |].
        specialize (Hmax c ltac:(lia)). lra.
      * intros c Hc. specialize (Hmax c Hc). lra.
    + apply IH; try lia; auto.
      intros c Hc. destruct (Nat.eq_dec c k) as [-> | Hne]; [lra |].
      apply Hmax. lia.
Qed.

Lemma dominant_spec (o : Segmenter.ModelOutput) (t : nat) :
  (1 <= Segmenter.num_classes o)%nat ->
  (Z.of_nat (Segmenter.num_classes o) <= INT_MAX)%Z ->
  let row := map (Segmenter.logit o t) (seq 0 (Segmenter.num_classes o)) in
  Segmenter.dominant o t = (Z.of_nat (Spec.dominant_class row), Spec.maximum row).
Proof.
  intros Hone Hint row. unfold Segmenter.dominant.
  destruct (dominant_scan_inv o t Hint (Segmenter.num_classes o - 1) 1 0)
    as [d [Hscan [Hd [Hmax Hfirst]]]]; try lia.
  - intros c Hc. replace c with 0%nat by lia. lra.
  - cbn [Z.of_nat] in Hscan. rewrite Hscan.
    assert (Hm : Spec.maximum row = Segmenter.logit o t d).
    { apply maximum_eq.
      - unfold row. apply in_map. apply in_seq. lia.
      - intros x Hx. unfold row in Hx. apply in_map_iff in Hx.
        destruct Hx as [c [<- Hc]]. apply in_seq in Hc. apply Hmax. lia. }
    rewrite Hm. f_equal. f_equal. symmetry.
    unfold Spec.dominant_class. rewrite Hm.
    apply first_index_of_eq.
    + unfold row. rewrite length_map, length_seq. exact Hd.
    + unfold row. apply nth_row. exact Hd.
    + intros c Hc. unfold row. rewrite nth_row by lia. apply Hfirst. exact Hc.
Qed.

Lemma entropy_spec (o : Segmenter.ModelOutput) (t : nat) :
  let row := map (Segmenter.logit o t) (seq 0 (Segmenter.num_classes o)) in
  Segmenter.entropy o t (Spec.maximum row) = Spec.guarded_entropy (Spec.softmax row).
Proof.
  intros row. unfold Segmenter.entropy, Spec.guarded_entropy, Spec.softmax.
  cbv zeta.
  rewrite (fold_left_guarded
             (fun c => exp (Segmenter.logit o t c - Spec.maximum row)
                       / Segmenter.sum_exp o t (Spec.maximum row))).
  unfold Segmenter.sum_exp. rewrite fold_left_sum_map. rewrite Rplus_0_l.
  subst row. rewrite !map_map. apply Rminus_0_l.
Qed.

Lemma doubled_and_clipped (x : R) : fmin 1 (fmin 1 x * 2) = Rmin 1 (2 * x).
Proof.
  unfold fmin, Rmin. decide_reals; destruct (Rle_dec 1 (2 * x)); lra.
Qed.

(** One step of the loop over time steps, in terms of the rule. *)
Lemma frame_step_spec (o : Segmenter.ModelOutput) (t : nat) (prev : Z) :
  (1 <= Segmenter.num_classes o)%nat ->
  (Z.of_nat (Segmenter.num_classes o) <= INT_MAX)%Z ->
  let row := map (Segmenter.logit o t) (seq 0 (Segmenter.num_classes o)) in
  Segmenter.frame_step o t prev =
    (if (prev =? -1)%Z then 0
     else if (prev =? Z.of_nat (Spec.dominant_class row))%Z then 0
          else Rmin 1 (2 * (Spec.guarded_entropy (Spec.softmax row) / ln (INR (length row)))),
     Z.of_nat (Spec.dominant_class row)).
Proof.
  intros Hone Hint row. unfold Segmenter.frame_step.
  rewrite (dominant_spec o t Hone Hint). fold row.
  f_equal.
  destruct (prev =? -1)%Z; cbn [negb andb]; [reflexivity |].
  destruct (Z.eqb_spec prev (Z.of_nat (Spec.dominant_class row))) as [Heq | Hne];
    cbn [negb]; [reflexivity |].
  replace (Z.of_nat (Spec.dominant_class row) =? prev)%Z with false
    by (symmetry; apply Z.eqb_neq; congruence).
  cbn [negb]. rewrite doubled_and_clipped.
  pose proof (entropy_spec o t) as He. cbv zeta in He. fold row in He. rewrite He.
  replace (length row) with (Segmenter.num_classes o)
    by (unfold row; rewrite length_map, length_seq; reflexivity).
  reflexivity.
Qed.

Lemma frame_loop_spec (o : Segmenter.ModelOutput) :
  (1 <= Segmenter.num_classes o)%nat ->
  (Z.of_nat (Segmenter.num_classes o) <= INT_MAX)%Z ->
  forall m k prev,
    (k + m <= Segmenter.time_steps o)%nat ->
    prev = (if (k =? 0)%nat then (-1)%Z
            else Z.of_nat (Spec.dominant_class (nth (k - 1) (Spec.frames_of o) []))) ->
    Segmenter.frame_loop o (seq k m) prev
    = map (Spec.window_change_score (Spec.frames_of o)) (seq k m).
Proof.
  intros Hone Hint. induction m as [| m IH]; intros k prev Hk Hprev; [reflexivity |].
  cbn [seq Segmenter.frame_loop map].
  rewrite (frame_step_spec o k prev Hone Hint). cbv zeta.
  rewrite <- (nth_frames_of o k) by lia.
  f_equal.
  - unfold Spec.window_change_score. subst prev.
    destruct (Nat.eqb_spec k 0) as [-> | Hk0]; [reflexivity |].
    replace (Z.of_nat _ =? -1)%Z with false by (symmetry; apply Z.eqb_neq; lia).
    destruct (Nat.eqb_spec (Spec.dominant_class (nth k (Spec.frames_of o) []))
                           (Spec.dominant_class (nth (k - 1) (Spec.frames_of o) [])))
      as [Heq | Hne].
    + rewrite Heq, Z.eqb_refl. reflexivity.
    + replace (Z.of_nat _ =? Z.of_nat _)%Z with false
        by (symmetry; apply Z.eqb_neq; lia).
      reflexivity.
  - apply IH; [lia |].
    replace (S k =? 0)%nat with false by reflexivity.
    replace (S k - 1)%nat with k by lia. reflexivity.
Qed.

(** The change probabilities the scan hands to the global analysis are
    those of the windows, one window after the other. *)
Lemma all_probabilities_concat (s : Segmenter.SpeakerSegmenter) (audio : list R) :
  Segmenter.all_probabilities s audio =
    flat_map (fun i => Segmenter.process_window s
                         (firstn (Segmenter.window_size_ s) (skipn i audio)))
             (Segmenter.window_offsets (length audio) 0 (Segmenter.window_size_ s)
                                       (Segmenter.hop_size_ s) (length audio)).
Proof.
  unfold Segmenter.all_probabilities, Segmenter.all_frames.
  induction (Segmenter.window_offsets _ _ _ _ _) as [| i rest IH]; [reflexivity |].
  cbn [flat_map]. rewrite map_app, IH. f_equal.
  unfold Segmenter.window_frames. rewrite map_map. cbn [fst].
  set (p := Segmenter.process_window s _).
  clearbody p. clear.
  apply nth_ext with (d := 0) (d' := 0).
  - rewrite length_map, length_seq. reflexivity.
  - intros n Hn. rewrite length_map, length_seq in Hn.
    rewrite nth_indep with (d' := nth 0 p 0) by (rewrite length_map, length_seq; exact Hn).
    rewrite (map_nth (fun j => nth j p 0)), seq_nth by exact Hn. reflexivity.
Qed.

Lemma change_probabilities_nth (o : Segmenter.ModelOutput) (t : nat) :
  (1 <= Segmenter.num_classes o)%nat ->
  (Z.of_nat (Segmenter.num_classes o) <= INT_MAX)%Z ->
  (t < Segmenter.time_steps o)%nat ->
  nth t (Segmenter.change_probabilities o) 0
  = Spec.window_change_score (Spec.frames_of o) t.
Proof.
  intros Hone Hint Ht. unfold Segmenter.change_probabilities.
  rewrite (frame_loop_spec o Hone Hint (Segmenter.time_steps o) 0 (-1)%Z)
    by (lia || reflexivity).
  rewrite nth_indep with (d' := Spec.window_change_score (Spec.frames_of o) 0)
    by (rewrite length_map, length_seq; exact Ht).
  rewrite map_nth, seq_nth by exact Ht. reflexivity.
Qed.

(** C2, amended: the change probabilities of the buffer are those of its
    windows, one window after the other, and within the output of one
    window the change score of a frame is 0 when the frame is the first of
    the window or has the dominant class (first class of largest score) of
    the frame before it; otherwise it is [min(1, 2 x normalized_entropy)],
    where the entropy is that of the softmax of the frame's scores (the
    largest score subtracted before exponentiating), summed over the
    classes of probability above [1e-6] only, and divided by
    [log(num_classes)]. *)
Theorem change_probabilities_rule
        (s : Segmenter.SpeakerSegmenter) (audio : list R)
        (o : Segmenter.ModelOutput) (t : nat) :
  (1 <= Segmenter.num_classes o)%nat ->
  (Z.of_nat (Segmenter.num_classes o) <= INT_MAX)%Z ->
  (t < Segmenter.time_steps o)%nat ->
  nth t (Segmenter.change_probabilities o) 0
  = Spec.window_change_score (Spec.frames_of o) t
  /\ Segmenter.all_probabilities s audio =
     flat_map (fun i => Segmenter.process_window s
                          (firstn (Segmenter.window_size_ s) (skipn i audio)))
              (Segmenter.window_offsets (length audio) 0 (Segmenter.window_size_ s)
                                        (Segmenter.hop_size_ s) (length audio))
  /\ (forall run window,
         Segmenter.session_ s = Some run ->
         run (Segmenter.normalize_audio
                (Segmenter.fit_window (Segmenter.window_size_ s) window)) = Some o ->
         Segmenter.process_window s window = Segmenter.change_probabilities o).
Proof.
  intros Hone Hint Ht. split; [| split].
  - apply change_probabilities_nth; assumption.
  - apply all_probabilities_concat.
  - intros run window Hs Hrun. unfold Segmenter.process_window.
    rewrite Hs, Hrun. reflexivity.
Qed.

(** *** Two windows of the same two frames *)

Lemma two_windows_offsets :
  Segmenter.window_offsets (length two_windows) 0 Segmenter.WINDOW_SIZE
                           Segmenter.HOP_SIZE (length two_windows)
  = [0%nat; Segmenter.HOP_SIZE].
Proof.
  unfold two_windows. rewrite repeat_length.
  assert (Hfuel : Z.to_nat 76801 = S (S (S (Z.to_nat 76798)))) by lia.
  rewrite Hfuel at 1. cbn [Segmenter.window_offsets].
  replace (0 + Segmenter.WINDOW_SIZE <? Z.to_nat 76801)%nat with true
    by (symmetry; apply Nat.ltb_lt; unfold Segmenter.WINDOW_SIZE; lia).
  replace (0 + Segmenter.HOP_SIZE + Segmenter.WINDOW_SIZE <? Z.to_nat 76801)%nat with true
    by (symmetry; apply Nat.ltb_lt; unfold Segmenter.WINDOW_SIZE, Segmenter.HOP_SIZE; lia).
  replace (0 + Segmenter.HOP_SIZE + Segmenter.HOP_SIZE + Segmenter.WINDOW_SIZE
           <? Z.to_nat 76801)%nat with false
    by (symmetry; apply Nat.ltb_ge; unfold Segmenter.WINDOW_SIZE, Segmenter.HOP_SIZE; lia).
  reflexivity.
Qed.

Lemma frame_loop_length (o : Segmenter.ModelOutput) (ts : list nat) (prev : Z) :
  length (Segmenter.frame_loop o ts prev) = length ts.
Proof.
  revert prev. induction ts as [| t ts IH]; intros prev; simpl; [reflexivity |].
  destruct (Segmenter.frame_step o t prev) as [p d]. simpl. rewrite IH. reflexivity.
Qed.

Lemma two_frames_first_score :
  exists v, Segmenter.change_probabilities two_frames = [0; v].
Proof.
  unfold Segmenter.change_probabilities.
  cbn [two_frames Segmenter.time_steps seq Segmenter.frame_loop].
  unfold Segmenter.frame_step at 1.
  destruct (Segmenter.dominant _ 0) as [d mx]. cbn [Z.eqb negb andb].
  destruct (Segmenter.frame_step _ 1 d) as [v d']. exists v. reflexivity.
Qed.

Lemma two_windows_probabilities :
  exists v, Segmenter.all_probabilities ready_segmenter two_windows = [0; v; 0; v].
Proof.
  destruct two_frames_first_score as [v Hv]. exists v.
  rewrite all_probabilities_concat.
  change (Segmenter.window_size_ ready_segmenter) with Segmenter.WINDOW_SIZE.
  change (Segmenter.hop_size_ ready_segmenter) with Segmenter.HOP_SIZE.
  rewrite two_windows_offsets. cbn [flat_map].
  change (Segmenter.process_window ready_segmenter
            (firstn Segmenter.WINDOW_SIZE (skipn 0 two_windows)))
    with (Segmenter.change_probabilities two_frames).
  change (Segmenter.process_window ready_segmenter
            (firstn Segmenter.WINDOW_SIZE (skipn Segmenter.HOP_SIZE two_windows)))
    with (Segmenter.change_probabilities two_frames).
  rewrite Hv. reflexivity.
Qed.

Lemma two_windows_stream :
  Spec.class_score_stream ready_segmenter two_windows = [[0; 0]; [0; 1]; [0; 0]; [0; 1]].
Proof.
  unfold Spec.class_score_stream.
  change (Segmenter.window_size_ ready_segmenter) with Segmenter.WINDOW_SIZE.
  change (Segmenter.hop_size_ ready_segmenter) with Segmenter.HOP_SIZE.
  rewrite two_windows_offsets. reflexivity.
Qed.

Lemma ln_2_pos : 0 < ln 2.
Proof. rewrite <- ln_1. apply ln_increasing; lra. Qed.

Lemma maximum_0_0 : Spec.maximum [0; 0] = 0.
Proof. apply maximum_eq; [left; reflexivity | intros x [<- | [<- | []]]; lra]. Qed.

Lemma maximum_0_1 : Spec.maximum [0; 1] = 1.
Proof. apply maximum_eq; [right; left; reflexivity | intros x [<- | [<- | []]]; lra]. Qed.

Lemma dominant_class_0_0 : Spec.dominant_class [0; 0] = 0%nat.
Proof.
  unfold Spec.dominant_class. rewrite maximum_0_0.
  apply first_index_of_eq; simpl; [lia | reflexivity | intros; lia].
Qed.

Lemma dominant_class_0_1 : Spec.dominant_class [0; 1] = 1%nat.
Proof.
  unfold Spec.dominant_class. rewrite maximum_0_1.
  apply first_index_of_eq; simpl; [lia | reflexivity |].
  intros c Hc. replace c with 0%nat by lia. lra.
Qed.

Lemma sum_nil : sum [] = 0.
Proof. reflexivity. Qed.

Lemma normalized_entropy_0_0 : Spec.normalized_entropy [0; 0] = 1.
Proof.
  unfold Spec.normalized_entropy, Spec.shannon_entropy, Spec.softmax.
  rewrite maximum_0_0. cbn [map length].
  replace (0 - 0) with 0 by ring. rewrite exp_0.
  rewrite !sum_cons, !sum_nil.
  replace (1 / (1 + (1 + 0))) with (/ 2) by field.
  rewrite ln_Rinv by lra.
  replace (INR 2) with 2 by (simpl; ring).
  pose proof ln_2_pos. field. lra.
Qed.

(** C2, as stated, fails: the previous dominant class is forgotten at
    every window.  With two windows of the frames (0, 0) and (0, 1), the
    third frame of the stream is (0, 0) after (0, 1): its dominant class
    changes from 1 to 0 and its normalized entropy is 1, so the rule gives
    [min(1, 2) = 1]; but it is the first frame of the second window, and
    its change probability is 0. *)
Lemma change_score_restarts_in_each_window :
  Spec.class_score_stream ready_segmenter two_windows = [[0; 0]; [0; 1]; [0; 0]; [0; 1]]
  /\ nth 2 (Segmenter.all_probabilities ready_segmenter two_windows) 0 = 0
  /\ Spec.change_score (Spec.class_score_stream ready_segmenter two_windows) 2 = 1
  /\ nth 2 (Segmenter.all_probabilities ready_segmenter two_windows) 0
     <> Spec.change_score (Spec.class_score_stream ready_segmenter two_windows) 2.
Proof.
  assert (Hcode : nth 2 (Segmenter.all_probabilities ready_segmenter two_windows) 0 = 0).
  { destruct two_windows_probabilities as [v ->]. reflexivity. }
  assert (Hspec : Spec.change_score
                    (Spec.class_score_stream ready_segmenter two_windows) 2 = 1).
  { rewrite two_windows_stream. unfold Spec.change_score.
    cbn [Nat.eqb Nat.sub nth].
    rewrite dominant_class_0_0, dominant_class_0_1. cbn [Nat.eqb].
    rewrite normalized_entropy_0_0. rewrite Rmin_left by lra. reflexivity. }
  split; [exact two_windows_stream |]. split; [exact Hcode |]. split; [exact Hspec |].
  rewrite Hcode, Hspec. lra.
Qed.

Lemma change_probabilities_rule_witness :
  nth 1 (Segmenter.change_probabilities two_frames) 0
  = Spec.window_change_score (Spec.frames_of two_frames) 1
  /\ Segmenter.all_probabilities ready_segmenter two_windows =
     flat_map (fun i => Segmenter.process_window ready_segmenter
                          (firstn (Segmenter.window_size_ ready_segmenter)
                                  (skipn i two_windows)))
              (Segmenter.window_offsets (length two_windows) 0
                 (Segmenter.window_size_ ready_segmenter)
                 (Segmenter.hop_size_ ready_segmenter) (length two_windows))
  /\ (forall run window,
         Segmenter.session_ ready_segmenter = Some run ->
         run (Segmenter.normalize_audio
                (Segmenter.fit_window (Segmenter.window_size_ ready_segmenter) window))
         = Some two_frames ->
         Segmenter.process_window ready_segmenter window
         = Segmenter.change_probabilities two_frames).
Proof.
  apply (change_probabilities_rule ready_segmenter two_windows two_frames 1).
  - simpl. lia.
  - unfold INT_MAX. simpl. lia.
  - simpl. lia.
Defined.

(** *** A frame with a negligible class *)

Lemma exp_40_large : 1000000 < exp 40.
Proof.
  assert (H5 : 6 < exp 5) by (pose proof (exp_ineq1 5); lra).
  assert (H10 : exp 10 = exp 5 * exp 5) by (rewrite <- exp_plus; f_equal; lra).
  assert (H20 : exp 20 = exp 10 * exp 10) by (rewrite <- exp_plus; f_equal; lra).
  assert (H40 : exp 40 = exp 20 * exp 20) by (rewrite <- exp_plus; f_equal; lra).
  assert (G10 : 36 < exp 10) by nra.
  assert (G20 : 1296 < exp 20) by nra.
  nra.
Qed.

Lemma exp_minus_40_small : 0 < exp (- 40) < 1e-6.
Proof.
  split; [apply exp_pos |].
  replace (exp (- 40)) with (/ exp 40) by (rewrite <- exp_Ropp; f_equal; lra).
  pose proof exp_40_large as H.
  replace 1e-6 with (/ 1000000) by lra.
  apply Rinv_lt_contravar; nra.
Qed.

Lemma ln_1_plus (a : R) : 0 < a -> 0 < ln (1 + a) < a.
Proof.
  intros Ha. split.
  - rewrite <- ln_1. apply ln_increasing; lra.
  - rewrite <- (ln_exp a) at 2. apply ln_increasing; [lra |].
    apply exp_ineq1. lra.
Qed.

Lemma maximum_0_40 : Spec.maximum [0; 40] = 40.
Proof. apply maximum_eq; [right; left; reflexivity | intros x [<- | [<- | []]]; lra]. Qed.

Lemma maximum_1_0 : Spec.maximum [1; 0] = 1.
Proof. apply maximum_eq; [left; reflexivity | intros x [<- | [<- | []]]; lra]. Qed.

Lemma dominant_class_0_40 : Spec.dominant_class [0; 40] = 1%nat.
Proof.
  unfold Spec.dominant_class. rewrite maximum_0_40.
  apply first_index_of_eq; simpl; [lia | reflexivity |].
  intros c Hc. replace c with 0%nat by lia. lra.
Qed.

Lemma dominant_class_1_0 : Spec.dominant_class [1; 0] = 0%nat.
Proof.
  unfold Spec.dominant_class. rewrite maximum_1_0.
  apply first_index_of_eq; simpl; [lia | reflexivity | intros; lia].
Qed.

Lemma softmax_0_40 :
  Spec.softmax [0; 40] = [exp (- 40) / (exp (- 40) + 1); 1 / (exp (- 40) + 1)].
Proof.
  unfold Spec.softmax. rewrite maximum_0_40. cbn [map].
  replace (0 - 40) with (- 40) by ring. replace (40 - 40) with 0 by ring.
  rewrite exp_0, !sum_cons, sum_nil, Rplus_0_r. reflexivity.
Qed.

(** The entropy guard is visible in the score: for the scores (0, 40)
    after (1, 0) the class of probability below [1e-6] is left out of the
    entropy, and the change probability is strictly below the
    [min(1, 2 x normalized_entropy)] of the full Shannon entropy. *)
Lemma entropy_guard_drops_small_classes :
  Spec.frames_of sharp_frames = [[1; 0]; [0; 40]]
  /\ nth 1 (Segmenter.change_probabilities sharp_frames) 0
     < Spec.change_score (Spec.frames_of sharp_frames) 1.
Proof.
  split; [reflexivity |].
  rewrite change_probabilities_nth by (simpl; unfold INT_MAX; lia).
  change (Spec.frames_of sharp_frames) with [[1; 0]; [0; 40]].
  unfold Spec.window_change_score, Spec.change_score, Spec.normalized_entropy.
  cbn [Nat.eqb Nat.sub nth length].
  rewrite dominant_class_0_40, dominant_class_1_0. cbn [Nat.eqb].
  rewrite softmax_0_40.
  replace (INR 2) with 2 by (simpl; ring).
  pose proof exp_minus_40_small as [Ha0 Ha1].
  set (a := exp (- 40)) in *.
  assert (Hq : 0 < / (a + 1) < 1).
  { split; [apply Rinv_0_lt_compat; lra |].
    rewrite <- Rinv_1 at 2. apply Rinv_lt_contravar; lra. }
  assert (Hq1 : / (a + 1) * (a + 1) = 1) by (apply Rinv_l; lra).
  assert (Hp0 : 0 < a / (a + 1) < 1e-6) by (unfold Rdiv; nra).
  assert (Hp1 : 1e-6 < 1 / (a + 1) < 1) by (unfold Rdiv; nra).
  unfold Spec.guarded_entropy, Spec.shannon_entropy. cbn [filter map].
  replace (gtb (a / (a + 1)) 1e-6) with false by (symmetry; apply gtb_false_iff; lra).
  replace (gtb (1 / (a + 1)) 1e-6) with true by (symmetry; apply gtb_true_iff; lra).
  cbn [map]. rewrite !sum_cons, sum_nil, !Rplus_0_r.
  assert (Hl0 : ln (a / (a + 1)) < 0).
  { rewrite <- ln_1. apply ln_increasing; lra. }
  assert (Hl1 : ln (1 / (a + 1)) = - ln (1 + a)).
  { unfold Rdiv. rewrite Rmult_1_l, ln_Rinv by lra. f_equal. f_equal. ring. }
  pose proof (ln_1_plus a Ha0) as [Hla0 Hla1].
  pose proof ln_lt_2 as Hln2.
  rewrite Hl1.
  set (g := - (1 / (a + 1) * - ln (1 + a))).
  set (h := - (a / (a + 1) * ln (a / (a + 1)) + 1 / (a + 1) * - ln (1 + a))).
  assert (Hg : 0 < g < 1e-6) by (unfold g; nra).
  assert (Hgh : g < h) by (unfold g, h; nra).
  assert (Hcode : 2 * (g / ln 2) < 1).
  { apply Rmult_lt_reg_r with (ln 2); [lra |].
    replace (2 * (g / ln 2) * ln 2) with (2 * g) by (field; lra). lra. }
  assert (Hlt : 2 * (g / ln 2) < 2 * (h / ln 2)).
  { apply Rmult_lt_compat_l; [lra |].
    unfold Rdiv. apply Rmult_lt_compat_r; [apply Rinv_0_lt_compat; lra | exact Hgh]. }
  rewrite (Rmin_right 1 (2 * (g / ln 2))) by lra.
  unfold Rmin. destruct (Rle_dec 1 (2 * (h / ln 2))); lra.
Qed.

(* ------------------------------------------------------------------ *)
(** ** The loops end before their fuel does *)

(** With a positive hop the window scan needs at most [size] steps: more
    fuel gives the same offsets. *)
Lemma window_offsets_fuel (window_size hop_size size : nat) :
  (0 < hop_size)%nat ->
  forall fuel fuel' i,
    (size <= i + fuel * hop_size)%nat -> (size <= i + fuel' * hop_size)%nat ->
    Segmenter.window_offsets fuel i window_size hop_size size
    = Segmenter.window_offsets fuel' i window_size hop_size size.
Proof.
  intros Hhop. induction fuel as [| fuel IH]; intros fuel' i Hf Hf'.
  - destruct fuel' as [| fuel']; [reflexivity |]. cbn [Segmenter.window_offsets].
    replace (i + window_size <? size)%nat with false
      by (symmetry; apply Nat.ltb_ge; lia).
    reflexivity.
  - destruct fuel' as [| fuel']; cbn [Segmenter.window_offsets].
    + replace (i + window_size <? size)%nat with false
        by (symmetry; apply Nat.ltb_ge; lia).
      reflexivity.
    + destruct (i + window_size <? size)%nat; [| reflexivity].
      f_equal. apply IH; lia.
Qed.

Lemma window_offsets_enough (window_size hop_size size extra : nat) :
  (0 < hop_size)%nat ->
  Segmenter.window_offsets (size + extra) 0 window_size hop_size size
  = Segmenter.window_offsets size 0 window_size hop_size size.
Proof.
  intros Hhop. apply window_offsets_fuel; [exact Hhop | nia | nia].
Qed.

(** The artificial change points: once [t + 30 * fuel] reaches
    [duration - 10], more fuel gives the same points. *)
Lemma artificial_points_fuel (duration : R) :
  forall fuel fuel' t,
    duration - 10 <= t + 30 * INR fuel -> duration - 10 <= t + 30 * INR fuel' ->
    Segmenter.artificial_points fuel t duration
    = Segmenter.artificial_points fuel' t duration.
Proof.
  induction fuel as [| fuel IH]; intros fuel' t Hf Hf'.
  - destruct fuel' as [| fuel']; [reflexivity |]. cbn [Segmenter.artificial_points].
    simpl in Hf. destruct (Rlt_dec t (duration - 10)); [lra | reflexivity].
  - destruct fuel' as [| fuel']; cbn [Segmenter.artificial_points].
    + simpl in Hf'. destruct (Rlt_dec t (duration - 10)); [lra | reflexivity].
    + destruct (Rlt_dec t (duration - 10)); [| reflexivity].
      f_equal. rewrite S_INR in Hf, Hf'. apply IH; lra.
Qed.

Lemma artificial_points_enough (duration : R) (extra : nat) :
  Segmenter.artificial_points (Z.to_nat (Zceil (duration / 30)) + extra) 30 duration
  = Segmenter.artificial_points (Z.to_nat (Zceil (duration / 30))) 30 duration.
Proof.
  assert (Hfuel : duration - 10 <= 30 + 30 * INR (Z.to_nat (Zceil (duration / 30)))).
  { pose proof (Zceil_bound (duration / 30)) as [_ Hb].
    destruct (Z_le_gt_dec 0 (Zceil (duration / 30))) as [Hpos | Hneg].
    - rewrite INR_Z_to_nat by exact Hpos. lra.
    - replace (Z.to_nat (Zceil (duration / 30))) with 0%nat by lia.
      assert (IZR (Zceil (duration / 30)) <= -1) by (apply IZR_le; lia).
      simpl. lra. }
  apply artificial_points_fuel; [| exact Hfuel].
  rewrite plus_INR. pose proof (pos_INR extra). lra.
Qed.

(** *** A long recording without a single scored frame *)

Lemma hundred_seconds_no_frames :
  Segmenter.all_frames failing_segmenter hundred_seconds = [].
Proof.
  unfold Segmenter.all_frames.
  induction (Segmenter.window_offsets _ _ _ _ _) as [| i rest IH]; [reflexivity |].
  cbn [flat_map]. rewrite IH. reflexivity.
Qed.

Lemma hundred_seconds_candidates :
  Segmenter.candidate_points failing_segmenter hundred_seconds 0.001 = [30; 60].
Proof.
  unfold Segmenter.candidate_points, Segmenter.all_probabilities, Segmenter.all_timestamps.
  rewrite hundred_seconds_no_frames. cbn [map].
  unfold hundred_seconds. rewrite repeat_length.
  change (Segmenter.sample_rate_ failing_segmenter) with 16000%Z.
  replace (wrap_size (16000 * 10) <? Z.of_nat (Z.to_nat 1600000))%Z with true
    by (rewrite Z2Nat.id by lia; reflexivity).
  rewrite INR_Z_to_nat by lia.
  replace (1600000 / 16000) with 100 by field.
  replace (Zceil (100 / 30)) with 4%Z by (symmetry; apply Zceil_eq; lra).
  change (Z.to_nat 4) with 4%nat. cbn [Segmenter.artificial_points].
  decide_reals. replace (30 + 30) with 60 by lra. reflexivity.
Qed.

(** With no peak and 100 s of audio the detection returns the artificial
    change points at 30 s and 60 s. *)
Lemma detect_change_points_hundred_seconds :
  Segmenter.detect_change_points failing_segmenter hundred_seconds 0.001 = [30; 60].
Proof.
  unfold Segmenter.detect_change_points. 
  change (Segmenter.is_initialized failing_segmenter) with true. cbv iota.
  rewrite hundred_seconds_candidates.
  unfold Segmenter.std_sort. cbn [fold_right Segmenter.sort_insert].
  decide_reals. cbn [Segmenter.std_unique Segmenter.unique_from].
  unfold Segmenter.too_close, ltb, Rabs. decide_reals. reflexivity.
Qed.


(* ================================================================== *)
(** * Further properties of the code *)

(** ** Facts about sums and peaks of vectors *)

Lemma sum_nonneg (l : list R) : (forall x, In x l -> 0 <= x) -> 0 <= sum l.
Proof.
  induction l as [| y r IH]; intros Hl.
  - rewrite sum_nil. lra.
  - rewrite sum_cons.
    assert (0 <= y) by (apply Hl; left; reflexivity).
    assert (0 <= sum r) by (apply IH; intros x Hx; apply Hl; right; exact Hx).
    lra.
Qed.

Lemma sum_nonpos (l : list R) : (forall x, In x l -> x <= 0) -> sum l <= 0.
Proof.
  induction l as [| y r IH]; intros Hl.
  - rewrite sum_nil. lra.
  - rewrite sum_cons.
    assert (y <= 0) by (apply Hl; left; reflexivity).
    assert (sum r <= 0) by (apply IH; intros x Hx; apply Hl; right; exact Hx).
    lra.
Qed.

Lemma sum_ge_element (l : list R) (x : R) :
  (forall y, In y l -> 0 <= y) -> In x l -> x <= sum l.
Proof.
  induction l as [| y r IH]; intros Hl Hx; [destruct Hx |].
  rewrite sum_cons.
  assert (Hy : 0 <= y) by (apply Hl; left; reflexivity).
  assert (Hr : 0 <= sum r) by (apply sum_nonneg; intros z Hz; apply Hl; right; exact Hz).
  destruct Hx as [<- | Hx]; [lra |].
  assert (x <= sum r) by (apply IH; [intros z Hz; apply Hl; right; exact Hz | exact Hx]).
  lra.
Qed.

(** The running peak [max(m, |sample|)] of the normalisation loops. *)
Lemma peak_spec (l : list R) (m0 : R) :
  let peak := fold_left (fun m sample => fmax m (Rabs sample)) l m0 in
  m0 <= peak /\ forall x, In x l -> Rabs x <= peak.
Proof.
  revert m0. induction l as [| y r IH]; intros m0; cbn [fold_left].
  - split; [lra | intros x []].
  - destruct (IH (fmax m0 (Rabs y))) as [Hm Hall]. cbv zeta in *.
    case_fmax m0 (Rabs y).
    + split; [lra |]. intros x [<- | Hx]; [lra | apply Hall; exact Hx].
    + split; [lra |]. intros x [<- | Hx]; [lra | apply Hall; exact Hx].
Qed.

Lemma ln_INR_nonneg (n : nat) : 0 <= ln (INR n).
Proof.
  destruct n as [| n].
  - simpl. unfold ln. destruct (Rlt_dec 0 0) as [H | H]; [exfalso; lra | lra].
  - assert (H : 1 <= INR (S n)) by (rewrite S_INR; pose proof (pos_INR n); lra).
    destruct H as [Hlt | <-]; [| rewrite ln_1; lra].
    rewrite <- ln_1. left. apply ln_increasing; lra.
Qed.

Lemma div_nonneg (a b : R) : 0 <= a -> 0 <= b -> 0 <= a / b.
Proof.
  intros Ha [Hb | <-].
  - apply Rmult_le_pos; [exact Ha |]. left. apply Rinv_0_lt_compat. exact Hb.
  - unfold Rdiv. rewrite Rinv_0. lra.
Qed.

(* ------------------------------------------------------------------ *)
(** ** [process_window]: the range of the change probabilities *)

Lemma sum_exp_positive (o : Segmenter.ModelOutput) (t c : nat) (max_logit : R) :
  (c < Segmenter.num_classes o)%nat ->
  0 < exp (Segmenter.logit o t c - max_logit) <= Segmenter.sum_exp o t max_logit.
Proof.
  intros Hc. split; [apply exp_pos |].
  unfold Segmenter.sum_exp. rewrite fold_left_sum_map, Rplus_0_l.
  apply sum_ge_element.
  - intros y Hy. apply in_map_iff in Hy. destruct Hy as [c' [<- _]].
    left. apply exp_pos.
  - apply in_map_iff. exists c. split; [reflexivity | apply in_seq; lia].
Qed.

Lemma entropy_nonneg (o : Segmenter.ModelOutput) (t : nat) (max_logit : R) :
  0 <= Segmenter.entropy o t max_logit.
Proof.
  unfold Segmenter.entropy. cbv zeta.
  rewrite (fold_left_guarded
             (fun c => exp (Segmenter.logit o t c - max_logit)
                       / Segmenter.sum_exp o t max_logit)).
  assert (Hs : sum (map (fun q => q * ln q)
                    (filter (fun q => gtb q 1e-6)
                       (map (fun c => exp (Segmenter.logit o t c - max_logit)
                                      / Segmenter.sum_exp o t max_logit)
                            (seq 0 (Segmenter.num_classes o))))) <= 0); [| lra].
  apply sum_nonpos. intros x Hx.
  apply in_map_iff in Hx. destruct Hx as [q [<- Hq]].
  apply filter_In in Hq. destruct Hq as [Hq Hbig].
  apply gtb_true_iff in Hbig.
  apply in_map_iff in Hq. destruct Hq as [c [Hqc Hc]]. apply in_seq in Hc.
  destruct (sum_exp_positive o t c max_logit) as [Hpos Hle]; [lia |].
  assert (Hq1 : q <= 1).
  { rewrite <- Hqc. apply Rmult_le_reg_r with (Segmenter.sum_exp o t max_logit); [lra |].
    unfold Rdiv. rewrite Rmult_assoc, Rinv_l by lra. lra. }
  assert (Hln : ln q <= 0).
  { destruct Hq1 as [Hlt | ->]; [| rewrite ln_1; lra].
    rewrite <- ln_1. left. apply ln_increasing; lra. }
  nra.
Qed.

Lemma frame_step_range (o : Segmenter.ModelOutput) (t : nat) (prev : Z) :
  0 <= fst (Segmenter.frame_step o t prev) <= 1.
Proof.
  unfold Segmenter.frame_step.
  destruct (Segmenter.dominant o t) as [d mx]. cbn [fst].
  destruct (_ && _); [| lra].
  pose proof (div_nonneg _ _ (entropy_nonneg o t mx)
                (ln_INR_nonneg (Segmenter.num_classes o))) as Hx.
  set (x := Segmenter.entropy o t mx / ln (INR (Segmenter.num_classes o))) in *.
  destruct (negb _); unfold fmin; decide_reals.
Qed.

(** X1: [process_window] gives one change probability per time step of
    the model output, and every change probability lies in [0, 1]. *)
Theorem change_probabilities_range (o : Segmenter.ModelOutput) :
  length (Segmenter.change_probabilities o) = Segmenter.time_steps o
  /\ Forall (fun p => 0 <= p <= 1) (Segmenter.change_probabilities o).
Proof.
  unfold Segmenter.change_probabilities. split.
  - rewrite frame_loop_length, length_seq. reflexivity.
  - generalize (-1)%Z. induction (seq 0 (Segmenter.time_steps o)) as [| t ts IH];
      intros prev; cbn [Segmenter.frame_loop]; [constructor |].
    pose proof (frame_step_range o t prev) as Hr.
    destruct (Segmenter.frame_step o t prev) as [p d]. cbn [fst] in Hr.
    constructor; [exact Hr | apply IH].
Qed.


(* ------------------------------------------------------------------ *)
(** ** [SpeakerSegmenter::normalize_audio] *)

Lemma Rabs_div_le_1 (x peak : R) : Rabs x <= peak -> 0 < peak -> Rabs (x / peak) <= 1.
Proof.
  intros Hx Hp. unfold Rdiv. rewrite Rabs_mult, (Rabs_right (/ peak)).
  - apply Rmult_le_reg_r with peak; [exact Hp |].
    rewrite Rmult_assoc, Rinv_l by lra. lra.
  - left. apply Rinv_0_lt_compat. exact Hp.
Qed.

(** The peak normalisation shared by the three [normalize] loops: after
    it every sample has magnitude at most 1. *)
Lemma peak_scaled_bounded (audio : list R) :
  Forall (fun x => Rabs x <= 1)
    (if Rgt_dec (fold_left (fun m sample => fmax m (Rabs sample)) audio 0) 1e-6
     then map (fun sample =>
                 sample / fold_left (fun m sample => fmax m (Rabs sample)) audio 0) audio
     else audio).
Proof.
  destruct (peak_spec audio 0) as [Hpos Hall]. cbv zeta in *.
  set (peak := fold_left _ audio 0) in *.
  apply Forall_forall. destruct (Rgt_dec peak 1e-6) as [Hbig | Hsmall].
  - intros y Hy. apply in_map_iff in Hy. destruct Hy as [x [<- Hx]].
    apply Rabs_div_le_1; [apply Hall; exact Hx | lra].
  - intros x Hx. specialize (Hall x Hx). lra.
Qed.

Lemma pre_emphasis_from_bounded (prev : R) (audio : list R) :
  Rabs prev <= 1 -> Forall (fun x => Rabs x <= 1) audio ->
  Forall (fun x => Rabs x <= 1.97) (Segmenter.pre_emphasis_from prev audio)
  /\ length (Segmenter.pre_emphasis_from prev audio) = length audio.
Proof.
  intros Hprev Hall. revert prev Hprev.
  induction Hall as [| x r Hx Hr IH]; intros prev Hprev; cbn; [split; [constructor | reflexivity] |].
  destruct (IH x Hx) as [Hb Hl]. split; [| rewrite Hl; reflexivity].
  constructor; [| exact Hb].
  unfold Rabs in *. decide_reals.
Qed.

(** X2: [SpeakerSegmenter::normalize_audio] keeps the number of samples;
    because of the pre-emphasis pass that follows the peak normalisation,
    the samples handed to the model are bounded by 1.97 in magnitude, not
    by 1 (the first sample by 1). *)
Theorem segmenter_normalize_audio_bounds (audio : list R) :
  length (Segmenter.normalize_audio audio) = length audio
  /\ Forall (fun x => Rabs x <= 1.97) (Segmenter.normalize_audio audio)
  /\ Rabs (hd 0 (Segmenter.normalize_audio audio)) <= 1.
Proof.
  unfold Segmenter.normalize_audio.
  destruct audio as [| a r]; [cbn; rewrite Rabs_R0; repeat split; [constructor | lra] |].
  pose proof (peak_scaled_bounded (a :: r)) as Hb. cbv zeta.
  assert (Hlen : length (if Rgt_dec (fold_left (fun m sample => fmax m (Rabs sample))
                                          (a :: r) 0) 1e-6
                         then map (fun sample =>
                                     sample / fold_left (fun m sample => fmax m (Rabs sample))
                                                        (a :: r) 0) (a :: r)
                         else a :: r) = length (a :: r))
    by (destruct (Rgt_dec _ _); [apply length_map | reflexivity]).
  destruct (if Rgt_dec _ _ then _ else _) as [| x s]; [discriminate |].
  inversion Hb as [| ? ? Hx Hs]; subst.
  destruct (pre_emphasis_from_bounded x s Hx Hs) as [Hbound Hl].
  split; [cbn [length] in *; lia |]. split; [| exact Hx].
  constructor; [lra | exact Hbound].
Qed.

(** The bound 1 does not hold: a full-scale sample after its opposite
    leaves the filter with magnitude 1.97. *)
Lemma segmenter_normalize_audio_exceeds_one :
  Segmenter.normalize_audio [1; -1] = [1 / 1; -1 / 1 - 0.97 * (1 / 1)].
Proof.
  unfold Segmenter.normalize_audio. cbn [fold_left].
  replace (fmax (fmax 0 (Rabs 1)) (Rabs (-1))) with 1.
  - destruct (Rgt_dec 1 1e-6); [reflexivity | lra].
  - unfold fmax, Rabs. decide_reals.
Qed.

(* ------------------------------------------------------------------ *)
(** ** The inline peak scan of [detect_change_points] *)

Lemma peak_scan_In (probabilities : list R) (threshold : R) (i : nat) :
  In i (Segmenter.peak_scan probabilities threshold) <->
  (1 <= i /\ i + 1 < length probabilities)%nat
  /\ nth i probabilities 0 > threshold
  /\ nth i probabilities 0 > nth (i - 1) probabilities 0
  /\ nth i probabilities 0 > nth (i + 1) probabilities 0.
Proof.
  unfold Segmenter.peak_scan. rewrite filter_In, in_seq, !andb_true_iff, !gtb_true_iff.
  split.
  - intros [Hi [[H1 H2] H3]]. repeat split; auto; lia.
  - intros [Hi [H1 [H2 H3]]]. repeat split; auto; lia.
Qed.

Lemma filter_seq_separated (keep : nat -> bool) (m k : nat) :
  (forall i, In i (filter keep (seq k m)) -> ~ In (S i) (filter keep (seq k m))) ->
  StronglySorted (fun i j => (i + 2 <= j)%nat) (filter keep (seq k m)).
Proof.
  revert k. induction m as [| m IH]; intros k Hadj; cbn [seq filter]; [constructor |].
  cbn [seq filter] in Hadj. destruct (keep k) eqn:Hk.
  - constructor.
    + apply IH. intros i Hi. intros HSi. apply (Hadj i); right; assumption.
    + apply Forall_forall. intros j Hj.
      assert (Hjk : (S k <= j)%nat)
        by (apply filter_In in Hj; destruct Hj as [Hj _]; apply in_seq in Hj; lia).
      destruct (Nat.eq_dec j (S k)) as [-> | Hne]; [| lia].
      exfalso. apply (Hadj k); [left; reflexivity | right; exact Hj].
  - apply IH. exact Hadj.
Qed.

Lemma peak_scan_spaced (probabilities : list R) (threshold : R) :
  StronglySorted (fun i j => (i + 2 <= j)%nat) (Segmenter.peak_scan probabilities threshold).
Proof.
  apply filter_seq_separated. fold (Segmenter.peak_scan probabilities threshold).
  intros i Hi HSi. apply peak_scan_In in Hi. apply peak_scan_In in HSi.
  destruct Hi as [_ [_ [_ Hnext]]]. destruct HSi as [_ [_ [Hprev _]]].
  replace (S i - 1)%nat with i in Hprev by lia.
  replace (i + 1)%nat with (S i) in Hnext by lia. lra.
Qed.

(** X3: the indices kept by the peak scan are interior ([1 <= i] and
    [i + 1 < size]), listed in ascending order, and never adjacent: between
    two peaks there is at least one frame. *)
Theorem peak_scan_separated (probabilities : list R) (threshold : R) :
  StronglySorted (fun i j => (i + 2 <= j)%nat) (Segmenter.peak_scan probabilities threshold)
  /\ Forall (fun i => (1 <= i /\ i + 1 < length probabilities)%nat)
            (Segmenter.peak_scan probabilities threshold).
Proof.
  split; [apply peak_scan_spaced |].
  apply Forall_forall. intros i Hi. apply peak_scan_In in Hi. tauto.
Qed.


(* ------------------------------------------------------------------ *)
(** ** The adaptive threshold of [detect_change_points] *)

Lemma max_element_eq (l : list R) (m : R) :
  In m l -> (forall x, In x l -> x <= m) -> max_element l = m.
Proof.
  destruct l as [| a r]; [intros [] |]. unfold max_element.
  assert (H : forall r a,
             (forall x, In x (a :: r) -> x <= m) ->
             (a = m \/ In m r) ->
             fold_left (fun largest p => if Rlt_dec largest p then p else largest) r a = m).
  { clear. induction r as [| y r IH]; intros a Hle Hin; cbn [fold_left].
    - destruct Hin as [-> | []]. reflexivity.
    - destruct (Rlt_dec a y) as [Hlt | Hge].
      + apply IH.
        * intros x [<- | Hx]; apply Hle; [right; left; reflexivity | right; right; exact Hx].
        * destruct Hin as [-> | [-> | Hin]]; [| left; reflexivity | right; exact Hin].
          exfalso. assert (y <= m) by (apply Hle; right; left; reflexivity). lra.
      + apply IH.
        * intros x [<- | Hx]; apply Hle; [left; reflexivity | right; right; exact Hx].
        * destruct Hin as [-> | [<- | Hin]]; [left; reflexivity | | right; exact Hin].
          left. assert (a <= y) by (apply Hle; left; reflexivity). lra. }
  intros Hin Hle. apply H; [exact Hle |].
  destruct Hin as [-> | Hin]; [left; reflexivity | right; exact Hin].
Qed.

Lemma sum_le_bound (l : list R) (m : R) :
  (forall x, In x l -> x <= m) -> sum l <= INR (length l) * m.
Proof.
  induction l as [| a r IH]; intros Hle.
  - rewrite sum_nil. simpl. lra.
  - rewrite sum_cons. cbn [length]. rewrite S_INR.
    assert (a <= m) by (apply Hle; left; reflexivity).
    assert (sum r <= INR (length r) * m) by (apply IH; intros x Hx; apply Hle; right; exact Hx).
    lra.
Qed.

Lemma sum_lt_bound (l : list R) (m x : R) :
  (forall y, In y l -> y <= m) -> In x l -> x < m -> sum l < INR (length l) * m.
Proof.
  induction l as [| a r IH]; intros Hle Hin Hlt; [destruct Hin |].
  rewrite sum_cons. cbn [length]. rewrite S_INR.
  assert (Ha : a <= m) by (apply Hle; left; reflexivity).
  assert (Hr : forall y, In y r -> y <= m) by (intros y Hy; apply Hle; right; exact Hy).
  destruct Hin as [<- | Hin].
  - pose proof (sum_le_bound r m Hr). lra.
  - pose proof (IH Hr Hin Hlt). lra.
Qed.

(** X4: the adaptive threshold never hides the strongest frame: an
    interior frame whose score is the largest of the buffer, above both
    neighbours and above the detection floor, is always selected by the
    peak scan run at the adaptive threshold. *)
Theorem strongest_peak_is_detected (probabilities : list R) (detection_threshold : R) (i : nat) :
  (1 <= i /\ i + 1 < length probabilities)%nat ->
  (forall j, (j < length probabilities)%nat ->
             nth j probabilities 0 <= nth i probabilities 0) ->
  nth i probabilities 0 > nth (i - 1) probabilities 0 ->
  nth i probabilities 0 > nth (i + 1) probabilities 0 ->
  nth i probabilities 0 > detection_threshold ->
  In i (Segmenter.peak_scan probabilities
          (Segmenter.adaptive_threshold detection_threshold probabilities)).
Proof.
  intros Hi Hmax Hprev Hnext Hfloor.
  apply peak_scan_In. split; [exact Hi |]. split; [| split; assumption].
  unfold Segmenter.adaptive_threshold.
  set (m := nth i probabilities 0) in *.
  assert (Hle : forall x, In x probabilities -> x <= m).
  { intros x Hx. destruct (In_nth _ _ 0 Hx) as [j [Hj <-]]. apply Hmax. exact Hj. }
  assert (Hm : max_element probabilities = m).
  { apply max_element_eq; [apply nth_In; lia | exact Hle]. }
  rewrite Hm.
  assert (Hsum : sum probabilities < INR (length probabilities) * m).
  { apply sum_lt_bound with (x := nth (i - 1) probabilities 0);
      [exact Hle | apply nth_In; lia | lra]. }
  assert (Hn : 0 < INR (length probabilities)) by (apply lt_0_INR; lia).
  assert (Hmean : sum probabilities / INR (length probabilities) < m).
  { apply Rmult_lt_reg_r with (INR (length probabilities)); [exact Hn |].
    unfold Rdiv. rewrite Rmult_assoc, Rinv_l by lra. lra. }
  case_fmax detection_threshold
            (sum probabilities / INR (length probabilities)
             + 2 * (m - sum probabilities / INR (length probabilities)) * 0.1); lra.
Qed.

Lemma strongest_peak_is_detected_witness :
  In 1%nat (Segmenter.peak_scan [0; 1; 0] (Segmenter.adaptive_threshold 0.01 [0; 1; 0])).
Proof.
  apply (strongest_peak_is_detected [0; 1; 0] 0.01 1).
  - simpl. lia.
  - intros [| [| [| j]]] Hj; simpl in *; try lra; lia.
  - simpl. lra.
  - simpl. lra.
  - simpl. lra.
Defined.

(* ------------------------------------------------------------------ *)
(** ** The sliding windows of [detect_change_points] *)

Lemma window_offsets_In (window_size hop_size size : nat) :
  forall fuel i0 i,
    In i (Segmenter.window_offsets fuel i0 window_size hop_size size) ->
    (i + window_size < size)%nat /\ exists k, i = (i0 + k * hop_size)%nat.
Proof.
  induction fuel as [| fuel IH]; intros i0 i Hin; cbn [Segmenter.window_offsets] in Hin;
    [destruct Hin |].
  destruct (Nat.ltb_spec (i0 + window_size) size) as [Hlt | Hge]; [| destruct Hin].
  destruct Hin as [<- | Hin].
  - split; [exact Hlt | exists 0%nat; lia].
  - destruct (IH _ _ Hin) as [Hfit [k Hk]]. split; [exact Hfit |].
    exists (S k). lia.
Qed.

Lemma all_probabilities_short (s : Segmenter.SpeakerSegmenter) (audio : list R) :
  (length audio <= Segmenter.window_size_ s)%nat -> Segmenter.all_probabilities s audio = [].
Proof.
  intros Hshort. rewrite all_probabilities_concat.
  destruct (length audio) as [| n] eqn:Hn; [reflexivity |].
  cbn [Segmenter.window_offsets].
  replace (0 + Segmenter.window_size_ s <? S n)%nat with false
    by (symmetry; apply Nat.ltb_ge; lia).
  reflexivity.
Qed.

(** X5: the window scan only takes windows that lie strictly inside the
    buffer: every window handed to [process_window] has exactly
    [window_size_] samples (no padding is ever applied) and starts at a
    multiple of [hop_size_]; a buffer of [window_size_] samples or fewer
    is not scanned at all. *)
Theorem window_scan_takes_full_windows (s : Segmenter.SpeakerSegmenter) (audio : list R) :
  (forall i,
      In i (Segmenter.window_offsets (length audio) 0 (Segmenter.window_size_ s)
                                     (Segmenter.hop_size_ s) (length audio)) ->
      length (firstn (Segmenter.window_size_ s) (skipn i audio)) = Segmenter.window_size_ s
      /\ Segmenter.fit_window (Segmenter.window_size_ s)
                              (firstn (Segmenter.window_size_ s) (skipn i audio))
         = firstn (Segmenter.window_size_ s) (skipn i audio)
      /\ exists k, i = (k * Segmenter.hop_size_ s)%nat)
  /\ ((length audio <= Segmenter.window_size_ s)%nat ->
      Segmenter.all_probabilities s audio = []).
Proof.
  split.
  - intros i Hin. apply window_offsets_In in Hin. destruct Hin as [Hfit [k Hk]].
    assert (Hlen : length (firstn (Segmenter.window_size_ s) (skipn i audio))
                   = Segmenter.window_size_ s).
    { rewrite length_firstn, length_skipn. lia. }
    split; [exact Hlen |]. split; [| exists k; lia].
    unfold Segmenter.fit_window. rewrite Hlen, Nat.sub_diag. cbn [repeat].
    rewrite app_nil_r. apply firstn_all2. lia.
  - apply all_probabilities_short.
Qed.


(* ------------------------------------------------------------------ *)
(** ** The artificial change points of [detect_change_points] *)

Lemma std_sort_sorted_id (l : list R) : StronglySorted Rle l -> Segmenter.std_sort l = l.
Proof.
  induction 1 as [| x r Hs IH Hall]; [reflexivity |].
  unfold Segmenter.std_sort in *. cbn [fold_right]. rewrite IH.
  destruct r as [| y r']; [reflexivity |]. cbn [Segmenter.sort_insert].
  inversion Hall as [| ? ? Hxy _]; subst.
  destruct (Rlt_dec y x); [lra | reflexivity].
Qed.

Lemma unique_from_spaced_id (kept : R) (l : list R) :
  StronglySorted (fun a b => a + 1 <= b) (kept :: l) -> Segmenter.unique_from kept l = l.
Proof.
  revert kept. induction l as [| x r IH]; intros kept Hs; [reflexivity |].
  inversion Hs as [| ? ? Hxr Hk]; subst. inversion Hk as [| ? ? Hkx _]; subst.
  cbn [Segmenter.unique_from].
  replace (Segmenter.too_close kept x) with false.
  - f_equal. apply IH. exact Hxr.
  - symmetry. unfold Segmenter.too_close. apply ltb_false_iff.
    rewrite Rabs_left1 by lra. lra.
Qed.

Lemma std_unique_spaced_id (l : list R) :
  StronglySorted (fun a b => a + 1 <= b) l -> Segmenter.std_unique l = l.
Proof.
  intros Hs. destruct l as [| x r]; [reflexivity |]. cbn [Segmenter.std_unique].
  f_equal. apply unique_from_spaced_id. exact Hs.
Qed.

Lemma artificial_points_spec (duration : R) :
  forall fuel k0 t,
    t = 30 * INR (S k0) ->
    duration - 10 <= t + 30 * INR fuel ->
    exists m,
      Segmenter.artificial_points fuel t duration = map (fun k => 30 * INR (S k)) (seq k0 m)
      /\ forall k, (k0 <= k)%nat ->
                   ((k < k0 + m)%nat <-> 30 * INR (S k) < duration - 10).
Proof.
  induction fuel as [| fuel IH]; intros k0 t Ht Hfuel.
  - exists 0%nat. split; [reflexivity |]. intros k Hk. split; [lia |].
    intros Hlt. exfalso. simpl in Hfuel.
    assert (INR (S k0) <= INR (S k)) by (apply le_INR; lia). lra.
  - cbn [Segmenter.artificial_points].
    destruct (Rlt_dec t (duration - 10)) as [Hlt | Hge].
    + destruct (IH (S k0) (t + 30)) as [m [Hlist Hiff]].
      * rewrite Ht, (S_INR (S k0)). ring.
      * rewrite S_INR in Hfuel. lra.
      * exists (S m). split.
        -- cbn [seq map]. rewrite Hlist, Ht. reflexivity.
        -- intros k Hk. destruct (Nat.eq_dec k k0) as [-> | Hne].
           ++ split; [intros _; rewrite <- Ht; exact Hlt | lia].
           ++ rewrite <- (Hiff k) by lia. lia.
    + exists 0%nat. split; [reflexivity |]. intros k Hk. split; [lia |].
      intros Hlt. exfalso.
      assert (INR (S k0) <= INR (S k)) by (apply le_INR; lia). lra.
Qed.

Lemma multiples_of_30_spaced (k0 m : nat) :
  StronglySorted (fun a b => a + 1 <= b) (map (fun k => 30 * INR (S k)) (seq k0 m)).
Proof.
  revert k0. induction m as [| m IH]; intros k0; cbn [seq map]; constructor; [apply IH |].
  apply Forall_forall. intros x Hx. apply in_map_iff in Hx. destruct Hx as [k [<- Hk]].
  apply in_seq in Hk. rewrite (S_INR k), (S_INR k0).
  assert (INR k0 + 1 <= INR k) by (rewrite <- S_INR; apply le_INR; lia). lra.
Qed.

(** X6: when the peak scan finds nothing, [detect_change_points] returns
    exactly the artificial change points 30 s, 60 s, 90 s, ... that lie
    below [duration - 10]; sorting and merging leave them as they are.  In
    particular a recording of at most 40 s without a peak has no change
    point at all. *)
Theorem detect_change_points_without_peaks
        (s : Segmenter.SpeakerSegmenter) (audio : list R) (threshold : R) :
  Segmenter.is_initialized s = true ->
  (0 < Segmenter.sample_rate_ s)%Z ->
  (Segmenter.sample_rate_ s * 10 <= INT_MAX)%Z ->
  Segmenter.peak_scan (Segmenter.all_probabilities s audio)
    (Segmenter.adaptive_threshold (fmax 0.01 (threshold * 0.1))
                                  (Segmenter.all_probabilities s audio)) = [] ->
  exists m,
    Segmenter.detect_change_points s audio threshold
    = map (fun k => 30 * INR (S k)) (seq 0 m)
    /\ (forall k, (k < m)%nat <->
                  30 * INR (S k) < INR (length audio) / IZR (Segmenter.sample_rate_ s) - 10)
    /\ (INR (length audio) / IZR (Segmenter.sample_rate_ s) <= 40 -> m = 0%nat).
Proof.
  intros Hinit Hrate Hint Hnone.
  set (duration := INR (length audio) / IZR (Segmenter.sample_rate_ s)).
  assert (Hr : 0 < IZR (Segmenter.sample_rate_ s)) by (apply IZR_lt; exact Hrate).
  assert (Hcand : exists m,
             Segmenter.candidate_points s audio threshold
             = map (fun k => 30 * INR (S k)) (seq 0 m)
             /\ forall k, (k < m)%nat <-> 30 * INR (S k) < duration - 10).
  { unfold Segmenter.candidate_points. cbv zeta. rewrite Hnone. cbn [map].
    assert (Hnil : match Segmenter.all_probabilities s audio with
                   | [] => @nil R
                   | _ :: _ => []
                   end = []) by (destruct (Segmenter.all_probabilities s audio); reflexivity).
    rewrite Hnil.
    rewrite wrap_size_small by (unfold INT_MAX in Hint; lia).
    destruct (Z.ltb_spec (Segmenter.sample_rate_ s * 10) (Z.of_nat (length audio)))
      as [Hlong | Hshort].
    - fold duration.
      destruct (artificial_points_spec duration (Z.to_nat (Zceil (duration / 30))) 0 30)
        as [m [Hlist Hiff]].
      + simpl. ring.
      + pose proof (Zceil_bound (duration / 30)) as [_ Hb].
        destruct (Z_le_gt_dec 0 (Zceil (duration / 30))) as [Hpos | Hneg].
        * rewrite INR_Z_to_nat by exact Hpos. lra.
        * replace (Z.to_nat (Zceil (duration / 30))) with 0%nat by lia.
          assert (IZR (Zceil (duration / 30)) <= -1) by (apply IZR_le; lia).
          simpl. lra.
      + exists m. split; [exact Hlist |]. intros k. apply (Hiff k). lia.
    - exists 0%nat. split; [reflexivity |]. intros k. split; [lia |].
      intros Hlt. exfalso.
      assert (Hd : duration <= 10).
      { unfold duration. apply Rmult_le_reg_r with (IZR (Segmenter.sample_rate_ s));
          [exact Hr |].
        unfold Rdiv. rewrite Rmult_assoc, Rinv_l, Rmult_1_r by lra.
        rewrite INR_IZR_INZ, <- mult_IZR. apply IZR_le. lia. }
      pose proof (pos_INR (S k)). lra. }
  destruct Hcand as [m [Hlist Hiff]]. exists m.
  unfold Segmenter.detect_change_points. rewrite Hinit, Hlist.
  pose proof (multiples_of_30_spaced 0 m) as Hsp.
  rewrite std_sort_sorted_id, std_unique_spaced_id; [| exact Hsp |].
  - split; [reflexivity |]. split; [exact Hiff |].
    intros Hd. destruct m as [| m]; [reflexivity |]. exfalso.
    assert (H0 : 30 * INR 1 < duration - 10) by (apply Hiff; lia).
    simpl in H0. fold duration in Hd. lra.
  - clear - Hsp. induction Hsp as [| x r Hs IH Hall]; constructor; [exact IH |].
    rewrite Forall_forall in *. intros y Hy. specialize (Hall y Hy). lra.
Qed.

Lemma detect_change_points_without_peaks_witness :
  exists m,
    Segmenter.detect_change_points failing_segmenter hundred_seconds 0.001
    = map (fun k => 30 * INR (S k)) (seq 0 m)
    /\ (forall k, (k < m)%nat <->
                  30 * INR (S k)
                  < INR (length hundred_seconds)
                    / IZR (Segmenter.sample_rate_ failing_segmenter) - 10)
    /\ (INR (length hundred_seconds) / IZR (Segmenter.sample_rate_ failing_segmenter) <= 40
        -> m = 0%nat).
Proof.
  apply (detect_change_points_without_peaks failing_segmenter hundred_seconds 0.001).
  - reflexivity.
  - simpl. lia.
  - unfold INT_MAX. simpl. lia.
  - unfold Segmenter.all_probabilities. rewrite hundred_seconds_no_frames. reflexivity.
Defined.


(* ------------------------------------------------------------------ *)
(** ** [SpeakerEmbedder]: vectors *)

Lemma squares_sum (v : list R) :
  fold_left (fun acc val => acc + val * val) v 0 = sum (map (fun val => val * val) v).
Proof. rewrite fold_left_sum_map. ring. Qed.

Lemma sum_map_scale {A : Type} (f : A -> R) (c : R) (l : list A) :
  sum (map (fun x => f x * c) l) = sum (map f l) * c.
Proof.
  induction l as [| x r IH]; cbn [map].
  - rewrite !sum_nil. ring.
  - rewrite !sum_cons, IH. ring.
Qed.

Lemma squares_sum_nonneg (v : list R) : 0 <= sum (map (fun val => val * val) v).
Proof.
  apply sum_nonneg. intros x Hx. apply in_map_iff in Hx. destruct Hx as [y [<- _]]. nra.
Qed.

Lemma normalize_embedding_cases (embedding : list R) :
  (Measures.l2_norm embedding > 1e-6
   /\ Embedder.normalize_embedding embedding
      = map (fun val => val / Measures.l2_norm embedding) embedding
   /\ Measures.l2_norm (Embedder.normalize_embedding embedding) = 1)
  \/ (Measures.l2_norm embedding <= 1e-6
      /\ Embedder.normalize_embedding embedding = embedding).
Proof.
  unfold Embedder.normalize_embedding, Measures.l2_norm. cbv zeta.
  set (n := sqrt (fold_left (fun acc val => acc + val * val) embedding 0)).
  destruct (Rgt_dec n 1e-6) as [Hbig | Hsmall].
  - left. split; [exact Hbig |]. split; [reflexivity |].
    rewrite squares_sum, map_map.
    assert (Hs : sum (map (fun val => val * val) embedding) = n * n).
    { unfold n. rewrite squares_sum. symmetry. apply sqrt_sqrt. apply squares_sum_nonneg. }
    replace (map (fun x => x / n * (x / n)) embedding)
      with (map (fun x => x * x * (/ n * / n)) embedding)
      by (apply map_ext; intros x; unfold Rdiv; ring).
    rewrite (sum_map_scale (fun x => x * x)), Hs.
    replace (n * n * (/ n * / n)) with 1 by (field; lra).
    apply sqrt_1.
  - right. split; [lra | reflexivity].
Qed.

(** X7: [normalize_embedding] keeps the dimension; a vector whose L2 norm
    is above [1e-6] comes out with norm 1, and any other vector (the zero
    vector in particular) is returned as it is. *)
Theorem normalize_embedding_unit (embedding : list R) :
  length (Embedder.normalize_embedding embedding) = length embedding
  /\ (Measures.l2_norm embedding > 1e-6 ->
      Measures.l2_norm (Embedder.normalize_embedding embedding) = 1)
  /\ (Measures.l2_norm embedding <= 1e-6 ->
      Embedder.normalize_embedding embedding = embedding).
Proof.
  destruct (normalize_embedding_cases embedding) as [[Hbig [Heq Hunit]] | [Hsmall Heq]].
  - split; [rewrite Heq; apply length_map |]. split; [intros _; exact Hunit | intros; lra].
  - split; [rewrite Heq; reflexivity |]. split; [intros; lra | intros _; exact Heq].
Qed.

Lemma dot_product_comm (a b : list R) (acc : R) :
  Embedder.dot_product a b acc = Embedder.dot_product b a acc.
Proof.
  revert b acc. induction a as [| x a IH]; intros [| y b] acc; cbn; try reflexivity.
  rewrite (Rmult_comm x y). apply IH.
Qed.

(** X8: [cosine_similarity] always lies in [-1, 1], does not depend on
    the order of its arguments, and is 0 when the two vectors have
    different sizes or are empty. *)
Theorem cosine_similarity_properties (a b : list R) :
  -1 <= Embedder.cosine_similarity a b <= 1
  /\ Embedder.cosine_similarity a b = Embedder.cosine_similarity b a
  /\ (length a <> length b \/ a = [] -> Embedder.cosine_similarity a b = 0).
Proof.
  unfold Embedder.cosine_similarity.
  destruct (Nat.eqb_spec (length a) (length b)) as [Heq | Hne]; cbn [negb orb].
  - rewrite <- Heq, Nat.eqb_refl. cbn [negb orb].
    destruct (Nat.eqb_spec (length a) 0) as [H0 | H0].
    + repeat split; try lra. 
    + rewrite (dot_product_comm b a). split; [| split; [reflexivity |]].
      * unfold fmax, fmin. decide_reals.
      * intros [Hl | ->]; [contradiction | simpl in H0; contradiction].
  - replace (length b =? length a)%nat with false
      by (symmetry; apply Nat.eqb_neq; congruence).
    cbn [negb orb]. repeat split; lra.
Qed.

Lemma cosine_similarity_upper (a b : list R) : Embedder.cosine_similarity a b <= 1.
Proof.
  unfold Embedder.cosine_similarity. destruct (_ || _); [lra |].
  unfold fmax, fmin. decide_reals.
Qed.

Lemma calculate_confidence_bounds (e : Embedder.SpeakerEmbedder) (embedding : list R) (id : Z) :
  0 <= Embedder.calculate_confidence e embedding id <= 1.
Proof.
  unfold Embedder.calculate_confidence. destruct (_ || _); [lra |]. cbv zeta.
  pose proof (cosine_similarity_lower embedding
                (nth (Z.to_nat id) (Embedder.speaker_centroids_ e) [])).
  pose proof (cosine_similarity_upper embedding
                (nth (Z.to_nat id) (Embedder.speaker_centroids_ e) [])).
  lra.
Qed.

(** X9: [calculate_confidence] always returns a value in [0, 1]; for an
    id that is negative or not below the number of profiles it is 0.5. *)
Theorem calculate_confidence_range (e : Embedder.SpeakerEmbedder) (embedding : list R) (id : Z) :
  0 <= Embedder.calculate_confidence e embedding id <= 1
  /\ ((id < 0 \/ Z.of_nat (Embedder.get_speaker_count e) <= id)%Z ->
      Embedder.calculate_confidence e embedding id = 0.5).
Proof.
  split; [apply calculate_confidence_bounds |].
  unfold Embedder.calculate_confidence, Embedder.get_speaker_count.
  destruct (Z.ltb_spec id 0) as [Hneg | Hpos]; cbn [orb]; [reflexivity |].
  destruct (Z.leb_spec (Z.of_nat (length (Embedder.speaker_centroids_ e))) id) as [Hout | Hin];
    [reflexivity | intros; lia].
Qed.

(** X10: [prepare_audio_segment] always returns [target_length_] samples
    (the segment cut or padded with zeros), each of magnitude at most 1. *)
Theorem prepare_audio_segment_shape (e : Embedder.SpeakerEmbedder) (audio : list R) :
  length (Embedder.prepare_audio_segment e audio) = Embedder.target_length_ e
  /\ Forall (fun x => Rabs x <= 1) (Embedder.prepare_audio_segment e audio).
Proof.
  unfold Embedder.prepare_audio_segment. cbv zeta.
  set (prepared := firstn (Embedder.target_length_ e) audio
                   ++ repeat 0 (Embedder.target_length_ e - length audio)).
  assert (Hlen : length prepared = Embedder.target_length_ e).
  { unfold prepared. rewrite length_app, length_firstn, repeat_length. lia. }
  split.
  - destruct (Rgt_dec _ _); [rewrite length_map |]; exact Hlen.
  - apply peak_scaled_bounded.
Qed.


(* ------------------------------------------------------------------ *)
(** ** [SpeakerEmbedder]: the clustering state *)

Lemma Forall_set_nth {A : Type} (P : A -> Prop) (i : nat) (x : A) (l : list A) :
  Forall P l -> P x -> Forall P (set_nth i x l).
Proof.
  intros Hl Hx. revert i. induction Hl as [| y r Hy Hr IH]; intros [| i]; cbn;
    constructor; auto.
Qed.

Lemma update_speaker_centroid_parallel e id embedding :
  length (Embedder.speaker_centroids_ e) = length (Embedder.speaker_counts_ e) ->
  Forall (fun c => (1 <= c)%Z) (Embedder.speaker_counts_ e) ->
  length (Embedder.speaker_centroids_ (Embedder.update_speaker_centroid e id embedding))
  = length (Embedder.speaker_counts_ (Embedder.update_speaker_centroid e id embedding))
  /\ Forall (fun c => (1 <= c)%Z)
            (Embedder.speaker_counts_ (Embedder.update_speaker_centroid e id embedding)).
Proof.
  intros Hlen Hpos. unfold Embedder.update_speaker_centroid.
  destruct (_ || _); [split; assumption |].
  cbn [Embedder.set_speakers Embedder.speaker_centroids_ Embedder.speaker_counts_].
  rewrite !length_set_nth. split; [exact Hlen |].
  apply Forall_set_nth; [exact Hpos |].
  destruct (Nat.lt_ge_cases (Z.to_nat id) (length (Embedder.speaker_counts_ e))) as [Hin | Hout].
  - rewrite Forall_forall in Hpos.
    specialize (Hpos _ (nth_In (Embedder.speaker_counts_ e) 0%Z Hin)). lia.
  - rewrite nth_overflow by exact Hout. lia.
Qed.

Lemma find_or_create_parallel e embedding threshold M :
  length (Embedder.speaker_centroids_ e) = length (Embedder.speaker_counts_ e) ->
  Forall (fun c => (1 <= c)%Z) (Embedder.speaker_counts_ e) ->
  let e' := fst (Embedder.find_or_create_speaker e embedding threshold M) in
  length (Embedder.speaker_centroids_ e') = length (Embedder.speaker_counts_ e')
  /\ Forall (fun c => (1 <= c)%Z) (Embedder.speaker_counts_ e').
Proof.
  intros Hlen Hpos. cbv zeta. unfold Embedder.find_or_create_speaker.
  destruct (Embedder.best_match _ _ _ _ _) as [bs bsp].
  destruct (_ && _); cbn [fst]; [apply update_speaker_centroid_parallel; assumption |].
  destruct (_ <? _)%Z; cbn [fst].
  - cbn [Embedder.set_speakers Embedder.speaker_centroids_ Embedder.speaker_counts_].
    rewrite !length_app, Hlen. split; [reflexivity |].
    apply Forall_app. split; [exact Hpos | constructor; [lia | constructor]].
  - destruct (0 <=? bsp)%Z; cbn [fst];
      [apply update_speaker_centroid_parallel; assumption | split; assumption].
Qed.

(** X11: the two vectors of the clustering state stay parallel: after
    every call of a sequence of [find_or_create_speaker] calls there are as
    many sample counts as centroids, and every sample count is at least 1;
    [reset_speakers] after any of them leaves both vectors empty. *)
Theorem speaker_vectors_stay_parallel
        (e0 : Embedder.SpeakerEmbedder) (calls : list (list R * R)) (M : Z)
        (call : Runs.Call) :
  length (Embedder.speaker_centroids_ e0) = length (Embedder.speaker_counts_ e0) ->
  Forall (fun c => (1 <= c)%Z) (Embedder.speaker_counts_ e0) ->
  In call (Runs.call_sequence e0 calls M) ->
  length (Embedder.speaker_centroids_ (Runs.after call))
  = length (Embedder.speaker_counts_ (Runs.after call))
  /\ Forall (fun c => (1 <= c)%Z) (Embedder.speaker_counts_ (Runs.after call))
  /\ Embedder.speaker_centroids_ (Embedder.reset_speakers (Runs.after call)) = []
  /\ Embedder.speaker_counts_ (Embedder.reset_speakers (Runs.after call)) = [].
Proof.
  revert e0. induction calls as [| [embedding threshold] rest IH]; intros e0 Hlen Hpos Hin;
    [destruct Hin |].
  cbn [Runs.call_sequence] in Hin.
  pose proof (find_or_create_parallel e0 embedding threshold M Hlen Hpos) as [Hl Hp].
  destruct Hin as [<- | Hin].
  - cbn [Runs.after]. split; [exact Hl |]. split; [exact Hp |]. split; reflexivity.
  - apply (IH _ Hl Hp Hin).
Qed.

Lemma speaker_vectors_stay_parallel_witness :
  length (Embedder.speaker_centroids_
            (Runs.after (Runs.mkCall one_profile speaker_b two_profiles 1)))
  = length (Embedder.speaker_counts_
              (Runs.after (Runs.mkCall one_profile speaker_b two_profiles 1)))
  /\ Forall (fun c => (1 <= c)%Z)
            (Embedder.speaker_counts_
               (Runs.after (Runs.mkCall one_profile speaker_b two_profiles 1)))
  /\ Embedder.speaker_centroids_
       (Embedder.reset_speakers
          (Runs.after (Runs.mkCall one_profile speaker_b two_profiles 1))) = []
  /\ Embedder.speaker_counts_
       (Embedder.reset_speakers
          (Runs.after (Runs.mkCall one_profile speaker_b two_profiles 1))) = [].
Proof.
  apply (speaker_vectors_stay_parallel Embedder.new_embedder
           (map (fun x => (x, 0.9)) [speaker_a; speaker_b; speaker_c]) 2).
  - reflexivity.
  - constructor.
  - cbn [map Runs.call_sequence].
    rewrite first_call_creates. cbn [fst snd].
    rewrite second_call_creates. cbn [fst snd].
    right. left. reflexivity.
Defined.

(** *** The same voice again and again *)

Lemma dot_product_self (a : list R) (acc : R) :
  Embedder.dot_product a a acc = acc + sum (map (fun val => val * val) a).
Proof.
  revert acc. induction a as [| x a IH]; intros acc; cbn [Embedder.dot_product map].
  - rewrite sum_nil. ring.
  - rewrite IH, sum_cons. ring.
Qed.

Lemma unit_norm_squares (x : list R) :
  Measures.l2_norm x = 1 -> sum (map (fun val => val * val) x) = 1 /\ x <> [].
Proof.
  unfold Measures.l2_norm. rewrite squares_sum. intros Hn.
  pose proof (squares_sum_nonneg x) as Hpos.
  split.
  - rewrite <- (sqrt_sqrt _ Hpos), Hn. ring.
  - intros ->. cbn [map] in Hn. rewrite sum_nil, sqrt_0 in Hn. lra.
Qed.

Lemma cosine_similarity_self (x : list R) :
  Measures.l2_norm x = 1 -> Embedder.cosine_similarity x x = 1.
Proof.
  intros Hn. destruct (unit_norm_squares x Hn) as [Hs Hne].
  unfold Embedder.cosine_similarity. rewrite Nat.eqb_refl. cbn [negb orb].
  replace (length x =? 0)%nat with false
    by (symmetry; apply Nat.eqb_neq; destruct x; [congruence | discriminate]).
  rewrite dot_product_self, Hs. unfold fmax, fmin. decide_reals.
Qed.

Lemma running_mean_self (x : list R) (count : Z) :
  (0 <= count)%Z -> Embedder.running_mean x x count = x.
Proof.
  intros Hc. induction x as [| v x IH]; [reflexivity |].
  cbn [Embedder.running_mean]. rewrite IH. f_equal.
  rewrite plus_IZR. assert (0 <= IZR count) by (apply IZR_le; exact Hc). field. lra.
Qed.

Lemma normalize_embedding_unit_id (x : list R) :
  Measures.l2_norm x = 1 -> Embedder.normalize_embedding x = x.
Proof.
  intros Hn. unfold Embedder.normalize_embedding. unfold Measures.l2_norm in Hn.
  rewrite Hn. destruct (Rgt_dec 1 1e-6); [| lra].
  rewrite <- (map_id x) at 2. apply map_ext. intros v. field.
Qed.

Lemma same_voice_step e x threshold M k :
  Measures.l2_norm x = 1 -> threshold < 1 -> (1 <= k)%Z ->
  Embedder.speaker_centroids_ e = [x] -> Embedder.speaker_counts_ e = [k] ->
  let r := Embedder.find_or_create_speaker e x threshold M in
  snd r = 0%Z
  /\ Embedder.speaker_centroids_ (fst r) = [x]
  /\ Embedder.speaker_counts_ (fst r) = [(k + 1)%Z].
Proof.
  intros Hn Hthr Hk Hcs Hks. cbv zeta. unfold Embedder.find_or_create_speaker.
  rewrite Hcs. cbn [Embedder.best_match]. rewrite (cosine_similarity_self x Hn).
  destruct (Rgt_dec 1 (-1)); [| lra].
  replace (gtb 1 threshold) with true by (symmetry; apply gtb_true_iff; lra).
  change (wrap_int (Z.of_nat 0)) with 0%Z. cbn [Z.leb andb fst snd].
  split; [reflexivity |].
  unfold Embedder.update_speaker_centroid. rewrite Hcs, Hks.
  cbn [length Z.of_nat Z.ltb Z.leb orb Z.to_nat nth set_nth
       Embedder.set_speakers Embedder.speaker_centroids_ Embedder.speaker_counts_].
  rewrite running_mean_self by lia. rewrite normalize_embedding_unit_id by exact Hn.
  split; reflexivity.
Qed.

Lemma same_voice_run x threshold M :
  Measures.l2_norm x = 1 -> threshold < 1 ->
  forall n e k,
    (1 <= k)%Z ->
    Embedder.speaker_centroids_ e = [x] -> Embedder.speaker_counts_ e = [k] ->
    Forall (fun call => Runs.returned call = 0%Z)
           (Runs.call_sequence e (repeat (x, threshold) n) M)
    /\ Embedder.speaker_centroids_ (Runs.after_calls e (repeat (x, threshold) n) M) = [x]
    /\ Embedder.speaker_counts_ (Runs.after_calls e (repeat (x, threshold) n) M)
       = [(k + Z.of_nat n)%Z].
Proof.
  intros Hn Hthr. induction n as [| n IH]; intros e k Hk Hcs Hks.
  - cbn. rewrite Z.add_0_r. repeat split; [constructor | exact Hcs | exact Hks].
  - cbn [repeat Runs.call_sequence Runs.after_calls].
    destruct (same_voice_step e x threshold M k Hn Hthr Hk Hcs Hks) as [Hid [Hcs' Hks']].
    destruct (IH _ (k + 1)%Z ltac:(lia) Hcs' Hks') as [Hall [Hc Hcount]].
    split; [constructor; [exact Hid | exact Hall] |]. split; [exact Hc |].
    rewrite Hcount. f_equal. lia.
Qed.

(** X12: a unit-norm embedding presented again and again (threshold below
    1, room for at least one speaker, empty set at the start) always gets
    id 0: the first call stores it as profile 0 and every later call
    matches that profile, whose centroid stays the embedding and whose
    sample count is the number of calls; the confidence is 1. *)
Theorem same_embedding_one_speaker
        (x : list R) (threshold : R) (M : Z) (n : nat) (e0 : Embedder.SpeakerEmbedder) :
  Measures.l2_norm x = 1 ->
  threshold < 1 ->
  (1 <= M <= INT_MAX)%Z ->
  Embedder.speaker_centroids_ e0 = [] ->
  Embedder.speaker_counts_ e0 = [] ->
  Forall (fun call => Runs.returned call = 0%Z)
         (Runs.call_sequence e0 (repeat (x, threshold) (S n)) M)
  /\ Embedder.speaker_centroids_ (Runs.after_calls e0 (repeat (x, threshold) (S n)) M) = [x]
  /\ Embedder.speaker_counts_ (Runs.after_calls e0 (repeat (x, threshold) (S n)) M)
     = [Z.of_nat (S n)]
  /\ Embedder.calculate_confidence
       (Runs.after_calls e0 (repeat (x, threshold) (S n)) M) x 0 = 1.
Proof.
  intros Hn Hthr HM Hcs Hks.
  cbn [repeat Runs.call_sequence Runs.after_calls].
  assert (Hfirst : Embedder.find_or_create_speaker e0 x threshold M
                   = (Embedder.set_speakers e0 [x] [1%Z], 0%Z)).
  { unfold Embedder.find_or_create_speaker. rewrite Hcs, Hks.
    cbn [Embedder.best_match length Z.of_nat]. rewrite andb_false_r.
    replace (wrap_int 0 <? M)%Z with true by (symmetry; apply Z.ltb_lt; cbn; lia).
    reflexivity. }
  rewrite Hfirst. cbn [fst snd].
  destruct (same_voice_run x threshold M Hn Hthr n (Embedder.set_speakers e0 [x] [1%Z]) 1%Z)
    as [Hall [Hc Hk]]; try reflexivity; try lia.
  split; [constructor; [reflexivity | exact Hall] |]. split; [exact Hc |].
  split; [rewrite Hk; f_equal; lia |].
  unfold Embedder.calculate_confidence. rewrite Hc.
  change ((0 <? 0)%Z || (Z.of_nat (length [x]) <=? 0)%Z) with false.
  cbn [Z.to_nat nth]. rewrite (cosine_similarity_self x Hn). field.
Qed.

Lemma speaker_a_unit : Measures.l2_norm speaker_a = 1.
Proof.
  unfold Measures.l2_norm, speaker_a. cbn [fold_left].
  replace (0 + 1 * 1 + 0 * 0) with 1 by ring. apply sqrt_1.
Qed.

Lemma same_embedding_one_speaker_witness :
  Forall (fun call => Runs.returned call = 0%Z)
         (Runs.call_sequence Embedder.new_embedder (repeat (speaker_a, 0.3) (S 2)) 10)
  /\ Embedder.speaker_centroids_
       (Runs.after_calls Embedder.new_embedder (repeat (speaker_a, 0.3) (S 2)) 10)
     = [speaker_a]
  /\ Embedder.speaker_counts_
       (Runs.after_calls Embedder.new_embedder (repeat (speaker_a, 0.3) (S 2)) 10)
     = [Z.of_nat (S 2)]
  /\ Embedder.calculate_confidence
       (Runs.after_calls Embedder.new_embedder (repeat (speaker_a, 0.3) (S 2)) 10)
       speaker_a 0 = 1.
Proof.
  apply (same_embedding_one_speaker speaker_a 0.3 10 2 Embedder.new_embedder).
  - exact speaker_a_unit.
  - lra.
  - unfold INT_MAX. lia.
  - reflexivity.
  - reflexivity.
Defined.


(** *** An all-zero embedding *)

Lemma dot_product_zeros (d : nat) (c : list R) (acc : R) :
  Embedder.dot_product (repeat 0 d) c acc = acc.
Proof.
  revert c acc. induction d as [| d IH]; intros [| y c] acc; cbn [repeat Embedder.dot_product];
    try reflexivity.
  rewrite IH. ring.
Qed.

Lemma cosine_similarity_zeros (d : nat) (c : list R) :
  Embedder.cosine_similarity (repeat 0 d) c = 0.
Proof.
  unfold Embedder.cosine_similarity. destruct (_ || _); [reflexivity |].
  rewrite dot_product_zeros. unfold fmax, fmin. decide_reals.
Qed.

Lemma best_match_zeros_settled (d : nat) (centroids : list (list R)) (i : nat) (b : Z) :
  Embedder.best_match (repeat 0 d) centroids i 0 b = (0, b).
Proof.
  revert i. induction centroids as [| c rest IH]; intros i; cbn [Embedder.best_match];
    [reflexivity |].
  rewrite cosine_similarity_zeros. destruct (Rgt_dec 0 0); [lra | apply IH].
Qed.

Lemma best_match_zeros (d : nat) (centroids : list (list R)) :
  Embedder.best_match (repeat 0 d) centroids 0 (-1) (-1)%Z
  = match centroids with [] => (-1, (-1)%Z) | _ :: _ => (0, 0%Z) end.
Proof.
  destruct centroids as [| c rest]; cbn [Embedder.best_match]; [reflexivity |].
  rewrite cosine_similarity_zeros. destruct (Rgt_dec 0 (-1)); [| lra].
  apply best_match_zeros_settled.
Qed.

Lemma calculate_confidence_zeros e (d : nat) (id : Z) :
  Embedder.calculate_confidence e (repeat 0 d) id = 0.5.
Proof.
  unfold Embedder.calculate_confidence. destruct (_ || _); [reflexivity |].
  rewrite cosine_similarity_zeros. lra.
Qed.

(** X13: when the embedder is not initialised or its session throws,
    [extract_embedding] answers the zero vector, and for a threshold that is
    not negative [find_or_create_speaker] never matches that vector to a
    profile on similarity: while there is room it becomes a new profile; at
    capacity it is put on speaker 0; the confidence is 0.5 in every case. *)
Theorem failed_extraction_never_matches
        (e : Embedder.SpeakerEmbedder) (audio_segment : list R) (threshold : R) (M : Z) :
  (Embedder.is_initialized e = false
   \/ exists run, Embedder.session_ e = Some run
                  /\ run (Embedder.prepare_audio_segment e audio_segment) = None) ->
  0 <= threshold ->
  (Z.of_nat (Embedder.get_speaker_count e) <= INT_MAX)%Z ->
  let embedding := Embedder.extract_embedding e audio_segment in
  let r := Embedder.find_or_create_speaker e embedding threshold M in
  embedding = repeat 0 (Embedder.embedding_dim_ e)
  /\ ((Z.of_nat (Embedder.get_speaker_count e) < M)%Z ->
      r = (Embedder.set_speakers e (Embedder.speaker_centroids_ e ++ [embedding])
                                 (Embedder.speaker_counts_ e ++ [1%Z]),
           Z.of_nat (Embedder.get_speaker_count e)))
  /\ ((M <= Z.of_nat (Embedder.get_speaker_count e))%Z -> snd r = 0%Z)
  /\ Embedder.calculate_confidence (fst r) embedding (snd r) = 0.5.
Proof.
  intros Hfail Hthr Hcount. cbv zeta.
  assert (Hz : Embedder.extract_embedding e audio_segment
               = repeat 0 (Embedder.embedding_dim_ e)).
  { unfold Embedder.extract_embedding, Embedder.is_initialized in *.
    destruct Hfail as [Hnone | [run [Hs Hrun]]].
    - destruct (Embedder.session_ e); [discriminate | reflexivity].
    - rewrite Hs, Hrun. reflexivity. }
  rewrite Hz. split; [reflexivity |].
  split; [| split; [| apply calculate_confidence_zeros]].
  - intros Hroom. unfold Embedder.find_or_create_speaker, Embedder.get_speaker_count in *.
    rewrite best_match_zeros, wrap_int_small by (unfold INT_MAX in *; lia).
    replace (Z.of_nat (length (Embedder.speaker_centroids_ e)) <? M)%Z with true
      by (symmetry; apply Z.ltb_lt; exact Hroom).
    assert (Hg0 : gtb 0 threshold = false) by (apply gtb_false_iff; lra).
    assert (Hg1 : gtb (-1) threshold = false) by (apply gtb_false_iff; lra).
    cbn [Embedder.set_speakers Embedder.speaker_centroids_].
    rewrite length_app. cbn [length].
    replace (length (Embedder.speaker_centroids_ e) + 1 - 1)%nat
      with (length (Embedder.speaker_centroids_ e)) by lia.
    rewrite wrap_int_small by (unfold INT_MAX in *; lia).
    destruct (Embedder.speaker_centroids_ e); [rewrite Hg1 | rewrite Hg0]; reflexivity.
  - intros Hfull. unfold Embedder.find_or_create_speaker, Embedder.get_speaker_count in *.
    rewrite best_match_zeros, wrap_int_small by (unfold INT_MAX in *; lia).
    replace (Z.of_nat (length (Embedder.speaker_centroids_ e)) <? M)%Z with false
      by (symmetry; apply Z.ltb_ge; exact Hfull).
    assert (Hg0 : gtb 0 threshold = false) by (apply gtb_false_iff; lra).
    assert (Hg1 : gtb (-1) threshold = false) by (apply gtb_false_iff; lra).
    destruct (Embedder.speaker_centroids_ e); [rewrite Hg1 | rewrite Hg0]; reflexivity.
Qed.

Lemma failed_extraction_never_matches_witness :
  Embedder.extract_embedding one_profile one_second
  = repeat 0 (Embedder.embedding_dim_ one_profile)
  /\ ((Z.of_nat (Embedder.get_speaker_count one_profile) < 1)%Z ->
      Embedder.find_or_create_speaker one_profile (Embedder.extract_embedding one_profile one_second) 0.3 1
      = (Embedder.set_speakers one_profile
           (Embedder.speaker_centroids_ one_profile ++ [Embedder.extract_embedding one_profile one_second])
           (Embedder.speaker_counts_ one_profile ++ [1%Z]),
         Z.of_nat (Embedder.get_speaker_count one_profile)))
  /\ ((1 <= Z.of_nat (Embedder.get_speaker_count one_profile))%Z ->
      snd (Embedder.find_or_create_speaker one_profile
          (Embedder.extract_embedding one_profile one_second) 0.3 1) = 0%Z)
  /\ Embedder.calculate_confidence
       (fst (Embedder.find_or_create_speaker one_profile
          (Embedder.extract_embedding one_profile one_second) 0.3 1))
       (Embedder.extract_embedding one_profile one_second)
       (snd (Embedder.find_or_create_speaker one_profile
          (Embedder.extract_embedding one_profile one_second) 0.3 1)) = 0.5.
Proof.
  apply (failed_extraction_never_matches one_profile one_second 0.3 1).
  - left. reflexivity.
  - lra.
  - unfold INT_MAX. cbn. lia.
Defined.


(* ------------------------------------------------------------------ *)
(** ** [find_or_create_speaker]: one profile at a time *)

Lemma nth_set_nth_other {A : Type} (i j : nat) (x d : A) (l : list A) :
  i <> j -> nth j (set_nth i x l) d = nth j l d.
Proof.
  revert i j. induction l as [| y r IH]; intros [| i] [| j] Hne; cbn; try reflexivity;
    try congruence.
  apply IH. congruence.
Qed.

Lemma nth_set_nth_same {A : Type} (i : nat) (x d : A) (l : list A) :
  (i < length l)%nat -> nth i (set_nth i x l) d = x.
Proof.
  revert i. induction l as [| y r IH]; intros [| i] Hi; cbn in *; try lia; try reflexivity.
  apply IH. lia.
Qed.

Lemma update_speaker_centroid_local e (id : nat) embedding :
  (id < Embedder.get_speaker_count e)%nat ->
  length (Embedder.speaker_centroids_ e) = length (Embedder.speaker_counts_ e) ->
  let e' := Embedder.update_speaker_centroid e (Z.of_nat id) embedding in
  (forall j, j <> id ->
             nth j (Embedder.speaker_centroids_ e') [] = nth j (Embedder.speaker_centroids_ e) []
             /\ nth j (Embedder.speaker_counts_ e') 0%Z = nth j (Embedder.speaker_counts_ e) 0%Z)
  /\ nth id (Embedder.speaker_counts_ e') 0%Z = (nth id (Embedder.speaker_counts_ e) 0 + 1)%Z.
Proof.
  unfold Embedder.get_speaker_count. intros Hid Hlen. cbv zeta.
  unfold Embedder.update_speaker_centroid.
  replace (Z.of_nat id <? 0)%Z with false by (symmetry; apply Z.ltb_ge; lia).
  replace (Z.of_nat (length (Embedder.speaker_centroids_ e)) <=? Z.of_nat id)%Z with false
    by (symmetry; apply Z.leb_gt; lia).
  cbn [orb Embedder.set_speakers Embedder.speaker_centroids_ Embedder.speaker_counts_].
  rewrite Nat2Z.id. split.
  - intros j Hj. split; apply nth_set_nth_other; congruence.
  - apply nth_set_nth_same. lia.
Qed.

(** X14: a call of [find_or_create_speaker] changes at most the profile
    whose id it returns: every other profile keeps its centroid and its
    sample count; and, whatever the speaker set was (empty too), unless the
    call leaves it as it was the returned profile has one sample more than
    before (one, when it is new). *)
Theorem find_or_create_touches_one_profile
        (e : Embedder.SpeakerEmbedder) (embedding : list R) (threshold : R) (M : Z) :
  (Z.of_nat (Embedder.get_speaker_count e) <= INT_MAX)%Z ->
  length (Embedder.speaker_centroids_ e) = length (Embedder.speaker_counts_ e) ->
  (forall j,
      (j < Embedder.get_speaker_count e)%nat ->
      Z.of_nat j <> snd (Embedder.find_or_create_speaker e embedding threshold M) ->
      nth j (Embedder.speaker_centroids_
               (fst (Embedder.find_or_create_speaker e embedding threshold M))) []
      = nth j (Embedder.speaker_centroids_ e) []
      /\ nth j (Embedder.speaker_counts_
                  (fst (Embedder.find_or_create_speaker e embedding threshold M))) 0%Z
         = nth j (Embedder.speaker_counts_ e) 0%Z)
  /\ (fst (Embedder.find_or_create_speaker e embedding threshold M) = e
      \/ nth (Z.to_nat (snd (Embedder.find_or_create_speaker e embedding threshold M)))
             (Embedder.speaker_counts_
                (fst (Embedder.find_or_create_speaker e embedding threshold M))) 0%Z
         = (nth (Z.to_nat (snd (Embedder.find_or_create_speaker e embedding threshold M)))
                (Embedder.speaker_counts_ e) 0 + 1)%Z).
Proof.
  intros Hsize Hlen.
  pose proof (find_or_create_cases e embedding threshold M Hsize) as Hcases.
  cbv zeta in Hcases. unfold Embedder.get_speaker_count.
  destruct Hcases as [[i [[Hi _] [_ ->]]] | [[_ ->] | [[_ [i [[Hi _] [_ ->]]]] | [_ [_ ->]]]]];
    cbn [fst snd].
  - destruct (update_speaker_centroid_local e i embedding Hi Hlen) as [Hother Hsame].
    cbv zeta in Hother, Hsame. split; [intros j Hj Hne; apply Hother; lia |].
    right. rewrite Nat2Z.id. exact Hsame.
  - cbn [Embedder.set_speakers Embedder.speaker_centroids_ Embedder.speaker_counts_].
    split; [intros j Hj Hne; split; apply app_nth1; lia |].
    right. rewrite Nat2Z.id, Hlen, nth_middle, nth_overflow by lia. reflexivity.
  - destruct (update_speaker_centroid_local e i embedding Hi Hlen) as [Hother Hsame].
    cbv zeta in Hother, Hsame. split; [intros j Hj Hne; apply Hother; lia |].
    right. rewrite Nat2Z.id. exact Hsame.
  - split; [intros j Hj Hne; split; reflexivity | left; reflexivity].
Qed.

Lemma find_or_create_touches_one_profile_witness :
  (forall j,
      (j < Embedder.get_speaker_count Embedder.new_embedder)%nat ->
      Z.of_nat j <> snd (Embedder.find_or_create_speaker Embedder.new_embedder speaker_a 0.9 2) ->
      nth j (Embedder.speaker_centroids_
               (fst (Embedder.find_or_create_speaker Embedder.new_embedder speaker_a 0.9 2))) []
      = nth j (Embedder.speaker_centroids_ Embedder.new_embedder) []
      /\ nth j (Embedder.speaker_counts_
                  (fst (Embedder.find_or_create_speaker Embedder.new_embedder speaker_a 0.9 2)))
               0%Z
         = nth j (Embedder.speaker_counts_ Embedder.new_embedder) 0%Z)
  /\ (fst (Embedder.find_or_create_speaker Embedder.new_embedder speaker_a 0.9 2)
      = Embedder.new_embedder
      \/ nth (Z.to_nat
                (snd (Embedder.find_or_create_speaker Embedder.new_embedder speaker_a 0.9 2)))
             (Embedder.speaker_counts_
                (fst (Embedder.find_or_create_speaker Embedder.new_embedder speaker_a 0.9 2)))
             0%Z
         = (nth (Z.to_nat
                   (snd (Embedder.find_or_create_speaker Embedder.new_embedder speaker_a 0.9 2)))
                (Embedder.speaker_counts_ Embedder.new_embedder) 0 + 1)%Z).
Proof.
  apply (find_or_create_touches_one_profile Embedder.new_embedder speaker_a 0.9 2).
  - unfold INT_MAX. cbn. lia.
  - reflexivity.
Defined.


(* ------------------------------------------------------------------ *)
(** ** [extract_embedding] *)



(* ------------------------------------------------------------------ *)
(** ** [DiarizationEngine]: labels *)

Lemma find_or_create_id_range e embedding threshold M :
  (0 < M <= INT_MAX)%Z ->
  (Z.of_nat (Embedder.get_speaker_count e) <= M)%Z ->
  let r := Embedder.find_or_create_speaker e embedding threshold M in
  (Z.of_nat (Embedder.get_speaker_count (fst r)) <= M)%Z /\ (0 <= snd r < M)%Z.
Proof.
  intros HM Hinv r.
  destruct (find_or_create_step e embedding threshold M) as [Hcount Hcases];
    [lia | lia |]. fold r in Hcount, Hcases.
  rewrite Z.max_l in Hcount by lia. split; [exact Hcount |].
  destruct Hcases as [[_ [Hlow [Hup | [_ Hzero]]]] | [Hcs Hid]]; try lia.
  unfold Embedder.get_speaker_count in Hcount. rewrite Hcs, length_app in Hcount.
  cbn [length] in Hcount. unfold Embedder.get_speaker_count in Hid. lia.
Qed.

Lemma assign_loop_labels throws threshold options :
  (0 < Engine.max_speakers options <= INT_MAX)%Z ->
  forall segments e i,
    (Z.of_nat (Embedder.get_speaker_count e) <= Engine.max_speakers options)%Z ->
    exists e' labelled,
      Engine.assign_loop throws e threshold options i segments = Some (e', labelled)
      /\ map Engine.samples labelled = map Engine.samples segments
      /\ map Engine.start_time labelled = map Engine.start_time segments
      /\ map Engine.end_time labelled = map Engine.end_time segments
      /\ Forall (Measures.labelled_below (Engine.max_speakers options)) labelled
      /\ (Z.of_nat (Embedder.get_speaker_count e') <= Engine.max_speakers options)%Z.
Proof.
  intros HM. induction segments as [| segment rest IH]; intros e i Hinv.
  - exists e, []. repeat split; try reflexivity; [constructor | exact Hinv].
  - cbn [Engine.assign_loop]. destruct (throws i).
    + rewrite fallback_speaker_positive by exact HM.
      destruct (IH e (S i) Hinv) as [e' [labelled [-> [Hs [Hb [He [Hl Hc]]]]]]].
      eexists _, _. split; [reflexivity |]. cbn [map Engine.samples Engine.start_time
                                                   Engine.end_time].
      rewrite Hs, Hb, He. repeat split; try exact Hc.
      constructor; [| exact Hl].
      exists (Z.of_nat i mod Engine.max_speakers options)%Z, 0.5.
      repeat split; try lra; apply Z.mod_pos_bound; lia.
    + pose proof (find_or_create_id_range e
                    (Embedder.extract_embedding e (Engine.samples segment)) threshold
                    (Engine.max_speakers options) HM Hinv) as Hstep.
      cbv zeta in Hstep.
      destruct (Embedder.find_or_create_speaker e _ threshold _) as [e1 id].
      cbn [fst snd] in Hstep. destruct Hstep as [Hcount Hid].
      destruct (IH e1 (S i) Hcount) as [e' [labelled [-> [Hs [Hb [He [Hl Hc]]]]]]].
      eexists _, _. split; [reflexivity |]. cbn [map Engine.samples Engine.start_time
                                                   Engine.end_time].
      rewrite Hs, Hb, He. repeat split; try exact Hc.
      constructor; [| exact Hl].
      eexists _, _. split; [reflexivity |]. split; [reflexivity |].
      split; [exact Hid | apply calculate_confidence_bounds].
Qed.

(** X16: with an initialised embedder, a limit [0 < max_speakers <=
    INT_MAX] and a speaker set within the limit, [assign_speakers] returns
    and labels every segment: samples and times are kept, in order; every
    speaker id is in [0, max_speakers) and every confidence in [0, 1],
    whether or not iterations end in the handler; the speaker set stays
    within the limit.  With an embedder that is not initialised the segments
    come back as they were. *)
Theorem assign_speakers_labels
        (throws : nat -> bool) (e : Embedder.SpeakerEmbedder)
        (segments : list Engine.AudioSegment) (options : Engine.DiarizeOptions) :
  (0 < Engine.max_speakers options <= INT_MAX)%Z ->
  (Z.of_nat (Embedder.get_speaker_count e) <= Engine.max_speakers options)%Z ->
  (Embedder.is_initialized e = true ->
   exists e' labelled,
     Engine.assign_speakers throws e segments options = Some (e', labelled)
     /\ map Engine.samples labelled = map Engine.samples segments
     /\ map Engine.start_time labelled = map Engine.start_time segments
     /\ map Engine.end_time labelled = map Engine.end_time segments
     /\ Forall (Measures.labelled_below (Engine.max_speakers options)) labelled
     /\ (Z.of_nat (Embedder.get_speaker_count e') <= Engine.max_speakers options)%Z)
  /\ (Embedder.is_initialized e = false ->
      Engine.assign_speakers throws e segments options = Some (e, segments)).
Proof.
  intros HM Hinv. unfold Engine.assign_speakers. split; intros ->; [| reflexivity].
  apply assign_loop_labels; assumption.
Qed.

Lemma assign_speakers_labels_witness :
  (Embedder.is_initialized ready_embedder = true ->
   exists e' labelled,
     Engine.assign_speakers (fun i => Nat.even i) ready_embedder
                            [raw_segment; raw_segment] default_options
     = Some (e', labelled)
     /\ map Engine.samples labelled = map Engine.samples [raw_segment; raw_segment]
     /\ map Engine.start_time labelled = map Engine.start_time [raw_segment; raw_segment]
     /\ map Engine.end_time labelled = map Engine.end_time [raw_segment; raw_segment]
     /\ Forall (Measures.labelled_below (Engine.max_speakers default_options)) labelled
     /\ (Z.of_nat (Embedder.get_speaker_count e')
         <= Engine.max_speakers default_options)%Z)
  /\ (Embedder.is_initialized ready_embedder = false ->
      Engine.assign_speakers (fun i => Nat.even i) ready_embedder
                             [raw_segment; raw_segment] default_options
      = Some (ready_embedder, [raw_segment; raw_segment])).
Proof.
  apply (assign_speakers_labels (fun i => Nat.even i) ready_embedder
           [raw_segment; raw_segment] default_options).
  - unfold INT_MAX. cbn. lia.
  - cbn. lia.
Defined.


(* ------------------------------------------------------------------ *)
(** ** [DiarizationEngine]: what the threshold reaches *)

Lemma inner_detection_threshold (t : R) :
  t <= 1 -> fmax 0.01 (fmax 0.001 (t * 0.1) * 0.1) = 0.01.
Proof. intros Ht. unfold fmax. decide_reals. Qed.

Lemma candidate_points_threshold s audio (a b : R) :
  fmax 0.01 (a * 0.1) = fmax 0.01 (b * 0.1) ->
  Segmenter.candidate_points s audio a = Segmenter.candidate_points s audio b.
Proof. intros H. unfold Segmenter.candidate_points. rewrite H. reflexivity. Qed.

Lemma detect_speaker_changes_low s audio options :
  Engine.threshold options <= 1 ->
  Engine.detect_speaker_changes s audio options
  = Segmenter.detect_change_points s audio 0.
Proof.
  intros Ht. unfold Engine.detect_speaker_changes, Segmenter.detect_change_points.
  destruct (Segmenter.is_initialized s); [| reflexivity].
  f_equal. f_equal. apply candidate_points_threshold.
  rewrite (inner_detection_threshold _ Ht). unfold fmax. decide_reals.
Qed.

(** X17: the change points do not depend on the threshold of the options,
    as long as it is at most 1 (the validation of [main] leaves at most
    0.8): the detection threshold handed down is a tenth of it, of which
    [detect_change_points] takes a tenth again, and the floor 0.01 wins.
    Nor do they depend on the other options. *)
Theorem detection_ignores_threshold
        (s : Segmenter.SpeakerSegmenter) (audio : list R) (o1 o2 : Engine.DiarizeOptions) :
  Engine.threshold o1 <= 1 ->
  Engine.threshold o2 <= 1 ->
  Engine.detect_speaker_changes s audio o1 = Engine.detect_speaker_changes s audio o2.
Proof.
  intros H1 H2. rewrite !detect_speaker_changes_low by assumption. reflexivity.
Qed.

Lemma detection_ignores_threshold_witness :
  Engine.detect_speaker_changes ready_segmenter two_windows
    (Engine.mkOptions 10 0.01 16000)
  = Engine.detect_speaker_changes ready_segmenter two_windows
      (Engine.mkOptions 2 0.7 8000).
Proof.
  apply (detection_ignores_threshold ready_segmenter two_windows
           (Engine.mkOptions 10 0.01 16000) (Engine.mkOptions 2 0.7 8000)).
  - cbn [Engine.threshold]. lra.
  - cbn [Engine.threshold]. lra.
Defined.

Lemma emit_segment_rate audio o1 o2 start end_ :
  Engine.sample_rate o1 = Engine.sample_rate o2 ->
  Engine.emit_segment audio o1 start end_ = Engine.emit_segment audio o2 start end_.
Proof. intros H. unfold Engine.emit_segment, Engine.sample_at. rewrite H. reflexivity. Qed.

Lemma fixed_windows_rate audio o1 o2 total :
  Engine.sample_rate o1 = Engine.sample_rate o2 ->
  forall fuel start,
    Engine.fixed_windows fuel audio o1 total start
    = Engine.fixed_windows fuel audio o2 total start.
Proof.
  intros H. induction fuel as [| fuel IH]; intros start; cbn [Engine.fixed_windows];
    [reflexivity |].
  destruct (Rlt_dec start (total - 5)); [| reflexivity].
  rewrite IH, (emit_segment_rate audio o1 o2 _ _ H). reflexivity.
Qed.

Lemma between_boundaries_rate audio o1 o2 :
  Engine.sample_rate o1 = Engine.sample_rate o2 ->
  forall rest start,
    Engine.between_boundaries audio o1 start rest
    = Engine.between_boundaries audio o2 start rest.
Proof.
  intros H. induction rest as [| end_ rest IH]; intros start;
    cbn [Engine.between_boundaries]; [reflexivity |].
  rewrite IH, (emit_segment_rate audio o1 o2 _ _ H). reflexivity.
Qed.

Lemma create_segments_rate audio change_points o1 o2 :
  Engine.sample_rate o1 = Engine.sample_rate o2 ->
  Engine.create_segments audio change_points o1
  = Engine.create_segments audio change_points o2.
Proof.
  intros H. unfold Engine.create_segments, Engine.total_duration. rewrite H.
  destruct change_points.
  - destruct (Rgt_dec _ 30); [apply fixed_windows_rate; exact H | reflexivity].
  - apply between_boundaries_rate. exact H.
Qed.

Lemma assign_loop_limit throws threshold o1 o2 :
  Engine.max_speakers o1 = Engine.max_speakers o2 ->
  forall segments e i,
    Engine.assign_loop throws e threshold o1 i segments
    = Engine.assign_loop throws e threshold o2 i segments.
Proof.
  intros H. induction segments as [| segment rest IH]; intros e i;
    cbn [Engine.assign_loop]; [reflexivity |].
  rewrite H. destruct (throws i).
  - destruct (Engine.fallback_speaker i _); [| reflexivity]. rewrite IH. reflexivity.
  - destruct (Embedder.find_or_create_speaker _ _ _ _) as [e1 id]. rewrite IH. reflexivity.
Qed.

(** X18: every threshold up to 0.3 gives the same run of [process_audio]:
    two option sets with the same speaker limit and sample rate, and
    thresholds that are both at most 0.3, lead to the same segments, the
    same labels and the same speaker set.  (The detection does not see the
    threshold, and the assignment takes [max(0.3, threshold)].) *)
Theorem process_audio_threshold_plateau
        (throws : nat -> bool) (engine : Pipeline.DiarizationEngine) (audio : list R)
        (o1 o2 : Engine.DiarizeOptions) :
  Engine.max_speakers o1 = Engine.max_speakers o2 ->
  Engine.sample_rate o1 = Engine.sample_rate o2 ->
  Engine.threshold o1 <= 0.3 ->
  Engine.threshold o2 <= 0.3 ->
  Pipeline.process_audio throws engine audio o1
  = Pipeline.process_audio throws engine audio o2.
Proof.
  intros HM Hrate H1 H2. unfold Pipeline.process_audio. cbv zeta.
  rewrite !detect_speaker_changes_low by lra.
  rewrite (create_segments_rate audio _ o1 o2 Hrate).
  unfold Engine.assign_speakers.
  replace (fmax 0.3 (Engine.threshold o1)) with 0.3 by (unfold fmax; decide_reals).
  replace (fmax 0.3 (Engine.threshold o2)) with 0.3 by (unfold fmax; decide_reals).
  rewrite (assign_loop_limit throws 0.3 o1 o2 HM). reflexivity.
Qed.

Lemma process_audio_threshold_plateau_witness :
  Pipeline.process_audio (fun _ => false)
    (Pipeline.mkEngine ready_segmenter ready_embedder) two_windows
    (Engine.mkOptions 10 0.01 16000)
  = Pipeline.process_audio (fun _ => false)
      (Pipeline.mkEngine ready_segmenter ready_embedder) two_windows
      (Engine.mkOptions 10 0.3 16000).
Proof.
  apply (process_audio_threshold_plateau (fun _ => false)
           (Pipeline.mkEngine ready_segmenter ready_embedder) two_windows
           (Engine.mkOptions 10 0.01 16000) (Engine.mkOptions 10 0.3 16000)).
  - reflexivity.
  - reflexivity.
  - cbn [Engine.threshold]. lra.
  - cbn [Engine.threshold]. lra.
Defined.


(* ------------------------------------------------------------------ *)
(** ** [create_segments]: what the segments cover *)



Lemma filter_none {A : Type} (f : A -> bool) (l : list A) :
  (forall x, In x l -> f x = false) -> filter f l = [].
Proof.
  induction l as [| x l IH]; intros H; [reflexivity |].
  cbn [filter]. rewrite (H x (or_introl eq_refl)). apply IH.
  intros y Hy. apply H. right. exact Hy.
Qed.




(** What [emit_segment] holds when it emits. *)
Lemma emit_segment_slice audio options start end_ seg :
  In seg (Engine.emit_segment audio options start end_) ->
  seg = Engine.mkSegment
          (firstn (Engine.sample_at options end_ - Engine.sample_at options start)
                  (skipn (Engine.sample_at options start) audio))
          start end_ None None
  /\ (Engine.sample_at options start < Engine.sample_at options end_ <= length audio)%nat.
Proof.
  unfold Engine.emit_segment. cbv zeta.
  destruct (Nat.leb_spec (Engine.sample_at options end_) (length audio)) as [Hend | Hend];
    [| intros []].
  destruct (Nat.ltb_spec (Engine.sample_at options start) (Engine.sample_at options end_))
    as [Hstart | Hstart]; [| intros []].
  cbn [andb]. intros [<- | []]. split; [reflexivity | lia].
Qed.





Lemma between_boundaries_slices audio options :
  forall rest start,
    Forall (fun seg =>
              In (Engine.start_time seg, Engine.end_time seg) (combine (start :: rest) rest)
              /\ 2 <= Engine.end_time seg - Engine.start_time seg
              /\ Engine.samples seg
                 = firstn (Engine.sample_at options (Engine.end_time seg)
                           - Engine.sample_at options (Engine.start_time seg))
                          (skipn (Engine.sample_at options (Engine.start_time seg)) audio)
              /\ (Engine.sample_at options (Engine.start_time seg)
                  < Engine.sample_at options (Engine.end_time seg) <= length audio)%nat)
           (Engine.between_boundaries audio options start rest).
Proof.
  induction rest as [| end_ rest IH]; intros start; cbn [Engine.between_boundaries];
    [constructor |].
  apply Forall_app. split.
  - destruct (Rlt_dec (end_ - start) 2) as [Hshort | Hlong]; [constructor |].
    apply Forall_forall. intros seg Hin.
    apply emit_segment_slice in Hin. destruct Hin as [-> Hrange].
    cbn [Engine.start_time Engine.end_time Engine.samples combine].
    split; [left; reflexivity |]. split; [lra |]. split; [reflexivity | exact Hrange].
  - eapply Forall_impl; [| apply IH].
    intros seg [Hin Hrest]. split; [| exact Hrest]. cbn [combine]. right. exact Hin.
Qed.

Lemma between_boundaries_ordered audio options :
  forall rest start,
    Sorted Rle (start :: rest) ->
    StronglySorted (fun a b => Engine.end_time a <= Engine.start_time b)
                   (Engine.between_boundaries audio options start rest)
    /\ Forall (fun seg => start <= Engine.start_time seg)
              (Engine.between_boundaries audio options start rest).
Proof.
  induction rest as [| end_ rest IH]; intros start Hsorted;
    cbn [Engine.between_boundaries]; [split; constructor |].
  inversion Hsorted as [| ? ? Hrest Hhd]; subst.
  inversion Hhd as [| ? ? Hle]; subst.
  destruct (IH end_ Hrest) as [IHs IHf].
  assert (Hlater : Forall (fun seg => start <= Engine.start_time seg)
                          (Engine.between_boundaries audio options end_ rest)).
  { eapply Forall_impl; [| exact IHf]. cbv beta. intros seg H. lra. }
  destruct (Rlt_dec (end_ - start) 2) as [Hshort | Hlong]; cbn [app];
    [split; assumption |].
  unfold Engine.emit_segment. cbv zeta. destruct (_ && _); cbn [app];
    [| split; assumption].
  split.
  - constructor; [exact IHs |]. cbn [Engine.end_time]. exact IHf.
  - constructor; [cbn [Engine.start_time]; lra | exact Hlater].
Qed.

(** X20: with at least one change point, every segment of
    [create_segments] spans one stretch between two consecutive boundaries
    of [0, change points..., total_duration] and holds exactly the samples
    between the positions of its two times, at least one and all inside the
    buffer (a stretch whose positions fail that is dropped); when the
    boundaries are in ascending order the segments are too, and no two of
    them overlap. *)
Theorem create_segments_between_change_points
        (audio : list R) (change_points : list R) (options : Engine.DiarizeOptions) :
  change_points <> [] ->
  Forall (fun seg =>
            In (Engine.start_time seg, Engine.end_time seg)
               (combine (0 :: change_points)
                        (change_points ++ [Engine.total_duration audio options]))
            /\ Engine.samples seg
               = firstn (Engine.sample_at options (Engine.end_time seg)
                         - Engine.sample_at options (Engine.start_time seg))
                        (skipn (Engine.sample_at options (Engine.start_time seg)) audio)
            /\ (Engine.sample_at options (Engine.start_time seg)
                < Engine.sample_at options (Engine.end_time seg) <= length audio)%nat)
         (Engine.create_segments audio change_points options)
  /\ (Sorted Rle (0 :: change_points ++ [Engine.total_duration audio options]) ->
      StronglySorted (fun a b => Engine.end_time a <= Engine.start_time b)
                     (Engine.create_segments audio change_points options)).
Proof.
  intros Hne.
  assert (Heq : Engine.create_segments audio change_points options
                = Engine.between_boundaries audio options 0
                    (change_points ++ [Engine.total_duration audio options])).
  { unfold Engine.create_segments. destruct change_points; [contradiction | reflexivity]. }
  assert (Hcomb : combine (0 :: change_points)
                          (change_points ++ [Engine.total_duration audio options])
                  = combine (0 :: change_points ++ [Engine.total_duration audio options])
                            (change_points ++ [Engine.total_duration audio options])).
  { generalize (Engine.total_duration audio options) as t. generalize 0 as a.
    clear. induction change_points as [| c cs IH]; intros a t; [reflexivity |].
    cbn [app combine]. f_equal. apply (IH c t). }
  rewrite Heq, Hcomb. split.
  - eapply Forall_impl; [| apply between_boundaries_slices].
    cbv beta. intros seg [Hin [_ Hslice]]. split; assumption.
  - intros Hsorted. apply (between_boundaries_ordered audio options _ 0 Hsorted).
Qed.

Lemma create_segments_between_change_points_witness :
  Forall (fun seg =>
            In (Engine.start_time seg, Engine.end_time seg)
               (combine (0 :: [10; 11; 30])
                        ([10; 11; 30]
                         ++ [Engine.total_duration forty_seconds default_options]))
            /\ Engine.samples seg
               = firstn (Engine.sample_at default_options (Engine.end_time seg)
                         - Engine.sample_at default_options (Engine.start_time seg))
                        (skipn (Engine.sample_at default_options (Engine.start_time seg))
                               forty_seconds)
            /\ (Engine.sample_at default_options (Engine.start_time seg)
                < Engine.sample_at default_options (Engine.end_time seg)
                <= length forty_seconds)%nat)
         (Engine.create_segments forty_seconds [10; 11; 30] default_options)
  /\ (Sorted Rle (0 :: [10; 11; 30]
                    ++ [Engine.total_duration forty_seconds default_options]) ->
      StronglySorted (fun a b => Engine.end_time a <= Engine.start_time b)
                     (Engine.create_segments forty_seconds [10; 11; 30] default_options)).
Proof.
  apply (create_segments_between_change_points forty_seconds [10; 11; 30] default_options).
  discriminate.
Defined.


(* ------------------------------------------------------------------ *)
(** ** [process_audio]: the whole run *)

(** X21: with an initialised embedder, a limit [0 < max_speakers <=
    INT_MAX] and a speaker set within the limit, [process_audio] returns:
    the segments are those of [create_segments] on the detected change
    points, same samples and times in the same order, each labelled with an
    id in [0, max_speakers) and a confidence in [0, 1]; the segmenter is left
    as it was and the speaker set stays within the limit. *)
Theorem process_audio_labels
        (throws : nat -> bool) (engine : Pipeline.DiarizationEngine) (audio : list R)
        (options : Engine.DiarizeOptions) :
  Embedder.is_initialized (Pipeline.embedder_ engine) = true ->
  (0 < Engine.max_speakers options <= INT_MAX)%Z ->
  (Z.of_nat (Embedder.get_speaker_count (Pipeline.embedder_ engine))
   <= Engine.max_speakers options)%Z ->
  exists engine' segments,
    Pipeline.process_audio throws engine audio options = Some (engine', segments)
    /\ Pipeline.segmenter_ engine' = Pipeline.segmenter_ engine
    /\ (Z.of_nat (Embedder.get_speaker_count (Pipeline.embedder_ engine'))
        <= Engine.max_speakers options)%Z
    /\ Forall (Measures.labelled_below (Engine.max_speakers options)) segments
    /\ map Engine.samples segments
       = map Engine.samples
           (Engine.create_segments audio
              (Engine.detect_speaker_changes (Pipeline.segmenter_ engine) audio options)
              options)
    /\ map Engine.start_time segments
       = map Engine.start_time
           (Engine.create_segments audio
              (Engine.detect_speaker_changes (Pipeline.segmenter_ engine) audio options)
              options)
    /\ map Engine.end_time segments
       = map Engine.end_time
           (Engine.create_segments audio
              (Engine.detect_speaker_changes (Pipeline.segmenter_ engine) audio options)
              options).
Proof.
  intros Hinit HM Hcount. unfold Pipeline.process_audio, Engine.assign_speakers. cbv zeta.
  rewrite Hinit.
  destruct (assign_loop_labels throws (fmax 0.3 (Engine.threshold options)) options HM
              (Engine.create_segments audio
                 (Engine.detect_speaker_changes (Pipeline.segmenter_ engine) audio options)
                 options)
              (Pipeline.embedder_ engine) 0%nat Hcount)
    as [e' [labelled [-> [Hs [Hb [He [Hl Hc]]]]]]].
  eexists _, _. split; [reflexivity |]. cbn [Pipeline.segmenter_ Pipeline.embedder_].
  repeat split; assumption.
Qed.

Lemma process_audio_labels_witness :
  exists engine' segments,
    Pipeline.process_audio (fun _ => false)
      (Pipeline.mkEngine ready_segmenter ready_embedder) two_windows default_options
    = Some (engine', segments)
    /\ Pipeline.segmenter_ engine'
       = Pipeline.segmenter_ (Pipeline.mkEngine ready_segmenter ready_embedder)
    /\ (Z.of_nat (Embedder.get_speaker_count (Pipeline.embedder_ engine'))
        <= Engine.max_speakers default_options)%Z
    /\ Forall (Measures.labelled_below (Engine.max_speakers default_options)) segments
    /\ map Engine.samples segments
       = map Engine.samples
           (Engine.create_segments two_windows
              (Engine.detect_speaker_changes
                 (Pipeline.segmenter_ (Pipeline.mkEngine ready_segmenter ready_embedder))
                 two_windows default_options)
              default_options)
    /\ map Engine.start_time segments
       = map Engine.start_time
           (Engine.create_segments two_windows
              (Engine.detect_speaker_changes
                 (Pipeline.segmenter_ (Pipeline.mkEngine ready_segmenter ready_embedder))
                 two_windows default_options)
              default_options)
    /\ map Engine.end_time segments
       = map Engine.end_time
           (Engine.create_segments two_windows
              (Engine.detect_speaker_changes
                 (Pipeline.segmenter_ (Pipeline.mkEngine ready_segmenter ready_embedder))
                 two_windows default_options)
              default_options).
Proof.
  apply (process_audio_labels (fun _ => false)
           (Pipeline.mkEngine ready_segmenter ready_embedder) two_windows default_options).
  - reflexivity.
  - unfold INT_MAX. cbn. lia.
  - cbn. lia.
Defined.

Lemma detect_change_points_short (s : Segmenter.SpeakerSegmenter) (audio : list R)
      (threshold : R) :
  (length audio <= Segmenter.window_size_ s)%nat ->
  (Z.of_nat (length audio) <= wrap_size (Segmenter.sample_rate_ s * 10))%Z ->
  Segmenter.detect_change_points s audio threshold = [].
Proof.
  intros Hshort Hten. unfold Segmenter.detect_change_points.
  destruct (Segmenter.is_initialized s); [| reflexivity].
  unfold Segmenter.candidate_points. cbv zeta.
  rewrite (all_probabilities_short s audio Hshort).
  replace (_ <? _)%Z with false by (symmetry; apply Z.ltb_ge; exact Hten).
  reflexivity.
Qed.

(** X22: a recording of at most [window_size_] samples (3.2 s at 16 kHz)
    that is also at most ten seconds of the segmenter's rate and at most
    30 s of the options' rate is never scanned: with an initialised
    embedder, an empty speaker set and a limit of at least 1,
    [process_audio] returns exactly one segment, the whole recording from
    0 to its duration, labelled speaker 0, whether or not the iteration
    ends in the handler. *)
Theorem short_recording_single_speaker
        (throws : nat -> bool) (engine : Pipeline.DiarizationEngine) (audio : list R)
        (options : Engine.DiarizeOptions) :
  (length audio <= Segmenter.window_size_ (Pipeline.segmenter_ engine))%nat ->
  (Z.of_nat (length audio)
   <= wrap_size (Segmenter.sample_rate_ (Pipeline.segmenter_ engine) * 10))%Z ->
  Engine.total_duration audio options <= 30 ->
  Embedder.is_initialized (Pipeline.embedder_ engine) = true ->
  Embedder.get_speaker_count (Pipeline.embedder_ engine) = 0%nat ->
  (1 <= Engine.max_speakers options <= INT_MAX)%Z ->
  exists engine' c,
    Pipeline.process_audio throws engine audio options
    = Some (engine',
            [Engine.mkSegment audio 0 (Engine.total_duration audio options)
                              (Some 0%Z) (Some c)])
    /\ 0 <= c <= 1.
Proof.
  intros Hshort Hten Htotal Hinit Hempty HM.
  unfold Pipeline.process_audio, Engine.detect_speaker_changes. cbv zeta.
  assert (Hnone : (if Segmenter.is_initialized (Pipeline.segmenter_ engine)
                   then Segmenter.detect_change_points (Pipeline.segmenter_ engine) audio
                          (fmax 0.001 (Engine.threshold options * 0.1))
                   else []) = []).
  { destruct (Segmenter.is_initialized _); [| reflexivity].
    apply detect_change_points_short; assumption. }
  rewrite Hnone. unfold Engine.create_segments.
  destruct (Rgt_dec (Engine.total_duration audio options) 30); [lra |].
  unfold Engine.assign_speakers. rewrite Hinit. cbn [Engine.assign_loop].
  destruct (throws 0%nat).
  - rewrite fallback_speaker_positive by lia. rewrite Z.mod_0_l by lia.
    eexists _, 0.5. split; [reflexivity | lra].
  - unfold Embedder.get_speaker_count in Hempty. apply length_zero_iff_nil in Hempty.
    unfold Embedder.find_or_create_speaker. rewrite Hempty.
    cbn [Embedder.best_match length Z.of_nat]. rewrite andb_false_r.
    replace (wrap_int 0 <? Engine.max_speakers options)%Z with true
      by (symmetry; apply Z.ltb_lt; cbn; lia).
    cbn [Embedder.set_speakers Embedder.speaker_centroids_ app length Nat.sub Z.of_nat
         Engine.samples Engine.start_time Engine.end_time].
    change (wrap_int 0) with 0%Z.
    eexists _, _. split; [reflexivity | apply calculate_confidence_bounds].
Qed.

Lemma short_recording_single_speaker_witness :
  exists engine' c,
    Pipeline.process_audio (fun _ => false)
      (Pipeline.mkEngine ready_segmenter ready_embedder) one_second default_options
    = Some (engine',
            [Engine.mkSegment one_second 0
               (Engine.total_duration one_second default_options) (Some 0%Z) (Some c)])
    /\ 0 <= c <= 1.
Proof.
  apply (short_recording_single_speaker (fun _ => false)
           (Pipeline.mkEngine ready_segmenter ready_embedder) one_second default_options).
  - unfold one_second. rewrite repeat_length. cbn [Pipeline.segmenter_].
    change (Segmenter.window_size_ ready_segmenter) with (Z.to_nat 51200). lia.
  - unfold one_second. rewrite repeat_length. cbn [Pipeline.segmenter_].
    change (Segmenter.sample_rate_ ready_segmenter) with 16000%Z.
    unfold wrap_size. rewrite Z2Nat.id by lia. rewrite Z.mod_small; lia.
  - rewrite one_second_duration. lra.
  - reflexivity.
  - reflexivity.
  - unfold INT_MAX. cbn. lia.
Defined.


(* ------------------------------------------------------------------ *)
(** ** [Utils::Math::find_peaks] *)

Lemma filter_seq_sorted (keep : nat -> bool) (m k : nat) :
  StronglySorted lt (filter keep (seq k m)).
Proof.
  revert k. induction m as [| m IH]; intros k; cbn [seq filter]; [constructor |].
  destruct (keep k); [| apply IH].
  constructor; [apply IH |].
  apply Forall_forall. intros j Hj. apply filter_In in Hj. destruct Hj as [Hj _].
  apply in_seq in Hj. lia.
Qed.

Lemma StronglySorted_strengthen {A : Type} (P Q : A -> A -> Prop) (l : list A) :
  StronglySorted P l ->
  (forall x y, In x l -> In y l -> P x y -> Q x y) ->
  StronglySorted Q l.
Proof.
  induction 1 as [| x l Hl IH Hx]; intros HPQ; constructor.
  - apply IH. intros a b Ha Hb. apply HPQ; right; assumption.
  - rewrite Forall_forall in *. intros y Hy.
    apply HPQ; [left; reflexivity | right; exact Hy | apply Hx; exact Hy].
Qed.

Lemma is_local_maximum_spec (signal : list R) (i min_distance : nat) :
  (min_distance <= i)%nat ->
  Utils.is_local_maximum signal i min_distance = true <->
  (forall j, (i - min_distance <= j <= i + min_distance)%nat -> j <> i ->
             nth j signal 0 < nth i signal 0).
Proof.
  intros Hi. unfold Utils.is_local_maximum. rewrite forallb_forall. split.
  - intros H j Hj Hne. specialize (H j). rewrite in_seq in H.
    specialize (H ltac:(lia)).
    apply orb_true_iff in H. destruct H as [H | H];
      [apply Nat.eqb_eq in H; contradiction |].
    unfold geb in H. destruct (Rge_dec (nth j signal 0) (nth i signal 0)); [discriminate | lra].
  - intros H j Hj. apply in_seq in Hj.
    destruct (Nat.eqb_spec j i) as [| Hne]; [reflexivity |]. cbn [orb].
    specialize (H j ltac:(lia) Hne). unfold geb.
    destruct (Rge_dec (nth j signal 0) (nth i signal 0)); [lra | reflexivity].
Qed.

Lemma find_peaks_In (signal : list R) (threshold : R) (min_distance i : nat) :
  In i (filter (fun i => gtb (nth i signal 0) threshold
                         && Utils.is_local_maximum signal i min_distance)
               (seq min_distance (length signal - min_distance - min_distance))) <->
  (min_distance <= i /\ i + min_distance < length signal)%nat
  /\ nth i signal 0 > threshold
  /\ (forall j, (i - min_distance <= j <= i + min_distance)%nat -> j <> i ->
                nth j signal 0 < nth i signal 0).
Proof.
  rewrite filter_In, in_seq, andb_true_iff, gtb_true_iff. split.
  - intros [Hr [Ht Hm]]. assert (Hi : (min_distance <= i)%nat) by lia.
    rewrite (is_local_maximum_spec signal i min_distance Hi) in Hm.
    split; [lia |]. split; assumption.
  - intros [Hr [Ht Hm]]. split; [lia |]. split; [exact Ht |].
    apply is_local_maximum_spec; [lia | exact Hm].
Qed.

(** X23: on a signal of at least [min_distance] samples
    [Utils::Math::find_peaks] is defined and returns, in ascending order,
    exactly the indices [min_distance <= i < size - min_distance] whose
    sample is above the threshold and strictly above every other sample
    within [min_distance]; any two of them are more than [min_distance]
    apart. *)
Theorem find_peaks_spaced (signal : list R) (threshold : R) (min_distance : nat) :
  (min_distance <= length signal)%nat ->
  exists peaks,
    Utils.find_peaks signal threshold min_distance = Some peaks
    /\ StronglySorted (fun i j => (i + min_distance < j)%nat) peaks
    /\ (forall i,
           In i peaks <->
           (min_distance <= i /\ i + min_distance < length signal)%nat
           /\ nth i signal 0 > threshold
           /\ (forall j, (i - min_distance <= j <= i + min_distance)%nat -> j <> i ->
                         nth j signal 0 < nth i signal 0)).
Proof.
  intros Hsize. unfold Utils.find_peaks.
  replace (length signal <? min_distance)%nat with false
    by (symmetry; apply Nat.ltb_ge; exact Hsize).
  eexists. split; [reflexivity |]. split; [| apply find_peaks_In].
  apply (StronglySorted_strengthen lt); [apply filter_seq_sorted |].
  intros i j Hi Hj Hlt.
  apply find_peaks_In in Hi. destruct Hi as [Hir [_ Him]].
  apply find_peaks_In in Hj. destruct Hj as [Hjr [_ Hjm]].
  destruct (Nat.lt_ge_cases (i + min_distance) j) as [Hfar | Hnear]; [exact Hfar |].
  exfalso.
  specialize (Him j ltac:(lia) ltac:(lia)).
  specialize (Hjm i ltac:(lia) ltac:(lia)). lra.
Qed.

Lemma find_peaks_spaced_witness :
  exists peaks,
    Utils.find_peaks MoreInputs.two_peaks 0.5 2 = Some peaks
    /\ StronglySorted (fun i j => (i + 2 < j)%nat) peaks
    /\ (forall i,
           In i peaks <->
           (2 <= i /\ i + 2 < length MoreInputs.two_peaks)%nat
           /\ nth i MoreInputs.two_peaks 0 > 0.5
           /\ (forall j, (i - 2 <= j <= i + 2)%nat -> j <> i ->
                         nth j MoreInputs.two_peaks 0 < nth i MoreInputs.two_peaks 0)).
Proof.
  apply (find_peaks_spaced MoreInputs.two_peaks 0.5 2). cbn. lia.
Defined.


(* ------------------------------------------------------------------ *)
(** ** [Utils::Audio] *)

Lemma fmax_scale (a b c : R) : 0 < c -> fmax (a / c) (b / c) = fmax a b / c.
Proof.
  intros Hc. assert (Hi : 0 < / c) by (apply Rinv_0_lt_compat; exact Hc).
  unfold fmax, Rdiv.
  destruct (Rlt_dec (a * / c) (b * / c)) as [H1 | H1], (Rlt_dec a b) as [H2 | H2];
    try reflexivity; exfalso; nra.
Qed.

Lemma Rabs_scale (x c : R) : 0 < c -> Rabs (x / c) = Rabs x / c.
Proof.
  intros Hc. unfold Rdiv. rewrite Rabs_mult, (Rabs_right (/ c)); [reflexivity |].
  left. apply Rinv_0_lt_compat. exact Hc.
Qed.

Lemma peak_scale (l : list R) (m0 c : R) :
  0 < c ->
  fold_left (fun m sample => fmax m (Rabs sample)) (map (fun sample => sample / c) l) (m0 / c)
  = fold_left (fun m sample => fmax m (Rabs sample)) l m0 / c.
Proof.
  intros Hc. revert m0. induction l as [| x l IH]; intros m0; cbn [map fold_left];
    [reflexivity |].
  rewrite Rabs_scale, fmax_scale by exact Hc. apply IH.
Qed.

Lemma div_one_id (l : list R) : map (fun sample => sample / 1) l = l.
Proof. rewrite <- (map_id l) at 2. apply map_ext. intros x. field. Qed.

Lemma audio_normalize_audio_eq (audio : list R) :
  Audio.normalize_audio audio
  = if Rgt_dec (Measures.peak audio) 1e-6
    then map (fun sample => sample / Measures.peak audio) audio
    else audio.
Proof. reflexivity. Qed.

(** X24: [Utils::Audio::normalize_audio] keeps the number of samples and
    leaves every sample with magnitude at most 1; audio whose peak is above
    [1e-6] comes out with peak exactly 1, quieter audio is returned as it
    is; normalising twice is normalising once. *)
Theorem audio_normalize_audio_peak (audio : list R) :
  length (Audio.normalize_audio audio) = length audio
  /\ Forall (fun x => Rabs x <= 1) (Audio.normalize_audio audio)
  /\ (Measures.peak audio > 1e-6 -> Measures.peak (Audio.normalize_audio audio) = 1)
  /\ (Measures.peak audio <= 1e-6 -> Audio.normalize_audio audio = audio)
  /\ Audio.normalize_audio (Audio.normalize_audio audio) = Audio.normalize_audio audio.
Proof.
  assert (Hpeak : Measures.peak audio > 1e-6 ->
                  Measures.peak (map (fun sample => sample / Measures.peak audio) audio) = 1).
  { intros Hbig. unfold Measures.peak at 1.
    replace 0 with (0 / Measures.peak audio) at 1 by (field; lra).
    rewrite peak_scale by lra. fold (Measures.peak audio). field. lra. }
  split; [| split; [| split; [| split]]].
  - rewrite audio_normalize_audio_eq.
    destruct (Rgt_dec _ _); [apply length_map | reflexivity].
  - apply peak_scaled_bounded.
  - intros Hbig. rewrite audio_normalize_audio_eq.
    destruct (Rgt_dec (Measures.peak audio) 1e-6); [apply Hpeak; exact Hbig | lra].
  - intros Hsmall. rewrite audio_normalize_audio_eq.
    destruct (Rgt_dec (Measures.peak audio) 1e-6); [lra | reflexivity].
  - rewrite (audio_normalize_audio_eq audio).
    destruct (Rgt_dec (Measures.peak audio) 1e-6) as [Hbig | Hsmall].
    + rewrite audio_normalize_audio_eq, (Hpeak Hbig).
      destruct (Rgt_dec 1 1e-6); [apply div_one_id | lra].
    + rewrite audio_normalize_audio_eq.
      destruct (Rgt_dec (Measures.peak audio) 1e-6); [lra | reflexivity].
Qed.

(** *** Resampling *)








(** The ratio of the rates is rounded before the indices are divided by it:
    from 7 Hz to 1 Hz the ratio is a little over [1/7], the index of the
    second output sample is a little under 7, and so the test lets it
    through and the sample taken is the seventh. *)
Lemma simple_resample_rounded_ratio :
  Audio.simple_resample MoreInputs.eight_samples 7 1 = [1; 7].
Proof.
  unfold Audio.simple_resample. change (7 =? 1)%Z with false. cbv zeta.
  rewrite (round32_IZR 1), (round32_IZR 7) by (cbn; lia).
  assert (Hratio : round32 (1 / 7) = 9586981 / 67108864).
  { rewrite (round32_eval _ (-3) 9586981).
    - simpl. lra.
    - lia.
    - rewrite Rabs_right by lra. simpl. lra.
    - apply (nearest_even_up _ 9586980). simpl. lra. }
  rewrite Hratio.
  assert (Hbound : round32 (INR (length MoreInputs.eight_samples - 1)) = 7).
  { change (length MoreInputs.eight_samples - 1)%nat with 7%nat.
    rewrite INR_IZR_INZ. apply round32_IZR. cbn. lia. }
  rewrite Hbound.
  assert (H0 : round32 (round32 (INR 0) / (9586981 / 67108864)) = 0).
  { change (INR 0) with 0. rewrite round32_0. unfold Rdiv. rewrite Rmult_0_l.
    apply round32_0. }
  assert (H1 : round32 (round32 (INR 1) / (9586981 / 67108864)) = 14680063 / 2097152).
  { change (INR 1) with 1. rewrite (round32_IZR 1) by (cbn; lia).
    rewrite (round32_eval _ 2 14680063).
    - simpl. lra.
    - lia.
    - rewrite Rabs_right by lra. simpl. lra.
    - apply (nearest_even_down _ 14680063). simpl. lra. }
  assert (Hlate : forall i, (2 <= i)%nat ->
                            ~ round32 (round32 (INR i) / (9586981 / 67108864)) < 7).
  { intros i Hi Hlt.
    assert (H7 : round32 7 <= round32 (round32 (INR i) / (9586981 / 67108864))).
    { assert (Hge : 2 <= round32 (INR i)).
      { rewrite <- (round32_IZR 2) by (cbn; lia). apply round32_mono; [lra |].
        change 2 with (INR 2). apply le_INR. exact Hi. }
      apply round32_mono; [lra |].
      apply Rmult_le_reg_r with (9586981 / 67108864); [lra |].
      unfold Rdiv at 2. rewrite Rmult_assoc, Rinv_l, Rmult_1_r by lra. lra. }
    rewrite (round32_IZR 7) in H7 by (cbn; lia). lra. }
  change (length MoreInputs.eight_samples) with 8%nat. cbn [seq flat_map].
  rewrite H0, H1.
  destruct (Rlt_dec 0 7) as [_ | H]; [| lra].
  destruct (Rlt_dec (14680063 / 2097152) 7) as [_ | H]; [| lra].
  repeat match goal with
         | |- context [Rlt_dec (round32 (round32 (INR ?i) / _)) 7] =>
             destruct (Rlt_dec (round32 (round32 (INR i) / (9586981 / 67108864))) 7)
               as [H | _]; [exfalso; apply (Hlate i); [lia | exact H] |]
         end.
  cbn [app]. f_equal; [| f_equal].
  - replace (float_to_size 0) with 0%nat by (symmetry; apply (float_to_size_IZR 0)).
    reflexivity.
  - replace (float_to_size (14680063 / 2097152)) with 6%nat; [reflexivity |].
    unfold float_to_size. rewrite (Zfloor_eq 6) by lra. reflexivity.
Qed.




(* ------------------------------------------------------------------ *)
(** ** [Utils::Json::generate_speaker_stats] *)

Lemma sum_snoc (l : list R) (x : R) : sum (l ++ [x]) = sum l + x.
Proof.
  induction l as [| y l IH]; cbn [app].
  - rewrite sum_cons, !sum_nil. ring.
  - rewrite !sum_cons, IH. ring.
Qed.

Lemma update_keys (id : Z) (f : Json.SpeakerStats -> Json.SpeakerStats) (stats : Json.Stats) :
  StronglySorted Z.lt (map fst stats) ->
  StronglySorted Z.lt (map fst (Json.update id f stats))
  /\ (forall k, In k (map fst (Json.update id f stats)) <-> k = id \/ In k (map fst stats)).
Proof.
  induction stats as [| [k0 v0] rest IH]; intros Hsorted; cbn [Json.update].
  - split; [repeat constructor |]. intros k. cbn. intuition.
  - cbn [map fst] in Hsorted. apply StronglySorted_inv in Hsorted.
    destruct Hsorted as [Hrest Hhd].
    destruct (Z.ltb_spec id k0) as [Hlt | Hge].
    + split.
      * cbn [map fst]. constructor; [constructor; assumption |].
        constructor; [exact Hlt |].
        rewrite Forall_forall in *. intros k Hk. specialize (Hhd k Hk). lia.
      * intros k. cbn. intuition.
    + destruct (Z.eqb_spec id k0) as [-> | Hne].
      * split; [cbn [map fst]; constructor; assumption |].
        intros k. cbn. intuition.
      * destruct (IH Hrest) as [IHs IHk]. split.
        -- cbn [map fst]. constructor; [exact IHs |].
           rewrite Forall_forall in *. intros k Hk. apply IHk in Hk.
           destruct Hk as [-> | Hk]; [lia | apply Hhd; exact Hk].
        -- intros k. cbn [map fst In]. rewrite IHk. intuition.
Qed.

Lemma update_entries (id : Z) (f : Json.SpeakerStats -> Json.SpeakerStats)
      (stats : Json.Stats) (k : Z) (v : Json.SpeakerStats) :
  StronglySorted Z.lt (map fst stats) ->
  In (k, v) (Json.update id f stats) ->
  (k <> id /\ In (k, v) stats)
  \/ (k = id /\ exists v0, In (id, v0) stats /\ v = f v0)
  \/ (k = id /\ ~ In id (map fst stats) /\ v = f (Json.mkStats 0 0 0 0)).
Proof.
  induction stats as [| [k0 v0] rest IH]; intros Hsorted Hin; cbn [Json.update] in Hin.
  - destruct Hin as [Heq | []]. inversion Heq; subst. right. right. cbn. intuition.
  - cbn [map fst] in Hsorted. apply StronglySorted_inv in Hsorted.
    destruct Hsorted as [Hrest Hhd]. rewrite Forall_forall in Hhd.
    destruct (Z.ltb_spec id k0) as [Hlt | Hge].
    + destruct Hin as [Heq | Hin].
      * inversion Heq; subst. right. right. split; [reflexivity |]. split; [| reflexivity].
        cbn [map fst In]. intros [Hk | Hk]; [lia | specialize (Hhd _ Hk); lia].
      * left. split; [| exact Hin].
        destruct Hin as [Heq | Hin]; [inversion Heq; subst; lia |].
        apply (in_map fst) in Hin. cbn [fst] in Hin. specialize (Hhd _ Hin). lia.
    + destruct (Z.eqb_spec id k0) as [-> | Hne].
      * destruct Hin as [Heq | Hin].
        -- inversion Heq; subst. right. left. split; [reflexivity |].
           exists v0. split; [left; reflexivity | reflexivity].
        -- left. split; [| right; exact Hin].
           apply (in_map fst) in Hin. cbn [fst] in Hin. specialize (Hhd _ Hin). lia.
      * destruct Hin as [Heq | Hin].
        -- inversion Heq; subst. left. split; [lia | left; reflexivity].
        -- destruct (IH Hrest Hin) as [[Hk Hi] | [[Hk [w [Hw Hv]]] | [Hk [Hnot Hv]]]].
           ++ left. split; [exact Hk | right; exact Hi].
           ++ right. left. split; [exact Hk |]. exists w. split; [right; exact Hw | exact Hv].
           ++ right. right. split; [exact Hk |]. split; [| exact Hv].
              cbn [map fst In]. intros [Hc | Hc]; [lia | contradiction].
Qed.

Lemma segments_of_snoc (k : Z) (seen : list Engine.AudioSegment) (segment : Engine.AudioSegment)
      (id : Z) :
  Engine.speaker_id segment = Some id ->
  Measures.segments_of k (seen ++ [segment])
  = if (id =? k)%Z then Measures.segments_of k seen ++ [segment]
    else Measures.segments_of k seen.
Proof.
  intros Hid. unfold Measures.segments_of. rewrite filter_app. cbn [filter]. rewrite Hid.
  destruct (id =? k)%Z; [reflexivity | apply app_nil_r].
Qed.

Lemma segments_of_none (k : Z) (seen : list Engine.AudioSegment) :
  (forall segment, In segment seen -> Engine.speaker_id segment <> Some k) ->
  Measures.segments_of k seen = [].
Proof.
  intros Hnone. unfold Measures.segments_of. apply filter_none. intros segment Hin.
  specialize (Hnone segment Hin).
  destruct (Engine.speaker_id segment) as [j |]; [| reflexivity].
  apply Z.eqb_neq. intros ->. apply Hnone. reflexivity.
Qed.

Lemma accumulate_recorded (segments : list Engine.AudioSegment) :
  Forall (fun segment => exists id c,
              Engine.speaker_id segment = Some id /\ Engine.confidence segment = Some c)
         segments ->
  forall seen stats,
    StronglySorted Z.lt (map fst stats) ->
    (forall k, In k (map fst stats) <->
               exists segment, In segment seen /\ Engine.speaker_id segment = Some k) ->
    Forall (Json.recorded seen) stats ->
    exists stats',
      Json.accumulate stats segments = Some stats'
      /\ StronglySorted Z.lt (map fst stats')
      /\ (forall k, In k (map fst stats') <->
                    exists segment, In segment (seen ++ segments)
                                    /\ Engine.speaker_id segment = Some k)
      /\ Forall (Json.recorded (seen ++ segments)) stats'.
Proof.
  induction 1 as [| segment rest [id [c [Hid Hc]]] Hrest IH]; intros seen stats Hsorted Hkeys Hrec.
  - exists stats. rewrite app_nil_r. repeat split; try assumption; apply Hkeys.
  - cbn [Json.accumulate]. rewrite Hid, Hc.
    set (f := Json.add_segment (Engine.end_time segment - Engine.start_time segment) c).
    destruct (update_keys id f stats Hsorted) as [Hsorted' Hkeys'].
    destruct (IH (seen ++ [segment]) (Json.update id f stats) Hsorted') as [stats' [Hacc Hres]].
    + intros k. rewrite Hkeys', Hkeys. split.
      * intros [-> | [s [Hs Hk]]].
        -- exists segment. split; [apply in_or_app; right; left; reflexivity | exact Hid].
        -- exists s. split; [apply in_or_app; left; exact Hs | exact Hk].
      * intros [s [Hs Hk]]. apply in_app_or in Hs. destruct Hs as [Hs | [<- | []]].
        -- right. exists s. split; assumption.
        -- left. congruence.
    + apply Forall_forall. intros [k v] Hin. rewrite Forall_forall in Hrec.
      unfold Json.recorded. cbn [fst snd]. rewrite (segments_of_snoc k seen segment id Hid).
      destruct (update_entries id f stats k v Hsorted Hin)
        as [[Hk Hi] | [[Hk [v0 [Hv0 Hv]]] | [Hk [Hnot Hv]]]].
      * replace (id =? k)%Z with false by (symmetry; apply Z.eqb_neq; lia).
        apply (Hrec (k, v) Hi).
      * subst k v. rewrite Z.eqb_refl.
        destruct (Hrec (id, v0) Hv0) as [H1 [H2 [H3 [H4 H5]]]]. cbn [fst snd] in *.
        rewrite length_app, !map_app. cbn [length map]. rewrite !sum_snoc.
        unfold f, Json.add_segment. cbn [Json.segment_count Json.total_duration
                                         Json.confidence_sum Json.average_confidence].
        rewrite H2, H3, H4, H5, Nat.add_1_r, S_INR.
        unfold Measures.duration, Measures.confidence_of. rewrite Hc.
        repeat split; lia.
      * subst k v. rewrite Z.eqb_refl.
        rewrite (segments_of_none id seen).
        -- cbn [app length map]. rewrite !sum_cons, !sum_nil.
           unfold f, Json.add_segment. cbn [Json.segment_count Json.total_duration
                                            Json.confidence_sum Json.average_confidence].
           unfold Measures.duration, Measures.confidence_of. rewrite Hc.
           repeat split; try lia; try (simpl; ring).
        -- intros s Hs Hk. apply Hnot. apply Hkeys. exists s. split; assumption.
    + exists stats'. rewrite <- app_assoc in Hres. cbn [app] in Hres.
      split; [exact Hacc | exact Hres].
Qed.

(** X26: on segments that all carry their two labels
    [generate_speaker_stats] is defined and returns one entry per distinct
    speaker id, in ascending order of the id; the entry of a speaker counts
    its segments (at least one), adds up their durations and holds the mean
    of their confidences, which lies in [0, 1] when the confidences do. *)
Theorem generate_speaker_stats_per_speaker (segments : list Engine.AudioSegment) :
  Forall (fun segment => exists id c,
              Engine.speaker_id segment = Some id /\ Engine.confidence segment = Some c)
         segments ->
  exists stats,
    Json.generate_speaker_stats segments = Some stats
    /\ StronglySorted Z.lt (map fst stats)
    /\ (forall k, In k (map fst stats) <->
                  exists segment, In segment segments /\ Engine.speaker_id segment = Some k)
    /\ Forall (fun entry =>
                 let mine := Measures.segments_of (fst entry) segments in
                 (1 <= length mine)%nat
                 /\ Json.segment_count (snd entry) = INR (length mine)
                 /\ Json.total_duration (snd entry) = sum (map Measures.duration mine)
                 /\ Json.average_confidence (snd entry)
                    = sum (map Measures.confidence_of mine) / INR (length mine)
                 /\ ((forall segment, In segment mine ->
                                      0 <= Measures.confidence_of segment <= 1) ->
                     0 <= Json.average_confidence (snd entry) <= 1))
              stats.
Proof.
  intros Hlabelled.
  destruct (accumulate_recorded segments Hlabelled [] [])
    as [stats [Hacc [Hsorted [Hkeys Hrec]]]].
  - constructor.
  - intros k. cbn. split; [intros [] | intros [s [[] _]]].
  - constructor.
  - cbn [app] in *. unfold Json.generate_speaker_stats. rewrite Hacc.
    eexists. split; [reflexivity |].
    rewrite map_map. cbn [fst]. split; [exact Hsorted |]. split; [exact Hkeys |].
    apply Forall_forall. intros entry Hin. apply in_map_iff in Hin.
    destruct Hin as [[k v] [<- Hin]]. cbn [fst snd].
    rewrite Forall_forall in Hrec. destruct (Hrec (k, v) Hin) as [H1 [H2 [H3 [H4 H5]]]].
    cbn [fst snd] in *.
    set (mine := Measures.segments_of k segments) in *.
    assert (Hpos : 1 <= INR (length mine)).
    { apply le_INR in H1. simpl in H1. exact H1. }
    unfold Json.with_average. rewrite H2.
    destruct (Rgt_dec (INR (length mine)) 0) as [_ | Hzero]; [| lra].
    cbn [Json.segment_count Json.total_duration Json.average_confidence].
    split; [exact H1 |]. split; [reflexivity |]. split; [exact H3 |].
    rewrite H4. split; [reflexivity |].
    intros Hconf.
    assert (Hlow : 0 <= sum (map Measures.confidence_of mine)).
    { apply sum_nonneg. intros x Hx. apply in_map_iff in Hx.
      destruct Hx as [s [<- Hs]]. apply Hconf. exact Hs. }
    assert (Hup : sum (map Measures.confidence_of mine) <= INR (length mine) * 1).
    { rewrite <- (length_map Measures.confidence_of mine). apply sum_le_bound.
      intros x Hx. apply in_map_iff in Hx.
      destruct Hx as [s [<- Hs]]. apply Hconf. exact Hs. }
    split.
    + apply div_nonneg; lra.
    + apply Rmult_le_reg_r with (INR (length mine)); [lra |].
      unfold Rdiv. rewrite Rmult_assoc, Rinv_l by lra. lra.
Qed.

Lemma generate_speaker_stats_per_speaker_witness :
  exists stats,
    Json.generate_speaker_stats
      MoreInputs.three_labelled
    = Some stats
    /\ StronglySorted Z.lt (map fst stats)
    /\ (forall k, In k (map fst stats) <->
                  exists segment,
                    In segment MoreInputs.three_labelled
                    /\ Engine.speaker_id segment = Some k)
    /\ Forall (fun entry =>
                 (1 <= length (Measures.segments_of (fst entry)
                                 MoreInputs.three_labelled))%nat
                 /\ Json.segment_count (snd entry)
                    = INR (length (Measures.segments_of (fst entry)
                                     MoreInputs.three_labelled))
                 /\ Json.total_duration (snd entry)
                    = sum (map Measures.duration
                             (Measures.segments_of (fst entry)
                                MoreInputs.three_labelled))
                 /\ Json.average_confidence (snd entry)
                    = sum (map Measures.confidence_of
                             (Measures.segments_of (fst entry)
                                MoreInputs.three_labelled))
                      / INR (length (Measures.segments_of (fst entry)
                                       MoreInputs.three_labelled))
                 /\ ((forall segment,
                         In segment
                            (Measures.segments_of (fst entry)
                               MoreInputs.three_labelled) ->
                         0 <= Measures.confidence_of segment <= 1) ->
                     0 <= Json.average_confidence (snd entry) <= 1))
              stats.
Proof.
  apply (generate_speaker_stats_per_speaker
           MoreInputs.three_labelled).
  unfold MoreInputs.three_labelled.
  repeat constructor; eexists _, _; split; reflexivity.
Defined.


(* ------------------------------------------------------------------ *)
(** ** [SpeakerSegmenter::find_peaks] *)

Lemma StronglySorted_map {A B : Type} (P : A -> A -> Prop) (Q : B -> B -> Prop)
      (f : A -> B) (l : list A) :
  StronglySorted P l ->
  (forall x y, In x l -> In y l -> P x y -> Q (f x) (f y)) ->
  StronglySorted Q (map f l).
Proof.
  induction 1 as [| x l Hl IH Hx]; intros HPQ; cbn [map]; constructor.
  - apply IH. intros a b Ha Hb. apply HPQ; right; assumption.
  - rewrite Forall_forall in *. intros y Hy. apply in_map_iff in Hy.
    destruct Hy as [z [<- Hz]].
    apply HPQ; [left; reflexivity | right; exact Hz | apply Hx; exact Hz].
Qed.

Lemma time_point_exact (s : Segmenter.SpeakerSegmenter) (window_start_sample : nat)
      (samples_per_frame : Z) (i : nat) :
  (0 <= samples_per_frame)%Z ->
  (Z.of_nat window_start_sample + Z.of_nat i * samples_per_frame < 2 ^ 64)%Z ->
  WindowPeaks.time_point s window_start_sample samples_per_frame i
  = (INR window_start_sample + INR i * IZR samples_per_frame)
    / IZR (Segmenter.sample_rate_ s).
Proof.
  intros Hspf Hfit. unfold WindowPeaks.time_point.
  rewrite wrap_size_small by nia.
  rewrite plus_IZR, mult_IZR, <- !INR_IZR_INZ. reflexivity.
Qed.

(** X27: [SpeakerSegmenter::find_peaks], for a positive sample rate and
    frame size and sample positions that fit a [size_t]: the times come out
    in ascending order, two of them at least two frames apart, all inside
    the window; and whatever threshold is passed, a strict interior peak
    that is the largest score of the window and above 0.001 is reported.
    A window of fewer than three scores has no peak. *)
Theorem window_find_peaks_times
        (s : Segmenter.SpeakerSegmenter) (probabilities : list R) (threshold : R)
        (window_start_sample : nat) (samples_per_frame : Z) :
  (0 < Segmenter.sample_rate_ s)%Z ->
  (0 < samples_per_frame)%Z ->
  (Z.of_nat window_start_sample + Z.of_nat (length probabilities) * samples_per_frame
   < 2 ^ 64)%Z ->
  StronglySorted
    (fun a b => a + 2 * IZR samples_per_frame / IZR (Segmenter.sample_rate_ s) <= b)
    (WindowPeaks.find_peaks s probabilities threshold window_start_sample samples_per_frame)
  /\ Forall (fun t => INR window_start_sample / IZR (Segmenter.sample_rate_ s) < t
                      /\ t < (INR window_start_sample
                              + INR (length probabilities) * IZR samples_per_frame)
                             / IZR (Segmenter.sample_rate_ s))
            (WindowPeaks.find_peaks s probabilities threshold window_start_sample
                                    samples_per_frame)
  /\ (forall i,
         (1 <= i /\ i + 1 < length probabilities)%nat ->
         (forall j, nth j probabilities 0 <= nth i probabilities 0) ->
         nth i probabilities 0 > 0.001 ->
         nth i probabilities 0 > nth (i - 1) probabilities 0 ->
         nth i probabilities 0 > nth (i + 1) probabilities 0 ->
         In (WindowPeaks.time_point s window_start_sample samples_per_frame i)
            (WindowPeaks.find_peaks s probabilities threshold window_start_sample
                                    samples_per_frame))
  /\ ((length probabilities < 3)%nat ->
      WindowPeaks.find_peaks s probabilities threshold window_start_sample
                             samples_per_frame = []).
Proof.
  intros Hrate Hspf Hfit.
  assert (Hr : 0 < IZR (Segmenter.sample_rate_ s)) by (apply IZR_lt; exact Hrate).
  assert (Hf : 0 < IZR samples_per_frame) by (apply IZR_lt; exact Hspf).
  assert (Hinv : 0 < / IZR (Segmenter.sample_rate_ s)) by (apply Rinv_0_lt_compat; exact Hr).
  assert (Htime : forall i, (i < length probabilities)%nat ->
                            WindowPeaks.time_point s window_start_sample samples_per_frame i
                            = (INR window_start_sample + INR i * IZR samples_per_frame)
                              / IZR (Segmenter.sample_rate_ s)).
  { intros i Hi. apply time_point_exact; nia. }
  unfold WindowPeaks.find_peaks.
  destruct (Nat.ltb_spec (length probabilities) 3) as [Hshort | Hlong].
  { split; [constructor |]. split; [constructor |]. split; [intros i Hi; lia | reflexivity]. }
  cbv zeta. split; [| split; [| split; [| intros; lia]]].
  - apply (StronglySorted_map (fun i j => (i + 2 <= j)%nat)); [apply peak_scan_spaced |].
    intros i j Hi Hj Hij.
    apply peak_scan_In in Hi. apply peak_scan_In in Hj.
    rewrite !Htime by lia. apply le_INR in Hij. rewrite plus_INR in Hij.
    change (INR 2) with (1 + 1) in Hij. unfold Rdiv.
    rewrite <- Rmult_plus_distr_r. apply Rmult_le_compat_r; [lra | nra].
  - apply Forall_forall. intros t Ht. apply in_map_iff in Ht.
    destruct Ht as [i [<- Hi]]. apply peak_scan_In in Hi. destruct Hi as [[Hi1 Hi2] _].
    rewrite Htime by lia.
    assert (H1 : 1 <= INR i) by (apply le_INR in Hi1; simpl in Hi1; exact Hi1).
    assert (H2 : INR i + 1 < INR (length probabilities)).
    { apply lt_INR in Hi2. rewrite plus_INR in Hi2. simpl in Hi2. exact Hi2. }
    unfold Rdiv. split; (apply Rmult_lt_compat_r; [exact Hinv | nra]).
  - intros i Hi Hmax Hfloor Hprev Hnext. apply in_map. apply peak_scan_In.
    split; [exact Hi |]. split; [| split; assumption].
    assert (Hm : max_element probabilities = nth i probabilities 0).
    { apply max_element_eq; [apply nth_In; lia |].
      intros x Hx. apply (In_nth _ _ 0) in Hx. destruct Hx as [j [_ <-]]. apply Hmax. }
    rewrite Hm. unfold fmax, fmin. decide_reals.
Qed.

Lemma window_find_peaks_times_witness :
  StronglySorted
    (fun a b => a + 2 * IZR 320 / IZR (Segmenter.sample_rate_ ready_segmenter) <= b)
    (WindowPeaks.find_peaks ready_segmenter MoreInputs.one_peak 0.5 0 320)
  /\ Forall (fun t => INR 0 / IZR (Segmenter.sample_rate_ ready_segmenter) < t
                      /\ t < (INR 0 + INR (length MoreInputs.one_peak) * IZR 320)
                             / IZR (Segmenter.sample_rate_ ready_segmenter))
            (WindowPeaks.find_peaks ready_segmenter MoreInputs.one_peak 0.5 0 320)
  /\ (forall i,
         (1 <= i /\ i + 1 < length MoreInputs.one_peak)%nat ->
         (forall j, nth j MoreInputs.one_peak 0 <= nth i MoreInputs.one_peak 0) ->
         nth i MoreInputs.one_peak 0 > 0.001 ->
         nth i MoreInputs.one_peak 0 > nth (i - 1) MoreInputs.one_peak 0 ->
         nth i MoreInputs.one_peak 0 > nth (i + 1) MoreInputs.one_peak 0 ->
         In (WindowPeaks.time_point ready_segmenter 0 320 i)
            (WindowPeaks.find_peaks ready_segmenter MoreInputs.one_peak 0.5 0 320))
  /\ ((length MoreInputs.one_peak < 3)%nat ->
      WindowPeaks.find_peaks ready_segmenter MoreInputs.one_peak 0.5 0 320 = []).
Proof.
  apply (window_find_peaks_times ready_segmenter MoreInputs.one_peak 0.5 0 320).
  - cbn. lia.
  - lia.
  - cbn. lia.
Defined.


(* ------------------------------------------------------------------ *)
(** ** [Utils::FileSystem] and [Utils::Args] *)

Section FileExtension.
Import Ascii.

Lemma find_last_of_spec (s : list Ascii.ascii) (c : Ascii.ascii) :
  match FileSystem.find_last_of s c with
  | None => ~ In c s
  | Some pos => exists stem rest, s = stem ++ c :: rest /\ length stem = pos /\ ~ In c rest
  end.
Proof.
  induction s as [| a r IH]; cbn [FileSystem.find_last_of]; [intros [] |].
  destruct (FileSystem.find_last_of r c) as [pos |].
  - destruct IH as [stem [rest [-> [Hlen Hnot]]]].
    exists (a :: stem), rest. cbn [app length]. repeat split; [lia | exact Hnot].
  - destruct (Ascii.eqb_spec a c) as [-> | Hne].
    + exists [], r. repeat split. exact IH.
    + intros [Heq | Hin]; [congruence | contradiction].
Qed.

(** X28: [get_file_extension] returns the part of the path that starts at
    its last dot, the dot included and no other dot inside; a path without
    a dot has the empty extension.  (Nothing else is looked at: a dot in a
    directory name counts when the file name has none.) *)
Theorem get_file_extension_last_dot (file_path : list Ascii.ascii) :
  (~ In "."%char file_path -> FileSystem.get_file_extension file_path = [])
  /\ (In "."%char file_path ->
      exists stem rest,
        file_path = stem ++ "."%char :: rest
        /\ FileSystem.get_file_extension file_path = "."%char :: rest
        /\ ~ In "."%char rest).
Proof.
  unfold FileSystem.get_file_extension.
  pose proof (find_last_of_spec file_path "."%char) as Hspec.
  destruct (FileSystem.find_last_of file_path "."%char) as [pos |].
  - destruct Hspec as [stem [rest [-> [Hlen Hnot]]]]. split.
    + intros Hno. exfalso. apply Hno. apply in_or_app. right. left. reflexivity.
    + intros _. exists stem, rest. split; [reflexivity |]. split; [| exact Hnot].
      rewrite skipn_app, <- Hlen, skipn_all, Nat.sub_diag. reflexivity.
  - split; [reflexivity | intros Hin; contradiction].
Qed.

End FileExtension.

Section ArgumentParsing.
Import String.
Local Open Scope string_scope.

Variable stoi : string -> option Z.
Variable stof : string -> option R.

Lemma flag_keeps (options options' : Args.DiarizeOptions) (arg : string) :
  Args.flag options arg = Some options' ->
  Args.sample_rate options' = Args.sample_rate options
  /\ Args.threshold options' = Args.threshold options
  /\ Args.max_speakers options' = Args.max_speakers options
  /\ (arg <> "--verbose" -> arg <> "--debug" ->
      Args.verbose options' = Args.verbose options).
Proof.
  unfold Args.flag.
  destruct (String.eqb_spec arg "--verbose") as [Hv | Hv];
    destruct (String.eqb_spec arg "--debug") as [Hd | Hd]; cbn [orb];
    try (intros Heq; inversion Heq; subst; cbn; repeat split; intros; congruence).
  destruct (_ || _); [discriminate |].
  intros Heq; inversion Heq; subst. repeat split.
Qed.

Lemma parse_loop_keeps :
  forall n args, (List.length args <= n)%nat ->
  forall options options',
    Args.parse_loop stoi stof options args = Args.Parsed options' ->
    Args.sample_rate options' = Args.sample_rate options
    /\ (~ In "--threshold" args -> Args.threshold options' = Args.threshold options)
    /\ (~ In "--max-speakers" args ->
        Args.max_speakers options' = Args.max_speakers options)
    /\ (~ In "--verbose" args -> ~ In "--debug" args ->
        Args.verbose options' = Args.verbose options).
Proof.
  induction n as [| n IH]; intros args Hlen options options' Hparse.
  - destruct args; [| cbn in Hlen; lia]. cbn in Hparse. inversion Hparse. repeat split.
  - destruct args as [| arg rest]; [cbn in Hparse; inversion Hparse; repeat split |].
    cbn [List.length] in Hlen.
    assert (Hother :
              match Args.flag options arg with
              | Some options1 => Args.parse_loop stoi stof options1 rest
              | None => Args.Exited
              end = Args.Parsed options' ->
              Args.sample_rate options' = Args.sample_rate options
              /\ (~ In "--threshold" (arg :: rest) ->
                  Args.threshold options' = Args.threshold options)
              /\ (~ In "--max-speakers" (arg :: rest) ->
                  Args.max_speakers options' = Args.max_speakers options)
              /\ (~ In "--verbose" (arg :: rest) -> ~ In "--debug" (arg :: rest) ->
                  Args.verbose options' = Args.verbose options)).
    { destruct (Args.flag options arg) as [options1 |] eqn:Hflag; [| discriminate].
      intros Hrest. destruct (flag_keeps _ _ _ Hflag) as [F1 [F2 [F3 F4]]].
      destruct (IH rest ltac:(lia) _ _ Hrest) as [H1 [H2 [H3 H4]]].
      cbn [In]. repeat split.
      - congruence.
      - intros Hno. rewrite H2 by tauto. exact F2.
      - intros Hno. rewrite H3 by tauto. exact F3.
      - intros Hv Hd. rewrite H4 by tauto. apply F4; intros ->; tauto. }
    cbn [Args.parse_loop] in Hparse.
    destruct rest as [| value rest']; [apply Hother; exact Hparse |].
    cbn [List.length] in Hlen.
    assert (Hvalue :
              forall options1,
                Args.parse_loop stoi stof options1 rest' = Args.Parsed options' ->
                Args.sample_rate options1 = Args.sample_rate options ->
                (arg <> "--threshold" -> Args.threshold options1 = Args.threshold options) ->
                (arg <> "--max-speakers" ->
                 Args.max_speakers options1 = Args.max_speakers options) ->
                Args.verbose options1 = Args.verbose options ->
                Args.sample_rate options' = Args.sample_rate options
                /\ (~ In "--threshold" (arg :: value :: rest') ->
                    Args.threshold options' = Args.threshold options)
                /\ (~ In "--max-speakers" (arg :: value :: rest') ->
                    Args.max_speakers options' = Args.max_speakers options)
                /\ (~ In "--verbose" (arg :: value :: rest') ->
                    ~ In "--debug" (arg :: value :: rest') ->
                    Args.verbose options' = Args.verbose options)).
    { intros options1 Hrest G1 G2 G3 G4.
      destruct (IH rest' ltac:(lia) _ _ Hrest) as [H1 [H2 [H3 H4]]].
      cbn [In]. repeat split.
      - congruence.
      - intros Hno. rewrite H2 by tauto. apply G2. intros ->. tauto.
      - intros Hno. rewrite H3 by tauto. apply G3. intros ->. tauto.
      - intros Hv Hd. rewrite H4 by tauto. exact G4. }
    destruct (String.eqb_spec arg "--audio") as [-> | _];
      [apply (Hvalue _ Hparse); intros; try reflexivity; congruence |].
    destruct (String.eqb_spec arg "--segment-model") as [-> | _];
      [apply (Hvalue _ Hparse); intros; try reflexivity; congruence |].
    destruct (String.eqb_spec arg "--embedding-model") as [-> | _];
      [apply (Hvalue _ Hparse); intros; try reflexivity; congruence |].
    destruct (String.eqb_spec arg "--max-speakers") as [-> | _].
    { destruct (stoi value); [| discriminate].
      apply (Hvalue _ Hparse); intros; try reflexivity; congruence. }
    destruct (String.eqb_spec arg "--threshold") as [-> | _].
    { destruct (stof value); [| discriminate].
      apply (Hvalue _ Hparse); intros; try reflexivity; congruence. }
    destruct (String.eqb_spec arg "--output-format") as [-> | _];
      [apply (Hvalue _ Hparse); intros; try reflexivity; congruence |].
    destruct (String.eqb_spec arg "--output") as [-> | _];
      [apply (Hvalue _ Hparse); intros; try reflexivity; congruence |].
    apply Hother. exact Hparse.
Qed.

(** X29: whatever the command line, when [parse_arguments] returns
    options their sample rate is 16000 (no argument sets it); without
    ["--threshold"] the threshold is 0.01 (not the 0.5 of the struct),
    without ["--max-speakers"] the limit is 10, and without ["--verbose"]
    and ["--debug"] the run is not verbose. *)
Theorem parse_arguments_defaults (argv : list string) (options : Args.DiarizeOptions) :
  Args.parse_arguments stoi stof argv = Args.Parsed options ->
  Args.sample_rate options = 16000%Z
  /\ (~ In "--threshold" (tl argv) -> Args.threshold options = 0.01)
  /\ (~ In "--max-speakers" (tl argv) -> Args.max_speakers options = 10%Z)
  /\ (~ In "--verbose" (tl argv) -> ~ In "--debug" (tl argv) ->
      Args.verbose options = false).
Proof.
  unfold Args.parse_arguments. intros Hparse.
  apply (parse_loop_keeps (List.length (tl argv)) (tl argv) (le_n _)) in Hparse.
  exact Hparse.
Qed.

End ArgumentParsing.

Section ArgumentExamples.
Import String.
Local Open Scope string_scope.

Lemma parse_arguments_defaults_witness :
  Args.sample_rate
    (Args.mkOptions "a.wav" "" "" "json" 10 0.01 16000
                    false "") = 16000%Z
  /\ (~ In "--threshold" (tl ["diarize"; "--audio"; "a.wav"]) ->
      Args.threshold
        (Args.mkOptions "a.wav" "" "" "json" 10 0.01 16000
                        false "") = 0.01)
  /\ (~ In "--max-speakers" (tl ["diarize"; "--audio"; "a.wav"]) ->
      Args.max_speakers
        (Args.mkOptions "a.wav" "" "" "json" 10 0.01 16000
                        false "") = 10%Z)
  /\ (~ In "--verbose" (tl ["diarize"; "--audio"; "a.wav"]) ->
      ~ In "--debug" (tl ["diarize"; "--audio"; "a.wav"]) ->
      Args.verbose
        (Args.mkOptions "a.wav" "" "" "json" 10 0.01 16000
                        false "") = false).
Proof.
  apply (parse_arguments_defaults (fun _ => None) (fun _ => None)
           ["diarize"; "--audio"; "a.wav"]).
  reflexivity.
Defined.

End ArgumentExamples.
